(** * arabic-reader: the extraction handlers, the flashcard component and
      the conversation player, embedded and verified.

    The development follows the TypeScript sources:
    - the vocabulary extraction route handler ([POST], vocabulary),
    - the conversation extraction route handler ([POST], conversation),
    - the learner pages ([BooksPage], [BookDetailPage], [UnitDetailPage]),
    - [VocabularyFlashcards] (navigation, multiple choice, test scoring),
    - [ConversationDisplay] (Play All sequencing).

    JavaScript strings are sequences of UTF-16 code units; JSON values are an
    inductive type; exceptions are an error monad; awaited calls are events
    of a small free monad whose answers come from the environment. *)

From Stdlib Require Import ZArith NArith List Bool Ascii String Lia.
From Stdlib Require Import Permutation Sorted.
From Stdlib Require Import Floats.SpecFloat.
From stdpp Require Import gmap list pretty.

Set Warnings "-notation-for-abbreviation,-register-all".

(* ===================================================================== *)
(** ** JavaScript strings *)
(* ===================================================================== *)

(** A JavaScript string is a finite sequence of UTF-16 code units. *)
Notation jsstring := (list N).

(** ASCII literals of the sources. *)
Definition str (s : string) : jsstring :=
  List.map N_of_ascii (list_ascii_of_string s).

(** The double quote, U+0022, for the template literals that contain it. *)
Definition dquote : jsstring := [34%N].

(** ECMAScript [WhiteSpace] and [LineTerminator] code points: what
    [String.prototype.trim] strips. All of them are single code units. *)
Definition isWhiteSpace (c : N) : bool :=
  ((9 <=? c) && (c <=? 13) || (c =? 32) || (c =? 160) || (c =? 5760)
   || (8192 <=? c) && (c <=? 8202) || (c =? 8232) || (c =? 8233)
   || (c =? 8239) || (c =? 8287) || (c =? 12288) || (c =? 65279))%N.

Fixpoint trimStart (s : jsstring) : jsstring :=
  match s with
  | c :: s' => if isWhiteSpace c then trimStart s' else s
  | [] => []
  end.

Definition trimEnd (s : jsstring) : jsstring :=
  rev (trimStart (rev s)).

(** [String.prototype.trim]. *)
Definition trim (s : jsstring) : jsstring := trimEnd (trimStart s).

(** [s.length > 0]. *)
Definition nonEmpty (s : jsstring) : bool :=
  match s with [] => false | _ :: _ => true end.

(** [s.startsWith(p)]. *)
Fixpoint startsWith (p s : jsstring) : bool :=
  match p, s with
  | [], _ => true
  | a :: p', b :: s' => (a =? b)%N && startsWith p' s'
  | _ :: _, [] => false
  end.

(** [xs.join(sep)] on strings. *)
Fixpoint join (sep : jsstring) (xs : list jsstring) : jsstring :=
  match xs with
  | [] => []
  | [x] => x
  | x :: rest => x ++ sep ++ join sep rest
  end.

(* ===================================================================== *)
(** ** Exceptions *)
(* ===================================================================== *)

(** What a [throw] or a rejected promise carries. [TypeError] and
    [SyntaxError] are raised by the engine, [Error m] is [new Error(m)], and
    [NonError] is any thrown value that is not an [Error] instance. *)
Inductive exn : Type :=
  | TypeError
  | SyntaxError
  | Error (message : jsstring)
  | NonError.

Inductive result (A : Type) : Type :=
  | Ok (a : A)
  | Throw (e : exn).
Arguments Ok {A} a.
Arguments Throw {A} e.

#[global] Instance result_ret : MRet result := fun _ a => Ok a.
#[global] Instance result_bind : MBind result := fun _ _ f m =>
  match m with
  | Ok a => f a
  | Throw e => Throw e
  end.

(** [xs.map(f)] when the callback may throw: the first exception escapes. *)
Fixpoint mapR {A B} (f : A -> result B) (xs : list A) : result (list B) :=
  match xs with
  | [] => Ok []
  | x :: rest => y ← f x; ys ← mapR f rest; Ok (y :: ys)
  end.

(** [xs.filter(p)] when the callback may throw. *)
Fixpoint filterR {A} (p : A -> result bool) (xs : list A) : result (list A) :=
  match xs with
  | [] => Ok []
  | x :: rest =>
      b ← p x; ys ← filterR p rest; Ok (if b : bool then x :: ys else ys)
  end.

(* ===================================================================== *)
(** ** JSON values *)
(* ===================================================================== *)

(** The values [JSON.parse] and [response.json()] produce. Numbers are
    IEEE 754 binary64 data. An object lists its own properties. *)
Inductive json : Type :=
  | JNull
  | JBool (b : bool)
  | JNum (n : spec_float)
  | JStr (s : jsstring)
  | JArr (items : list json)
  | JObj (fields : list (jsstring * json)).

(** A JavaScript value that may be [undefined]. *)
Notation jsval := (option json).

(** Own property lookup; a later binding of a key overrides an earlier
    one, as in [JSON.parse]. *)
Fixpoint ownProperty (k : jsstring) (fields : list (jsstring * json)) : jsval :=
  match fields with
  | [] => None
  | (k', v) :: rest =>
      match ownProperty k rest with
      | Some v' => Some v'
      | None => if decide (k = k') then Some v else None
      end
  end.

(** [v.k] for the property names the sources read ([arabic], [english],
    [choices], [message], [content], [model], [error]): none of them is
    defined on a built-in prototype, so only an object's own properties
    answer, and reading a property of [null] throws. *)
Definition getProp (v : json) (k : jsstring) : result jsval :=
  match v with
  | JNull => Throw TypeError
  | JObj fields => Ok (ownProperty k fields)
  | _ => Ok None
  end.

(** [v.k] on a value that may be [undefined]. *)
Definition getPropV (v : jsval) (k : jsstring) : result jsval :=
  match v with
  | None => Throw TypeError
  | Some x => getProp x k
  end.

(** [v?.k]. *)
Definition optChain (v : jsval) (k : jsstring) : result jsval :=
  match v with
  | None | Some JNull => Ok None
  | Some x => getProp x k
  end.

(** [v[0]]. *)
Definition index0 (v : jsval) : result jsval :=
  match v with
  | None | Some JNull => Throw TypeError
  | Some (JArr items) => Ok (head items)
  | Some (JStr s) => Ok (match s with [] => None | c :: _ => Some (JStr [c]) end)
  | Some (JObj fields) => Ok (ownProperty (str "0") fields)
  | Some _ => Ok None
  end.

(** [ToBoolean] on a number: false for zeros and NaN. *)
Definition numberTruthy (n : spec_float) : bool :=
  match n with
  | S754_zero _ | S754_nan => false
  | _ => true
  end.

(** [ToBoolean]. *)
Definition truthy (v : json) : bool :=
  match v with
  | JNull => false
  | JBool b => b
  | JNum n => numberTruthy n
  | JStr s => nonEmpty s
  | JArr _ | JObj _ => true
  end.

Definition truthyV (v : jsval) : bool :=
  match v with
  | None => false
  | Some x => truthy x
  end.

(** [Array.isArray]. *)
Definition isArray (v : json) : option (list json) :=
  match v with
  | JArr items => Some items
  | _ => None
  end.

(* ===================================================================== *)
(** ** The runtime *)
(* ===================================================================== *)

(** The built-ins the sources call and the development does not define:
    they are tables or parsers of the platform. *)
Class Runtime : Type := {
  (** [String.prototype.toLowerCase] *)
  toLowerCase : jsstring -> jsstring;
  (** [JSON.parse]; [None] when it throws a [SyntaxError] *)
  JSON_parse : jsstring -> option json;
  (** [Number.prototype.toString] *)
  Number_toString : spec_float -> jsstring;
  (** [parseInt]; [None] for [NaN] *)
  parseInt : jsstring -> option Z;
  (** [buffer.toString("base64")] *)
  base64 : list Byte.byte -> jsstring;
  (** the [message] of an engine-raised error *)
  engineMessage : exn -> jsstring;
}.

Section Conversions.
Context `{Runtime}.

(** [String(v)]. An array joins its elements with commas, [null] elements
    giving the empty string; an object prints through
    [Object.prototype.toString] unless an own [toString] property (never
    callable in parsed JSON) hides it, in which case the conversion
    throws. *)
Fixpoint String_ (v : json) : result jsstring :=
  match v with
  | JNull => Ok (str "null")
  | JBool true => Ok (str "true")
  | JBool false => Ok (str "false")
  | JNum n => Ok (Number_toString n)
  | JStr s => Ok s
  | JArr items =>
      parts ← (fix elements (xs : list json) : result (list jsstring) :=
                 match xs with
                 | [] => Ok []
                 | x :: rest =>
                     p ← match x with JNull => Ok [] | _ => String_ x end;
                     ps ← elements rest;
                     Ok (p :: ps)
                 end) items;
      Ok (join (str ",") parts)
  | JObj fields =>
      match ownProperty (str "toString") fields with
      | Some _ => Throw TypeError
      | None => Ok (str "[object Object]")
      end
  end.

(** [e instanceof Error ? e.message : fallback]. *)
Definition messageOr (e : exn) (fallback : jsstring) : jsstring :=
  match e with
  | Error m => m
  | NonError => fallback
  | _ => engineMessage e
  end.

End Conversions.

(* ===================================================================== *)
(** ** Pieces shared by the two extraction handlers *)
(* ===================================================================== *)

(** [content.match(/\[[\s\S]*\]/)]: the leftmost [[] followed, as far to the
    right as possible, by a []]; [jsonMatch[0]] is the text between them,
    brackets included. *)
Fixpoint throughLastClose (s : jsstring) : option jsstring :=
  match s with
  | [] => None
  | c :: s' =>
      match throughLastClose s' with
      | Some t => Some (c :: t)
      | None => if (c =? 93)%N then Some [c] else None
      end
  end.

Fixpoint matchBrackets (s : jsstring) : option jsstring :=
  match s with
  | [] => None
  | c :: s' =>
      if (c =? 91)%N then cons c <$> throughLastClose s' else matchBrackets s'
  end.

(** The idiom of both handlers,
    [xs.filter(x => { if (dup(x)) { duplicates.push(x); return false; }
                      return true; })],
    with the array [duplicates] threaded through: the result is the
    filtered array and the array after the pushes. *)
Fixpoint filterPush {A} (dup : A -> bool) (xs duplicates : list A)
  : list A * list A :=
  match xs with
  | [] => ([], duplicates)
  | x :: rest =>
      if dup x then filterPush dup rest (duplicates ++ [x])
      else let '(kept, duplicates') := filterPush dup rest duplicates in
           (x :: kept, duplicates')
  end.

(** [text.toLowerCase().trim()], the [normalizeWord] / [normalizeText]
    arrow function of the handlers. *)
Definition normalizeText `{Runtime} (text : jsstring) : jsstring :=
  trim (toLowerCase text).

(** The same call on a value read from parsed JSON: only a string has a
    [toLowerCase] method, anything else makes the call throw. *)
Definition normalizeValue `{Runtime} (text : jsval) : result jsstring :=
  match text with
  | Some (JStr s) => Ok (normalizeText s)
  | _ => Throw TypeError
  end.

(** [String(v)] on a value that may be [undefined]. *)
Definition StringV `{Runtime} (v : jsval) : result jsstring :=
  match v with
  | None => Ok (str "undefined")
  | Some x => String_ x
  end.

(** [existing.map(f)] on a value parsed from the form field: only an array
    has a callable [map]. *)
Definition arrayMap {B} (existing : json) (f : json -> result B)
  : result (list B) :=
  match existing with
  | JArr items => mapR f items
  | _ => Throw TypeError
  end.

(** The uploaded file: its MIME type and its bytes ([file.arrayBuffer()]). *)
Record file : Type := {
  file_type : jsstring;
  file_bytes : list Byte.byte;
}.

(** The multipart form: the [image] entry and the text entries;
    [formData.get(name)] answers the first entry of that name. *)
Record formData : Type := {
  image : option file;
  entries : list (jsstring * jsstring);
}.

Fixpoint formGet (es : list (jsstring * jsstring)) (name : jsstring)
  : option jsstring :=
  match es with
  | [] => None
  | (k, v) :: rest => if decide (k = name) then Some v else formGet rest name
  end.

(** What [getOpenRouterConfig] resolves to. *)
Record config : Type := {
  apiKey : option jsstring;
  supportedModels : list jsstring;
}.

(** [xs.includes(x)] on strings. *)
Definition includes (xs : list jsstring) (x : jsstring) : bool :=
  bool_decide (x ∈ xs).

Definition visionModels : list jsstring :=
  [ str "openai/gpt-4o"; str "openai/gpt-4o-mini";
    str "anthropic/claude-3.5-sonnet"; str "anthropic/claude-3-opus";
    str "google/gemini-pro-vision" ].

(** The model selection of both handlers. *)
Definition chooseModel (selectedModel : option jsstring) (cfg : config)
  : jsstring :=
  let model := str "openai/gpt-4o" (* visionModels[0] *) in
  let selected :=
    match selectedModel with
    | Some m => nonEmpty m && includes (supportedModels cfg) m
    | None => false
    end in
  if selected then default model selectedModel
  else if (0 <? length (supportedModels cfg))%nat then
    match List.find (fun m => includes (supportedModels cfg) m) visionModels with
    | Some supportedVisionModel => supportedVisionModel
    | None => model
    end
  else model.

(** [customPrompt?.trim() || basePrompt]. *)
Definition choosePrompt (customPrompt : option jsstring) (basePrompt : jsstring)
  : jsstring :=
  match customPrompt with
  | Some c => if nonEmpty (trim c) then trim c else basePrompt
  | None => basePrompt
  end.

(** The chat-completions request body before [JSON.stringify]. *)
Inductive contentPart : Type :=
  | TextPart (text : jsstring)            (* { type: "text", text } *)
  | ImageUrlPart (url : jsstring).        (* { type: "image_url", image_url: { url } } *)

Inductive role : Type := User | Assistant | System.

Record message : Type := {
  msg_role : role;
  msg_content : list contentPart;
}.

Record requestBody : Type := {
  rb_model : jsstring;
  rb_messages : list message;
  rb_temperature : Z;
}.

Record fetchInit : Type := {
  fi_method : jsstring;
  fi_headers : list (jsstring * jsstring);
  fi_body : requestBody;
}.

(** The part of the [Response] the handlers read. [response.ok] is derived
    from the status; [response.json()] may reject. *)
Record fetchResponse : Type := {
  resp_status : N;
  resp_statusText : jsstring;
  resp_json : result json;
}.

Definition resp_ok (r : fetchResponse) : bool :=
  ((200 <=? resp_status r) && (resp_status r <=? 299))%N.

(** [`data:${mimeType};base64,${base64Image}`]. *)
Definition dataUrl (mimeType base64Image : jsstring) : jsstring :=
  str "data:" ++ mimeType ++ str ";base64," ++ base64Image.

Definition visionMessages (promptText mimeType base64Image : jsstring)
  : list message :=
  [ {| msg_role := User;
       msg_content := [ TextPart promptText;
                        ImageUrlPart (dataUrl mimeType base64Image) ] |} ].

(** Rows of the tables the conversation handler reads. *)
Record lesson : Type := {
  lesson_id : Z;
  lesson_unitId : Z;
}.

Record vocabularyWordRow : Type := {
  row_arabic : jsstring;
  row_english : jsstring;
}.

(** What the handlers answer: [NextResponse.json(body, { status })]. *)
Inductive body (entry : Type) : Type :=
  | ErrorBody (error : jsstring)
      (* { error } *)
  | ParseFailureBody (error : jsstring) (rawResponse : json)
      (* { error, rawResponse } *)
  | SuccessBody (extracted duplicates : list entry) (model : json).
      (* { success: true, wordPairs | sentences, duplicates, model } *)
Arguments ErrorBody {entry} error.
Arguments ParseFailureBody {entry} error rawResponse.
Arguments SuccessBody {entry} extracted duplicates model.

Record nextResponse (entry : Type) : Type := {
  status : Z;
  resp_body : body entry;
}.
Arguments status {entry} _.
Arguments resp_body {entry} _.

Definition jsonResponse {entry} (b : body entry) (st : Z) : nextResponse entry :=
  {| status := st; resp_body := b |}.

(* ===================================================================== *)
(** ** Awaited calls as events *)
(* ===================================================================== *)

(** The calls whose outcome the environment decides. An answer of type
    [result X] is a promise that resolves or rejects. *)
Inductive event : Type -> Type :=
  | RequireAdmin : event (result unit)
  | RequestFormData : event (result formData)
  | GetOpenRouterConfig : event (result (option config))
  | ProcessEnv (name : jsstring) : event (option jsstring)
  | Fetch (url : jsstring) (init : fetchInit) : event (result fetchResponse)
  | SelectLessonById (lessonId : Z) : event (result (list lesson))
  | SelectVocabularyLessons (unitId : Z) : event (result (list lesson))
  | SelectVocabularyWords (lessonIds : list Z)
      : event (result (list vocabularyWordRow)).

(** Programs: a result, an exception, or an event and what follows its
    answer. *)
Inductive prog (E : Type -> Type) (A : Type) : Type :=
  | Ret (a : A)
  | Raise (e : exn)
  | Vis {X : Type} (ev : E X) (k : X -> prog E A).
Arguments Ret {E A} a.
Arguments Raise {E A} e.
Arguments Vis {E A X} ev k.

Fixpoint bind {E A B} (m : prog E A) (f : A -> prog E B) : prog E B :=
  match m with
  | Ret a => f a
  | Raise e => Raise e
  | Vis ev k => Vis ev (fun x => bind (k x) f)
  end.

#[global] Instance prog_ret {E} : MRet (prog E) := fun _ a => Ret a.
#[global] Instance prog_bind {E} : MBind (prog E) := fun _ _ f m => bind m f.

(** [try { m } catch (e) { h e }]. *)
Fixpoint tryCatch {E A} (m : prog E A) (h : exn -> prog E A) : prog E A :=
  match m with
  | Ret a => Ret a
  | Raise e => h e
  | Vis ev k => Vis ev (fun x => tryCatch (k x) h)
  end.

(** [await call] for a call that may reject. *)
Definition await {E X} (ev : E (result X)) : prog E X :=
  Vis ev (fun r => match r with Ok x => Ret x | Throw e => Raise e end).

(** Reading an input that cannot fail. *)
Definition perform {E X} (ev : E X) : prog E X := Vis ev Ret.

(** A pure computation that may throw. *)
Definition lift {E A} (r : result A) : prog E A :=
  match r with Ok a => Ret a | Throw e => Raise e end.

(** An environment answers every event; running a program against it gives
    the outcome and the events performed, in order. *)
Definition environment (E : Type -> Type) : Type := forall X, E X -> X.

Fixpoint run {E A} (env : environment E) (m : prog E A)
  : result A * list (sigT E) :=
  match m with
  | Ret a => (Ok a, [])
  | Raise e => (Throw e, [])
  | Vis ev k =>
      let '(r, trace) := run env (k (env _ ev)) in
      (r, existT _ ev :: trace)
  end.

(** The form field [existingWords] / [existingSentences]: parsed when it is
    a non-empty string, and the empty array when it is absent or does not
    parse. *)
Definition parseExisting `{Runtime} (existingJson : option jsstring) : json :=
  match existingJson with
  | Some text =>
      if nonEmpty text then
        match JSON_parse text with
        | Some v => v
        | None => JArr []
        end
      else JArr []
  | None => JArr []
  end.

(** [config && config.apiKey], when truthy. *)
Definition configured (c : option config) : option (config * jsstring) :=
  match c with
  | Some cfg =>
      match apiKey cfg with
      | Some key => if nonEmpty key then Some (cfg, key) else None
      | None => None
      end
  | None => None
  end.

(** [process.env.NAME || fallback]. *)
Definition orDefault (v : option jsstring) (fallback : jsstring) : jsstring :=
  match v with
  | Some s => if nonEmpty s then s else fallback
  | None => fallback
  end.

Definition completionsUrl : jsstring :=
  str "https://openrouter.ai/api/v1/chat/completions".

(** The second argument of the [fetch] call of both handlers. *)
Definition openRouterInit (key model : jsstring) (messages : list message)
    (referer title : option jsstring) : fetchInit :=
  {| fi_method := str "POST";
     fi_headers :=
       [ (str "Content-Type", str "application/json");
         (str "Authorization", str "Bearer " ++ key);
         (str "HTTP-Referer", orDefault referer (str "http://localhost:3000"));
         (str "X-Title", orDefault title (str "TaskFlow")) ];
     fi_body := {| rb_model := model;
                   rb_messages := messages;
                   rb_temperature := 0 |} |}.

(** The [fetch] call of both handlers. *)
Definition callOpenRouter (key model : jsstring) (messages : list message)
  : prog event fetchResponse :=
  referer ← perform (ProcessEnv (str "NEXT_PUBLIC_APP_URL"));
  title ← perform (ProcessEnv (str "NEXT_PUBLIC_APP_NAME"));
  await (Fetch completionsUrl (openRouterInit key model messages referer title)).

(** What the [if (!response.ok)] branch throws:
    [new Error(errorData.error?.message || `OpenRouter API error: ...`)],
    where [errorData] is the body, or [{}] when it cannot be read. Reading
    [errorData.error] or building the message may itself throw. *)
Definition apiFailure `{Runtime} (response : fetchResponse) : exn :=
  let errorData :=
    match resp_json response with
    | Ok v => v
    | Throw _ => JObj []
    end in
  let message : result jsstring :=
    error ← getProp errorData (str "error");
    m ← optChain error (str "message");
    if truthyV m then StringV m
    else Ok (str "OpenRouter API error: " ++ str (pretty (resp_status response))
             ++ str " " ++ resp_statusText response) in
  match message with
  | Ok m => Error m
  | Throw e => e
  end.

(** [data.choices[0]?.message?.content || ""]. *)
Definition replyContent (data : json) : result json :=
  choices ← getProp data (str "choices");
  first ← index0 choices;
  message ← optChain first (str "message");
  content ← optChain message (str "content");
  Ok (match content with
      | Some c => if truthy c then c else JStr []
      | None => JStr []
      end).

(** [data.model || model]. *)
Definition replyModel (dataModel : jsval) (model : jsstring) : json :=
  match dataModel with
  | Some m => if truthy m then m else JStr model
  | None => JStr model
  end.

(** The first lines of both [try] blocks: find the JSON text in the reply,
    parse it, and insist on an array. A [content] that is not a string has
    no [match] method. *)
Definition parseReplyArray `{Runtime} (content : json) : result (list json) :=
  text ← match content with
         | JStr s => Ok s
         | _ => Throw TypeError
         end;
  parsed ← match JSON_parse (default text (matchBrackets text)) with
           | Some v => Ok v
           | None => Throw SyntaxError
           end;
  match isArray parsed with
  | Some items => Ok items
  | None => Throw (Error (str "Response is not an array"))
  end.

(* ===================================================================== *)
(** ** The vocabulary extraction handler *)
(* ===================================================================== *)

Module Vocabulary.

Record wordPair : Type := {
  arabic : jsstring;
  english : jsstring;
}.

(** The outer variables the [try] block assigns. *)
Record locals : Type := {
  wordPairs : list wordPair;
  duplicates : list wordPair;
}.

Definition basePromptLines : list jsstring :=
  [
    str "You are an expert in Arabic language education. Analyze this "
      ++ str "image of a vocabulary page from an Arabic textbook. Extract all "
      ++ str "Arabic-English word pairs from the page.";
    [];
    str "CRITICAL: You must extract the EXACT words as they appear in "
      ++ str "the image. Do NOT generate, paraphrase, translate, or create "
      ++ str "new words. Copy the text character-by-character exactly as it "
      ++ str "appears in the image.";
    [];
    str "The image shows a vocabulary dictionary page with a TWO-COLUMN "
      ++ str "layout:";
    str "- **Left column**: Contains English translations, explanations, "
      ++ str "or contextual information";
    str "- **Right column**: Contains Arabic words/phrases (or vice "
      ++ str "versa depending on page layout)";
    str "- Sometimes there may be a third column with additional "
      ++ str "information like root forms, phonetic breakdowns, or "
      ++ str "morphological analysis";
    [];
    str "IMPORTANT: The page has TWO main columns for word pairs. You "
      ++ str "must extract word pairs from BOTH columns, not just the first "
      ++ str "one. Look for:";
    str "- English text in one column paired with Arabic text in another "
      ++ str "column";
    str "- Each row typically represents one vocabulary word pair";
    str "- Some rows may have additional information (morphological "
      ++ str "breakdowns, root forms, etc.) - extract the main word pair";
    [];
    str "Please extract ALL word pairs from BOTH columns and return them "
      ++ str "as a JSON array in this exact format:";
    str "[";
    str "  {";
    str "    " ++ dquote ++ str "arabic" ++ dquote ++ str ": " ++ dquote
      ++ [1575; 1604; 1618; 1593; 1614; 1585; 1614; 1576; 1616; 1610; 1617; 1614; 1577; 1615]%N
      ++ dquote ++ str ",";
    str "    " ++ dquote ++ str "english" ++ dquote ++ str ": " ++ dquote
      ++ str "Arabic" ++ dquote;
    str "  },";
    str "  {";
    str "    " ++ dquote ++ str "arabic" ++ dquote ++ str ": " ++ dquote
      ++ [1575; 1604; 1618; 1573; 1616; 1606; 1618; 1580; 1616; 1604; 1616; 1610; 1586; 1616; 1610; 1617; 1614; 1577; 1615]%N
      ++ dquote ++ str ",";
    str "    " ++ dquote ++ str "english" ++ dquote ++ str ": " ++ dquote
      ++ str "English" ++ dquote;
    str "  }";
    str "]";
    [];
    str "Important extraction rules:";
    str "- Extract word pairs from BOTH the left and right columns (or "
      ++ str "all columns if there are more)";
    str "- Extract only actual vocabulary word pairs (Arabic and English)";
    str "- Ignore headers, titles, page numbers, section titles, and "
      ++ str "other metadata";
    str "- COPY THE EXACT TEXT from the image - do not translate, "
      ++ str "paraphrase, or generate alternative words";
    str "- For Arabic words: Copy the exact Arabic text as it appears, "
      ++ str "including all diacritics (tashkeel)";
    str "- For English words: Copy the exact English text as it appears, "
      ++ str "including capitalization and punctuation";
    str "- If a word has multiple translations shown, extract the exact "
      ++ str "text of the primary/main translation as it appears";
    str "- If there are morphological breakdowns in parentheses, extract "
      ++ str "the main word exactly as shown (not the breakdown)";
    str "- DO NOT create synonyms or alternative translations - use only "
      ++ str "what is visible in the image";
    str "- Return ONLY valid JSON, no additional text or explanation";
    str "- If you find no word pairs, return an empty array: []"
  ].

(** The template literal [basePrompt], line by line. *)
Definition basePrompt : jsstring := join [10%N] basePromptLines.

Section Handler.
Context `{Runtime}.

(** [(pair) => pair.arabic && pair.english]. *)
Definition hasBoth (pair : json) : result bool :=
  a ← getProp pair (str "arabic");
  if truthyV a then e ← getProp pair (str "english"); Ok (truthyV e)
  else Ok false.

(** [(pair) => ({ arabic: String(pair.arabic).trim(),
                  english: String(pair.english).trim() })]. *)
Definition toWordPair (pair : json) : result wordPair :=
  a ← getProp pair (str "arabic");
  sa ← StringV a;
  e ← getProp pair (str "english");
  se ← StringV e;
  Ok {| arabic := trim sa; english := trim se |}.

(** [(pair) => pair.arabic.length > 0 && pair.english.length > 0]. *)
Definition bothNonEmpty (pair : wordPair) : bool :=
  nonEmpty (arabic pair) && nonEmpty (english pair).

(** "Filter and validate word pairs". *)
Definition validate (items : list json) : result (list wordPair) :=
  present ← filterR hasBoth items;
  trimmed ← mapR toWordPair present;
  Ok (List.filter bothNonEmpty trimmed).

(** [`${normalizeWord(pair.arabic)}|${normalizeWord(pair.english)}`]. *)
Definition pairKey (pair : wordPair) : jsstring :=
  normalizeText (arabic pair) ++ str "|" ++ normalizeText (english pair).

(** The same template on an element of [existingWords]. *)
Definition existingKey (w : json) : result jsstring :=
  a ← getProp w (str "arabic");
  na ← normalizeValue a;
  e ← getProp w (str "english");
  ne ← normalizeValue e;
  Ok (na ++ str "|" ++ ne).

(** "Filter out duplicates based on existing words": the set of existing
    keys, then the filter that pushes what it removes. The pair returned
    is [uniqueWordPairs] and the block's own [duplicates] array. *)
Definition removeDuplicates (existingWords : json) (wordPairs : list wordPair)
  : result (list wordPair * list wordPair) :=
  keys ← arrayMap existingWords existingKey;
  let existingWordsSet : gset jsstring := list_to_set keys in
  Ok (filterPush (fun pair => bool_decide (pairKey pair ∈ existingWordsSet))
                 wordPairs []).

(** The [try] block. It declares its own [const duplicates], which hides
    the outer variable of that name: the pushes go to the inner array and
    the outer one is left as it was. *)
Definition parseBlock (content existingWords : json) (outer : locals)
  : result locals :=
  items ← parseReplyArray content;
  validated ← validate items;
  '(uniqueWordPairs, _) ← removeDuplicates existingWords validated;
  Ok {| wordPairs := uniqueWordPairs; duplicates := duplicates outer |}.

Definition unauthorized : nextResponse wordPair :=
  jsonResponse (ErrorBody (str "Unauthorized")) 401.

Definition parseFailure (content : json) : nextResponse wordPair :=
  jsonResponse
    (ParseFailureBody
       (str "Failed to parse extracted word pairs. "
        ++ str "The AI response was not in the expected format.")
       content) 500.

(** What the handler makes of the API's answer: the second [try] block
    from [if (!response.ok)] on. It awaits nothing but the body of the
    answer; an exception leaves it for the outer [catch]. *)
Definition respond (response : fetchResponse) (existingWords : json)
    (model : jsstring) : result (nextResponse wordPair) :=
  if negb (resp_ok response) then Throw (apiFailure response)
  else
    data ← resp_json response;
    content ← replyContent data;
    match parseBlock content existingWords
            {| wordPairs := []; duplicates := [] |} with
    | Throw _ => Ok (parseFailure content)
    | Ok vars =>
        dataModel ← getProp data (str "model");
        Ok (jsonResponse
              (SuccessBody (wordPairs vars) (duplicates vars)
                           (replyModel dataModel model)) 200)
    end.

(** The second [try] block of [POST]. *)
Definition handle : prog event (nextResponse wordPair) :=
  formData ← await RequestFormData;
  let selectedModel := formGet (entries formData) (str "model") in
  let customPrompt := formGet (entries formData) (str "customPrompt") in
  let existingWordsJson := formGet (entries formData) (str "existingWords") in
  match image formData with
  | None => Ret (jsonResponse (ErrorBody (str "No image file provided")) 400)
  | Some file =>
      if negb (startsWith (str "image/") (file_type file)) then
        Ret (jsonResponse (ErrorBody (str "File must be an image")) 400)
      else
        let existingWords := parseExisting existingWordsJson in
        let base64Image := base64 (file_bytes file) in
        let mimeType := file_type file in
        config ← await GetOpenRouterConfig;
        match configured config with
        | None =>
            Ret (jsonResponse
                   (ErrorBody (str "OpenRouter API key not configured")) 500)
        | Some (cfg, key) =>
            let model := chooseModel selectedModel cfg in
            let promptText := choosePrompt customPrompt basePrompt in
            let messages := visionMessages promptText mimeType base64Image in
            response ← callOpenRouter key model messages;
            lift (respond response existingWords model)
        end
  end.

(** The outer [catch]. *)
Definition failure (error : exn) : nextResponse wordPair :=
  jsonResponse
    (ErrorBody (messageOr error (str "Failed to parse vocabulary image")))
    500.

Definition POST : prog event (nextResponse wordPair) :=
  Vis RequireAdmin (fun admin =>
    match admin with
    | Throw _ => Ret unauthorized
    | Ok _ => tryCatch handle (fun error => Ret (failure error))
    end).

End Handler.

End Vocabulary.

(* ===================================================================== *)
(** ** The conversation extraction handler *)
(* ===================================================================== *)

Module Conversation.

(** [english] is [undefined] when the reply gave none. *)
Record sentence : Type := {
  arabic : jsstring;
  english : option jsstring;
}.

(** The outer variables the [try] block assigns. *)
Record locals : Type := {
  sentences : list sentence;
  duplicates : list sentence;
}.

Definition basePromptLines : list jsstring :=
  [
    str "You are an expert in Arabic language education. Analyze this "
      ++ str "image of a conversation page from an Arabic textbook. Extract "
      ++ str "all Arabic sentences from the page, along with their English "
      ++ str "translations if visible.";
    [];
    str "CRITICAL: You must extract the EXACT Arabic text as it appears "
      ++ str "in the image. Do NOT generate, paraphrase, or create new "
      ++ str "sentences. Copy the text character-by-character exactly as it "
      ++ str "appears in the image, including all diacritics (tashkeel).";
    [];
    str "The image shows a conversation page with a TWO-COLUMN layout:";
    str "- **Left column**: Contains speech bubbles with Arabic "
      ++ str "sentences (or English translations)";
    str "- **Right column**: Contains speech bubbles with Arabic "
      ++ str "sentences (or English translations)";
    str "- Sentences alternate between left and right columns as the "
      ++ str "conversation flows";
    str "- Each speech bubble typically contains one or more Arabic "
      ++ str "sentences";
    str "- Some speech bubbles may have English translations visible "
      ++ str "(handwritten notes, annotations, or separate text)";
    [];
    str "IMPORTANT: The page has TWO main columns for conversation "
      ++ str "sentences. You must extract sentences from BOTH columns, not "
      ++ str "just the first one. Look for:";
    str "- Arabic sentences in speech bubbles in both left and right "
      ++ str "columns";
    str "- English translations if they appear (in annotations, notes, "
      ++ str "or separate text)";
    str "- The order of sentences should follow the natural flow of the "
      ++ str "conversation (top to bottom, alternating columns)";
    [];
    str "Please extract ALL sentences from BOTH columns and return them "
      ++ str "as a JSON array in this exact format:";
    str "[";
    str "  {";
    str "    " ++ dquote ++ str "arabic" ++ dquote ++ str ": " ++ dquote
      ++ [1575; 1604; 1587; 1617; 1614; 1604; 1575; 1605; 1615]%N ++ str " "
      ++ [1593; 1614; 1604; 1614; 1610; 1618; 1603; 1615; 1605; 1618]%N ++ str " !"
      ++ dquote ++ str ",";
    str "    " ++ dquote ++ str "english" ++ dquote ++ str ": " ++ dquote
      ++ str "Peace be upon you!" ++ dquote;
    str "  },";
    str "  {";
    str "    " ++ dquote ++ str "arabic" ++ dquote ++ str ": " ++ dquote
      ++ [1608; 1614; 1593; 1614; 1604; 1614; 1610; 1618; 1603; 1615; 1605; 1615]%N
      ++ str " " ++ [1575; 1604; 1587; 1617; 1614; 1604; 1575; 1605; 1615]%N
      ++ str " " ++ [1608; 1614; 1585; 1614; 1581; 1618; 1605; 1614; 1577; 1615]%N
      ++ str " " ++ [1575; 1604; 1604; 1607; 1616]%N ++ str " "
      ++ [1608; 1614; 1576; 1614; 1585; 1614; 1603; 1614; 1575; 1578; 1615; 1607; 1615]%N
      ++ str " !" ++ dquote ++ str ",";
    str "    " ++ dquote ++ str "english" ++ dquote ++ str ": " ++ dquote
      ++ str "And upon you be peace and God's mercy and blessings!" ++ dquote;
    str "  },";
    str "  {";
    str "    " ++ dquote ++ str "arabic" ++ dquote ++ str ": " ++ dquote
      ++ [1571; 1614; 1606; 1614; 1575]%N ++ str " "
      ++ [1587; 1614; 1605; 1616; 1610; 1585; 1613]%N ++ str " "
      ++ [1605; 1615; 1581; 1614; 1605; 1617; 1614; 1583; 1613]%N ++ dquote
      ++ str ",";
    str "    " ++ dquote ++ str "english" ++ dquote ++ str ": " ++ dquote
      ++ str "I am Samir Muhammad" ++ dquote;
    str "  }";
    str "]";
    [];
    str "Important extraction rules:";
    str "- Extract sentences from BOTH the left and right columns";
    str "- Extract only actual conversation sentences (Arabic text in "
      ++ str "speech bubbles)";
    str "- Ignore headers, titles, page numbers, section titles, "
      ++ str "character names, and other metadata";
    str "- COPY THE EXACT ARABIC TEXT from the image - do not translate, "
      ++ str "paraphrase, or generate alternative sentences";
    str "- For Arabic sentences: Copy the exact Arabic text as it "
      ++ str "appears, including all diacritics (tashkeel)";
    str "- For English translations: If visible in the image, copy the "
      ++ str "exact English text. If not visible, you may provide a "
      ++ str "translation based on the vocabulary context provided below, but "
      ++ str "mark it clearly if it's inferred rather than extracted";
    str "- Extract sentences in the order they appear (top to bottom, "
      ++ str "left to right)";
    str "- Each speech bubble typically represents one sentence entry";
    str "- If a speech bubble contains multiple sentences, you may split "
      ++ str "them into separate entries";
    str "- Return ONLY valid JSON, no additional text or explanation";
    str "- If you find no sentences, return an empty array: []"
  ].

(** [`  - "${w.arabic}" = "${w.english}"`]. *)
Definition vocabLine (w : vocabularyWordRow) : jsstring :=
  str "  - " ++ dquote ++ row_arabic w ++ dquote ++ str " = "
  ++ dquote ++ row_english w ++ dquote.

(** The vocabulary context appended to the prompt: the first hundred words
    of the unit, or nothing when the unit has none. *)
Definition vocabularyContextOf (vocabWords : list vocabularyWordRow) : jsstring :=
  if (0 <? length vocabWords)%nat then
    let vocabList := join [10%N] (List.map vocabLine (firstn 100 vocabWords)) in
    [10; 10]%N
    ++ str "IMPORTANT: Use the following vocabulary from this unit to help "
    ++ str "translate the Arabic sentences accurately:" ++ [10%N]
    ++ vocabList ++ [10; 10]%N
    ++ str "When translating Arabic sentences, prioritize using these "
    ++ str "vocabulary words and their meanings. If a sentence contains words "
    ++ str "from this vocabulary list, use the exact English translations "
    ++ str "provided."
  else [].

(** The template literal [basePrompt], which ends with
    [${vocabularyContext}]. *)
Definition basePrompt (vocabularyContext : jsstring) : jsstring :=
  join [10%N] basePromptLines ++ vocabularyContext.

Section Handler.
Context `{Runtime}.

(** [(s) => s.arabic]. *)
Definition hasArabic (s : json) : result bool :=
  a ← getProp s (str "arabic");
  Ok (truthyV a).

(** [(s) => ({ arabic: String(s.arabic).trim(),
               english: s.english ? String(s.english).trim() : undefined })]. *)
Definition toSentence (s : json) : result sentence :=
  a ← getProp s (str "arabic");
  sa ← StringV a;
  e ← getProp s (str "english");
  en ← (if truthyV e then se ← StringV e; Ok (Some (trim se)) else Ok None);
  Ok {| arabic := trim sa; english := en |}.

(** "Filter and validate sentences". *)
Definition validate (items : list json) : result (list sentence) :=
  present ← filterR hasArabic items;
  trimmed ← mapR toSentence present;
  Ok (List.filter (fun s => nonEmpty (arabic s)) trimmed).

(** [normalizeText(sentence.arabic)]. *)
Definition sentenceKey (s : sentence) : jsstring :=
  normalizeText (arabic s).

(** [(s) => normalizeText(s.arabic)] on an element of
    [existingSentences]. *)
Definition existingKey (s : json) : result jsstring :=
  a ← getProp s (str "arabic");
  normalizeValue a.

(** "Filter out duplicates based on existing sentences". The filter
    pushes into the array it is given: here the outer [duplicates], just
    reset to [[]]. *)
Definition removeDuplicates (existingSentences : json)
    (validated duplicates0 : list sentence)
  : result (list sentence * list sentence) :=
  keys ← arrayMap existingSentences existingKey;
  let existingSentencesSet : gset jsstring := list_to_set keys in
  Ok (filterPush
        (fun s => bool_decide (sentenceKey s ∈ existingSentencesSet))
        validated duplicates0).

(** The [try] block: it assigns the outer [duplicates] and pushes into
    it. *)
Definition parseBlock (content existingSentences : json) (outer : locals)
  : result locals :=
  items ← parseReplyArray content;
  validated ← validate items;
  '(uniqueSentences, duplicates') ←
    removeDuplicates existingSentences validated [];
  Ok {| sentences := uniqueSentences; duplicates := duplicates' |}.

Definition unauthorized : nextResponse sentence :=
  jsonResponse (ErrorBody (str "Unauthorized")) 401.

Definition parseFailure (content : json) : nextResponse sentence :=
  jsonResponse
    (ParseFailureBody
       (str "Failed to parse extracted sentences. "
        ++ str "The AI response was not in the expected format.")
       content) 500.

(** What the handler makes of the API's answer: the second [try] block
    from [if (!response.ok)] on. It awaits nothing but the body of the
    answer; an exception leaves it for the outer [catch]. *)
Definition respond (response : fetchResponse) (existingSentences : json)
    (model : jsstring) : result (nextResponse sentence) :=
  if negb (resp_ok response) then Throw (apiFailure response)
  else
    data ← resp_json response;
    content ← replyContent data;
    match parseBlock content existingSentences
            {| sentences := []; duplicates := [] |} with
    | Throw _ => Ok (parseFailure content)
    | Ok vars =>
        dataModel ← getProp data (str "model");
        Ok (jsonResponse
              (SuccessBody (sentences vars) (duplicates vars)
                           (replyModel dataModel model)) 200)
    end.

(** "Get all vocabulary words from vocabulary lessons in this unit". *)
Definition loadVocabularyContext (unitId : Z) : prog event jsstring :=
  unitLessons ← await (SelectVocabularyLessons unitId);
  if (0 <? length unitLessons)%nat then
    let lessonIds := List.map lesson_id unitLessons in
    vocabWords ← await (SelectVocabularyWords lessonIds);
    Ret (vocabularyContextOf vocabWords)
  else Ret [].

(** The steps from the configuration on, once the form is accepted and
    the lesson found. *)
Definition extract (file : file) (selectedModel customPrompt : option jsstring)
    (existingSentences : json) (vocabularyContext : jsstring)
  : prog event (nextResponse sentence) :=
  let base64Image := base64 (file_bytes file) in
  let mimeType := file_type file in
  config ← await GetOpenRouterConfig;
  match configured config with
  | None =>
      Ret (jsonResponse
             (ErrorBody (str "OpenRouter API key not configured")) 500)
  | Some (cfg, key) =>
      let model := chooseModel selectedModel cfg in
      let promptText := choosePrompt customPrompt (basePrompt vocabularyContext) in
      let messages := visionMessages promptText mimeType base64Image in
      response ← callOpenRouter key model messages;
      lift (respond response existingSentences model)
  end.

(** The second [try] block of [POST]. *)
Definition handle : prog event (nextResponse sentence) :=
  formData ← await RequestFormData;
  let selectedModel := formGet (entries formData) (str "model") in
  let customPrompt := formGet (entries formData) (str "customPrompt") in
  let existingSentencesJson :=
    formGet (entries formData) (str "existingSentences") in
  let lessonIdStr := formGet (entries formData) (str "lessonId") in
  match image formData with
  | None => Ret (jsonResponse (ErrorBody (str "No image file provided")) 400)
  | Some file =>
      if negb (nonEmpty (default [] lessonIdStr)) then
        Ret (jsonResponse (ErrorBody (str "Lesson ID is required")) 400)
      else
        match parseInt (default [] lessonIdStr) with
        | None => Ret (jsonResponse (ErrorBody (str "Invalid lesson ID")) 400)
        | Some lessonId =>
            if negb (startsWith (str "image/") (file_type file)) then
              Ret (jsonResponse (ErrorBody (str "File must be an image")) 400)
            else
              let existingSentences := parseExisting existingSentencesJson in
              rows ← await (SelectLessonById lessonId);
              match head rows with
              | None =>
                  Ret (jsonResponse (ErrorBody (str "Lesson not found")) 404)
              | Some lesson =>
                  vocabularyContext ←
                    loadVocabularyContext (lesson_unitId lesson);
                  extract file selectedModel customPrompt
                          existingSentences vocabularyContext
              end
        end
  end.

(** The outer [catch]. *)
Definition failure (error : exn) : nextResponse sentence :=
  jsonResponse
    (ErrorBody (messageOr error (str "Failed to parse conversation image")))
    500.

Definition POST : prog event (nextResponse sentence) :=
  Vis RequireAdmin (fun admin =>
    match admin with
    | Throw _ => Ret unauthorized
    | Ok _ => tryCatch handle (fun error => Ret (failure error))
    end).

End Handler.

End Conversation.

(* ===================================================================== *)
(** ** The learner pages *)
(* ===================================================================== *)

Module Pages.

Record book : Type := {
  book_id : Z;
  book_title : jsstring;
  book_description : option jsstring;
}.

Record unit_ : Type := {
  unit_id : Z;
  unit_title : jsstring;
  unit_bookId : Z;
}.

Record lessonCard : Type := {
  card_id : Z;
  card_title : jsstring;
  card_type : jsstring;
}.

(** The calls a page awaits. [auth.api.getSession] resolves to the session
    object or to [null]. *)
Inductive pageEvent : Type -> Type :=
  | Headers : pageEvent (list (jsstring * jsstring))
  | GetSession (headers : list (jsstring * jsstring)) : pageEvent (result json)
  | Params : pageEvent jsstring
  | GetBooks : pageEvent (result (list book))
  | GetBookById (bookId : Z) : pageEvent (result (option book))
  | GetUnitsByBook (bookId : Z) : pageEvent (result (list unit_))
  | GetUnitById (unitId : Z) : pageEvent (result (option unit_))
  | GetLessonsByUnit (unitId : Z) : pageEvent (result (list lessonCard)).

(** What the page hands to the framework: [redirect(url)], [notFound()]
    (both leave the function at once) or the data its markup shows. *)
Inductive view : Type :=
  | BooksView (books : list book)
  | BookDetailView (b : book) (units : list unit_)
  | UnitDetailView (u : unit_) (lessons : list lessonCard) (b : option book).

Inductive outcome : Type :=
  | Redirect (url : jsstring)
  | NotFound
  | Rendered (v : view).

(** [await Promise.all([a, b])]: both calls are started, then both awaited. *)
Definition promiseAll2 {X Y} (a : pageEvent (result X)) (b : pageEvent (result Y))
  : prog pageEvent (X * Y) :=
  Vis a (fun ra => Vis b (fun rb =>
    match ra, rb with
    | Ok x, Ok y => Ret (x, y)
    | Throw e, _ => Raise e
    | Ok _, Throw e => Raise e
    end)).

(** [auth.api.getSession({ headers: await headers() })]. *)
Definition getSession : prog pageEvent json :=
  h ← perform Headers;
  await (GetSession h).

Section Pages.
Context `{Runtime}.

Definition BooksPage : prog pageEvent outcome :=
  session ← getSession;
  if negb (truthy session) then Ret (Redirect (str "/login"))
  else
    books ← await GetBooks;
    Ret (Rendered (BooksView books)).

Definition BookDetailPage : prog pageEvent outcome :=
  session ← getSession;
  if negb (truthy session) then Ret (Redirect (str "/login"))
  else
    id ← perform Params;
    match parseInt id with
    | None => Ret NotFound
    | Some bookId =>
        '(b, units) ← promiseAll2 (GetBookById bookId) (GetUnitsByBook bookId);
        match b with
        | None => Ret NotFound
        | Some b => Ret (Rendered (BookDetailView b units))
        end
    end.

Definition UnitDetailPage : prog pageEvent outcome :=
  session ← getSession;
  if negb (truthy session) then Ret (Redirect (str "/login"))
  else
    id ← perform Params;
    match parseInt id with
    | None => Ret NotFound
    | Some unitId =>
        '(u, lessons) ← promiseAll2 (GetUnitById unitId) (GetLessonsByUnit unitId);
        match u with
        | None => Ret NotFound
        | Some u =>
            b ← await (GetBookById (unit_bookId u));
            Ret (Rendered (UnitDetailView u lessons b))
        end
    end.

End Pages.

End Pages.

(* ===================================================================== *)
(** ** [VocabularyFlashcards] *)
(* ===================================================================== *)

Module Flashcards.

Record VocabularyWord : Type := {
  id : Z;
  arabic : jsstring;
  english : jsstring;
}.

Inductive Mode : Type := learn | practice | test.

(** *** Multiple choice options *)

Section Options.
(** [xs.sort(() => Math.random() - 0.5)]: the order the engine leaves the
    array in depends on its sorting algorithm and on the draws of
    [Math.random], whose state [rng] is threaded through. *)
Variable rng : Type.
Variable randomSort : rng -> list jsstring -> list jsstring * rng.

Definition generateMultipleChoiceOptions
    (correctAnswer : jsstring) (allWords : list VocabularyWord)
    (currentWordId : Z) (g : rng) : list jsstring * rng :=
  let distractors :=
    List.map english
      (List.filter (fun word => negb (id word =? currentWordId)%Z) allWords) in
  let '(shuffled, g1) := randomSort g distractors in
  let selectedDistractors := firstn 3 shuffled in
  let options := correctAnswer :: selectedDistractors in
  randomSort g1 options.

(** The effect that fills [testOptions] on entering test mode:
    [words.forEach(word => { options[word.id] = generate... })]. *)
Fixpoint generateAllOptions (words todo : list VocabularyWord)
    (options : gmap Z (list jsstring)) (g : rng)
  : gmap Z (list jsstring) * rng :=
  match todo with
  | [] => (options, g)
  | word :: rest =>
      let '(opts, g') :=
        generateMultipleChoiceOptions (english word) words (id word) g in
      generateAllOptions words rest (<[id word := opts]> options) g'
  end.
End Options.

(** *** Component state *)

(** The state cells of the component. The [progress] cell, which only
    mirrors what the server action records, is not part of it. *)
Record state : Type := {
  mode : Mode;
  currentIndex : Z;
  isFlipped : bool;
  testAnswers : gmap Z jsstring;
  testOptions : gmap Z (list jsstring);
  testResults : gmap Z bool;
  testSubmitted : bool;
}.

Definition initial : state :=
  {| mode := learn; currentIndex := 0; isFlipped := false;
     testAnswers := ∅; testOptions := ∅; testResults := ∅;
     testSubmitted := false |}.

(** [words[currentIndex]]. *)
Definition currentWord (words : list VocabularyWord) (s : state)
  : option VocabularyWord :=
  if (currentIndex s <? 0)%Z then None
  else words !! Z.to_nat (currentIndex s).

Section Handlers.
Variable words : list VocabularyWord.

Definition handleNext (s : state) : state :=
  if (currentIndex s <? Z.of_nat (length words) - 1)%Z then
    {| mode := mode s; currentIndex := currentIndex s + 1; isFlipped := false;
       testAnswers := testAnswers s; testOptions := testOptions s;
       testResults := testResults s; testSubmitted := testSubmitted s |}
  else s.

Definition handlePrevious (s : state) : state :=
  if (currentIndex s >? 0)%Z then
    {| mode := mode s; currentIndex := currentIndex s - 1; isFlipped := false;
       testAnswers := testAnswers s; testOptions := testOptions s;
       testResults := testResults s; testSubmitted := testSubmitted s |}
  else s.

Definition handleFlip (s : state) : state :=
  {| mode := mode s; currentIndex := currentIndex s;
     isFlipped := negb (isFlipped s);
     testAnswers := testAnswers s; testOptions := testOptions s;
     testResults := testResults s; testSubmitted := testSubmitted s |}.

Definition handleTestAnswer (wordId : Z) (answer : jsstring) (s : state)
  : state :=
  {| mode := mode s; currentIndex := currentIndex s; isFlipped := isFlipped s;
     testAnswers := <[wordId := answer]> (testAnswers s);
     testOptions := testOptions s;
     testResults := testResults s; testSubmitted := testSubmitted s |}.

(** [testAnswers[word.id]?.trim() || ""]. *)
Definition answerOf (answers : gmap Z jsstring) (word : VocabularyWord)
  : jsstring :=
  match answers !! id word with
  | Some a => trim a
  | None => []
  end.

(** [answer === word.english]. *)
Definition isCorrect (answers : gmap Z jsstring) (word : VocabularyWord)
  : bool :=
  bool_decide (answerOf answers word = english word).

(** The loop of [handleTestSubmit]:
    [words.forEach(word => { ...; results[word.id] = correct; ... })]. *)
Definition gradeAll (answers : gmap Z jsstring) (ws : list VocabularyWord)
  : gmap Z bool :=
  foldl (fun results word => <[id word := isCorrect answers word]> results)
        ∅ ws.

(** The progress updates the loop sends, one per word:
    [updateUserProgress(word.id, { seen: true, correct, incorrect: !correct })]. *)
Definition progressUpdates (answers : gmap Z jsstring)
    (ws : list VocabularyWord) : list (Z * bool * bool * bool) :=
  List.map (fun word =>
              let correct := isCorrect answers word in
              (id word, true, correct, negb correct)) ws.

Definition handleTestSubmit (s : state) : state :=
  {| mode := mode s; currentIndex := currentIndex s; isFlipped := isFlipped s;
     testAnswers := testAnswers s; testOptions := testOptions s;
     testResults := gradeAll (testAnswers s) words;
     testSubmitted := true |}.

Definition handleTestReset (s : state) : state :=
  {| mode := mode s; currentIndex := 0; isFlipped := isFlipped s;
     testAnswers := ∅; testOptions := ∅; testResults := ∅;
     testSubmitted := false |}.

(** The three mode buttons. *)
Definition selectMode (m : Mode) (s : state) : state :=
  match m with
  | test =>
      {| mode := test; currentIndex := currentIndex s; isFlipped := false;
         testAnswers := ∅; testOptions := ∅; testResults := ∅;
         testSubmitted := false |}
  | _ =>
      {| mode := m; currentIndex := currentIndex s; isFlipped := false;
         testAnswers := testAnswers s; testOptions := testOptions s;
         testResults := testResults s; testSubmitted := false |}
  end.

(** [Object.values(testResults).filter(r => r).length]. *)
Definition correctCount (s : state) : nat :=
  length (List.filter (fun r : bool => r)
                      (List.map snd (map_to_list (testResults s)))).

(** [words.length]. *)
Definition totalWords : nat := length words.

(** The mark beside a word on the results screen: [testResults[word.id]],
    [undefined] being falsy. *)
Definition markedCorrect (s : state) (word : VocabularyWord) : bool :=
  default false (testResults s !! id word).

(** What the user can do. The practice buttons record the answer, call
    [handleNext] and then [setIsFlipped(false)]. *)
Inductive action : Type :=
  | Next
  | Previous
  | Flip
  | PracticeAnswer (correct : bool)
  | SelectMode (m : Mode)
  | TestAnswer (wordId : Z) (answer : jsstring)
  | TestSubmit
  | TestReset.

Definition step (s : state) (a : action) : state :=
  match a with
  | Next => handleNext s
  | Previous => handlePrevious s
  | Flip => handleFlip s
  | PracticeAnswer _ =>
      let s' := handleNext s in
      {| mode := mode s'; currentIndex := currentIndex s'; isFlipped := false;
         testAnswers := testAnswers s'; testOptions := testOptions s';
         testResults := testResults s'; testSubmitted := testSubmitted s' |}
  | SelectMode m => selectMode m s
  | TestAnswer wordId answer => handleTestAnswer wordId answer s
  | TestSubmit => handleTestSubmit s
  | TestReset => handleTestReset s
  end.

Definition steps (s : state) (acts : list action) : state :=
  foldl step s acts.

End Handlers.

End Flashcards.

(* ===================================================================== *)
(** ** [ConversationDisplay]: Play All *)
(* ===================================================================== *)

Module ConversationDisplay.

Record ConversationSentence : Type := {
  id : Z;
  arabic : jsstring;
  english : option jsstring;
  order : Z;
}.

Inductive Language : Type := arabic_ | english_.

(** [[...sentences].sort((a, b) => a.order - b.order)]: the sort is stable,
    so the result is the one a stable insertion sort gives. *)
Fixpoint insertByOrder (s : ConversationSentence)
    (sorted : list ConversationSentence) : list ConversationSentence :=
  match sorted with
  | [] => [s]
  | t :: rest =>
      if (order s <=? order t)%Z then s :: sorted
      else t :: insertByOrder s rest
  end.

Definition sortByOrder (sentences : list ConversationSentence)
  : list ConversationSentence :=
  foldr insertByOrder [] sentences.

(** The filter of [handlePlayAll]:
    [s.arabic && s.arabic.trim().length > 0] or the same on [s.english]. *)
Definition playable (selectedLanguage : Language) (s : ConversationSentence)
  : bool :=
  match selectedLanguage with
  | arabic_ => nonEmpty (arabic s) && nonEmpty (trim (arabic s))
  | english_ =>
      match english s with
      | Some e => nonEmpty e && nonEmpty (trim e)
      | None => false
      end
  end.

(** [selectedLanguage === "arabic" ? sentence.arabic : (sentence.english || "")]. *)
Definition textOf (selectedLanguage : Language) (s : ConversationSentence)
  : jsstring :=
  match selectedLanguage with
  | arabic_ => arabic s
  | english_ => default [] (english s)
  end.

Definition langOf (selectedLanguage : Language) : jsstring :=
  match selectedLanguage with
  | arabic_ => str "ar-SA"
  | english_ => str "en-US"
  end.

(** The [onEnd] closures handed to [playAudio], as data: the one of
    [playSentenceSequentially], which remembers the queue and the index, and
    the one of [handlePlaySentence]. *)
Inductive callback : Type :=
  | ContinueAfter (playableSentences : list ConversationSentence) (index : nat)
  | ClearPlaying.

(** A [SpeechSynthesisUtterance]: text, language, and [onend] / [onerror]. *)
Record utterance : Type := {
  utt_text : jsstring;
  utt_lang : jsstring;
  utt_onEnd : callback;
}.

(** What the browser's speech synthesis did, in order: an utterance was
    handed to [speechSynthesis.speak], or the utterance being spoken ended
    (its [onend] or [onerror] fired). *)
Inductive speechEvent : Type :=
  | Spoke (text lang : jsstring)
  | Ended (text : jsstring).

(** [window.speechSynthesis]: whether it exists, whether [getVoices()] is
    non-empty, the utterance being spoken, a speak parked in
    [onvoiceschanged], and the log above. *)
Record speechSynthesis : Type := {
  supported : bool;
  voicesLoaded : bool;
  speaking : option utterance;
  onvoiceschanged : option utterance;
  speechLog : list speechEvent;
}.

(** The Play All cells and refs of the component. The pending timer is the
    one [timeoutRef] holds; it carries the closure's queue and next index. *)
Record player : Type := {
  playingSentenceId : option Z;
  isPlayingAll : bool;
  currentPlayAllIndex : nat;
  playAllQueueRef : list Z;
  shouldContinuePlayingRef : bool;
  timeoutRef : option (list ConversationSentence * nat);
}.

Record state : Type := {
  selectedLanguage : Language;
  play : player;
  synth : speechSynthesis;
}.

Definition idlePlayer : player :=
  {| playingSentenceId := None; isPlayingAll := false;
     currentPlayAllIndex := 0; playAllQueueRef := [];
     shouldContinuePlayingRef := false; timeoutRef := None |}.

Definition initial (lang : Language) (browser : speechSynthesis) : state :=
  {| selectedLanguage := lang; play := idlePlayer; synth := browser |}.

(** [window.speechSynthesis?.cancel()]: the utterance being spoken is
    dropped. The browser then sends that utterance an [error] event, which
    runs the [onEnd] it was given ([utterance.onerror = onEnd]); the second
    component is the utterance interrupted, if there is one. *)
Definition cancel (sy : speechSynthesis) : speechSynthesis * option utterance :=
  if supported sy then
    ({| supported := supported sy; voicesLoaded := voicesLoaded sy;
        speaking := None; onvoiceschanged := onvoiceschanged sy;
        speechLog := speechLog sy |},
     speaking sy)
  else (sy, None).

(** The inner [speak] of [playAudio]. *)
Definition speak (u : utterance) (sy : speechSynthesis) : speechSynthesis :=
  {| supported := supported sy; voicesLoaded := voicesLoaded sy;
     speaking := Some u; onvoiceschanged := onvoiceschanged sy;
     speechLog := speechLog sy ++ [Spoke (utt_text u) (utt_lang u)] |}.

Definition playAudio (text lang : jsstring) (onEnd : callback)
    (sy : speechSynthesis) : speechSynthesis * option utterance :=
  if negb (supported sy) then (sy, None)
  else
    let '(sy, interrupted) := cancel sy in
    let u := {| utt_text := text; utt_lang := lang; utt_onEnd := onEnd |} in
    (if voicesLoaded sy then speak u sy
     else
       {| supported := supported sy; voicesLoaded := voicesLoaded sy;
          speaking := speaking sy; onvoiceschanged := Some u;
          speechLog := speechLog sy |},
     interrupted).

(** The [onEnd] closures, which [onend] and [onerror] both run: the one of
    [handlePlaySentence] clears the mark; the one of
    [playSentenceSequentially] checks [shouldContinuePlayingRef], clears a
    pending timer and sets the 300 ms timer of the next sentence. *)
Definition runOnEnd (onEnd : callback) (p : player) : player :=
  match onEnd with
  | ClearPlaying =>
      {| playingSentenceId := None;
         isPlayingAll := isPlayingAll p;
         currentPlayAllIndex := currentPlayAllIndex p;
         playAllQueueRef := playAllQueueRef p;
         shouldContinuePlayingRef := shouldContinuePlayingRef p;
         timeoutRef := timeoutRef p |}
  | ContinueAfter playableSentences index =>
      if negb (shouldContinuePlayingRef p) then p
      else
        (* clearTimeout(timeoutRef.current);
           timeoutRef.current = setTimeout(..., 300) *)
        {| playingSentenceId := playingSentenceId p;
           isPlayingAll := isPlayingAll p;
           currentPlayAllIndex := currentPlayAllIndex p;
           playAllQueueRef := playAllQueueRef p;
           shouldContinuePlayingRef := shouldContinuePlayingRef p;
           timeoutRef := Some (playableSentences, S index) |}
  end.

(** An [end] or [error] event of utterance [u] is delivered: its [onEnd]
    runs. *)
Definition fires (u : utterance) (st : state) : state :=
  {| selectedLanguage := selectedLanguage st;
     play := runOnEnd (utt_onEnd u) (play st);
     synth :=
       {| supported := supported (synth st);
          voicesLoaded := voicesLoaded (synth st);
          speaking := speaking (synth st);
          onvoiceschanged := onvoiceschanged (synth st);
          speechLog := speechLog (synth st) ++ [Ended (utt_text u)] |} |}.

(** The error event of the utterance a handler's [cancel] interrupted. The
    browser queues it at the call and delivers it once the handler has
    returned; it is taken to come before any other event. *)
Definition afterwards (interrupted : option utterance) (st : state) : state :=
  match interrupted with
  | Some u => fires u st
  | None => st
  end.

(** The "finished" branch of [playSentenceSequentially]; [timeoutRef] is
    not touched. *)
Definition finished (p : player) : player :=
  {| playingSentenceId := None; isPlayingAll := false;
     currentPlayAllIndex := 0; playAllQueueRef := [];
     shouldContinuePlayingRef := false; timeoutRef := timeoutRef p |}.

Definition playSentenceSequentially
    (playableSentences : list ConversationSentence) (index : nat) (st : state)
  : state * option utterance :=
  if negb (shouldContinuePlayingRef (play st)) then (st, None)
  else
    match playableSentences !! index with
    | None =>                       (* index >= playableSentences.length *)
        ({| selectedLanguage := selectedLanguage st;
            play := finished (play st); synth := synth st |},
         None)
    | Some sentence =>
        let '(sy, interrupted) :=
          playAudio (textOf (selectedLanguage st) sentence)
                    (langOf (selectedLanguage st))
                    (ContinueAfter playableSentences index) (synth st) in
        ({| selectedLanguage := selectedLanguage st;
            play :=
              {| playingSentenceId := Some (id sentence);
                 isPlayingAll := isPlayingAll (play st);
                 currentPlayAllIndex := index;
                 playAllQueueRef := playAllQueueRef (play st);
                 shouldContinuePlayingRef := shouldContinuePlayingRef (play st);
                 timeoutRef := timeoutRef (play st) |};
            synth := sy |},
         interrupted)
    end.

Section Component.
Variable sentences : list ConversationSentence.

Definition sortedSentences : list ConversationSentence :=
  sortByOrder sentences.

Definition handlePlayAll (st : state) : state :=
  if isPlayingAll (play st) then
    (* stop: cancel speech, clear the timer, reset the cells and refs *)
    let '(sy, interrupted) := cancel (synth st) in
    afterwards interrupted
      {| selectedLanguage := selectedLanguage st;
         play := idlePlayer; synth := sy |}
  else
    let playableSentences :=
      List.filter (playable (selectedLanguage st)) sortedSentences in
    match playableSentences with
    | [] => st
    | _ :: _ =>
        let '(st', interrupted) :=
          playSentenceSequentially playableSentences 0
            {| selectedLanguage := selectedLanguage st;
               play :=
                 {| playingSentenceId := playingSentenceId (play st);
                    isPlayingAll := true;
                    currentPlayAllIndex := 0;
                    playAllQueueRef := List.map id playableSentences;
                    shouldContinuePlayingRef := true;
                    timeoutRef := timeoutRef (play st) |};
               synth := synth st |} in
        afterwards interrupted st'
    end.

(** [handlePlaySentence], the button beside one sentence. The cells
    [isPlayingAll], [playingSentenceId] and [selectedLanguage] are read as
    the render of the click has them. *)
Definition handlePlaySentence (sentence : ConversationSentence) (st : state)
  : state :=
  let '(st1, interrupted1) :=
    if isPlayingAll (play st) then
      let '(sy, interrupted) := cancel (synth st) in
      ({| selectedLanguage := selectedLanguage st;
          play :=
            {| playingSentenceId := playingSentenceId (play st);
               isPlayingAll := false; currentPlayAllIndex := 0;
               playAllQueueRef := []; shouldContinuePlayingRef := false;
               timeoutRef := None |};
          synth := sy |},
       interrupted)
    else (st, None) in
  let setPlaying (pid : option Z) (sy : speechSynthesis) :=
    {| selectedLanguage := selectedLanguage st1;
       play :=
         {| playingSentenceId := pid;
            isPlayingAll := isPlayingAll (play st1);
            currentPlayAllIndex := currentPlayAllIndex (play st1);
            playAllQueueRef := playAllQueueRef (play st1);
            shouldContinuePlayingRef := shouldContinuePlayingRef (play st1);
            timeoutRef := timeoutRef (play st1) |};
       synth := sy |} in
  let '(st2, interrupted2) :=
    if bool_decide (playingSentenceId (play st) = Some (id sentence)) then
      let '(sy, interrupted) := cancel (synth st1) in
      (setPlaying None sy, interrupted)
    else
      let text := textOf (selectedLanguage st) sentence in
      if negb (nonEmpty text) || negb (nonEmpty (trim text)) then (st1, None)
      else
        let '(sy, interrupted) :=
          playAudio text (langOf (selectedLanguage st)) ClearPlaying
                    (synth st1) in
        (setPlaying (Some (id sentence)) sy, interrupted) in
  afterwards interrupted2 (afterwards interrupted1 st2).

(** The language selector, with the effect that stops all playback when
    the language changes. *)
Definition selectLanguage (lang : Language) (st : state) : state :=
  match lang, selectedLanguage st with
  | arabic_, arabic_ | english_, english_ => st
  | _, _ =>
      let '(sy, interrupted) := cancel (synth st) in
      afterwards interrupted
        {| selectedLanguage := lang; play := idlePlayer; synth := sy |}
  end.

(** The utterance being spoken ends: its [onend] runs. *)
Definition utteranceEnded (st : state) : state :=
  match speaking (synth st) with
  | None => st
  | Some u =>
      fires u
        {| selectedLanguage := selectedLanguage st;
           play := play st;
           synth :=
             {| supported := supported (synth st);
                voicesLoaded := voicesLoaded (synth st);
                speaking := None;
                onvoiceschanged := onvoiceschanged (synth st);
                speechLog := speechLog (synth st) |} |}
  end.

(** The 300 ms timer fires. *)
Definition timerFired (st : state) : state :=
  match timeoutRef (play st) with
  | None => st
  | Some (playableSentences, next) =>
      let '(st, interrupted) :=
        if shouldContinuePlayingRef (play st) then
          playSentenceSequentially playableSentences next st
        else (st, None) in
      let p := play st in
      afterwards interrupted
        {| selectedLanguage := selectedLanguage st;
           play :=
             {| playingSentenceId := playingSentenceId p;
                isPlayingAll := isPlayingAll p;
                currentPlayAllIndex := currentPlayAllIndex p;
                playAllQueueRef := playAllQueueRef p;
                shouldContinuePlayingRef := shouldContinuePlayingRef p;
                timeoutRef := None |};
           synth := synth st |}
  end.

(** The browser's [voiceschanged] event: the parked speak runs. *)
Definition voicesChanged (st : state) : state :=
  match onvoiceschanged (synth st) with
  | None => st
  | Some u =>
      {| selectedLanguage := selectedLanguage st;
         play := play st;
         synth :=
           speak u
             {| supported := supported (synth st);
                voicesLoaded := voicesLoaded (synth st);
                speaking := speaking (synth st); onvoiceschanged := None;
                speechLog := speechLog (synth st) |} |}
  end.

(** What happens next when nobody touches the page: the utterance being
    spoken ends, or the pending timer fires; [None] when neither is
    pending. *)
Definition tick (st : state) : option state :=
  match speaking (synth st), timeoutRef (play st) with
  | Some _, _ => Some (utteranceEnded st)
  | None, Some _ => Some (timerFired st)
  | None, None => None
  end.

(** Letting the page run until nothing is pending. *)
Fixpoint settle (fuel : nat) (st : state) : option state :=
  match tick st with
  | None => Some st
  | Some st' =>
      match fuel with
      | O => None
      | S fuel' => settle fuel' st'
      end
  end.

(** A Play All run: the click, then the page left alone. *)
Definition playAllRun (fuel : nat) (st : state) : option state :=
  settle fuel (handlePlayAll st).

End Component.

End ConversationDisplay.

(* ===================================================================== *)
(** ** The requests of a run *)
(* ===================================================================== *)

(** The [Fetch] calls among the events of a run. *)
Definition fetchCalls (trace : list (sigT event)) : list (jsstring * fetchInit) :=
  omap (fun ev : sigT event =>
          match projT2 ev with
          | Fetch url init => Some (url, init)
          | _ => None
          end) trace.

(* ===================================================================== *)
(** ** A runtime and environments to run the handlers on *)
(* ===================================================================== *)

Module Examples.

(** [toLowerCase] on strings whose only cased letters are ASCII. *)
Definition asciiLower (s : jsstring) : jsstring :=
  List.map (fun c => if ((65 <=? c) && (c <=? 90))%N then (c + 32)%N else c) s.

(** [parseInt] on an optional sign and decimal digits, after leading
    blanks; no radix prefix. *)
Fixpoint digits (s : jsstring) (acc : option Z) : option Z :=
  match s with
  | c :: s' =>
      if ((48 <=? c) && (c <=? 57))%N then
        digits s' (Some (10 * default 0 acc + Z.of_N (c - 48)))%Z
      else acc
  | [] => acc
  end.

Definition decimalInt (s : jsstring) : option Z :=
  match trimStart s with
  | 45%N :: s' => Z.opp <$> digits s' None
  | 43%N :: s' => digits s' None
  | s' => digits s' None
  end.

(** Base64 with padding. *)
Definition base64Char (n : N) : N :=
  (if n <? 26 then 65 + n
   else if n <? 52 then 97 + (n - 26)
   else if n <? 62 then 48 + (n - 52)
   else if n =? 62 then 43 else 47)%N.

Fixpoint base64Units (bs : list N) : jsstring :=
  match bs with
  | a :: b :: c :: rest =>
      let n := (a * 65536 + b * 256 + c)%N in
      base64Char (n / 262144) :: base64Char ((n / 4096) mod 64)
      :: base64Char ((n / 64) mod 64) :: base64Char (n mod 64)
      :: base64Units rest
  | [a; b] =>
      let n := (a * 65536 + b * 256)%N in
      [ base64Char (n / 262144); base64Char ((n / 4096) mod 64);
        base64Char ((n / 64) mod 64); 61%N ]
  | [a] =>
      let n := (a * 65536)%N in
      [ base64Char (n / 262144); base64Char ((n / 4096) mod 64); 61%N; 61%N ]
  | [] => []
  end.

(** Two words, [kitab] and [qalam], in Arabic script. *)
Definition kitab : jsstring := [1603; 1578; 1575; 1576]%N.
Definition qalam : jsstring := [1602; 1604; 1605]%N.

(** [{"arabic":"<a>","english":"<e>"}] as text. *)
Definition pairText (a e : jsstring) : jsstring :=
  str "{" ++ dquote ++ str "arabic" ++ dquote ++ str ":" ++ dquote ++ a ++ dquote
  ++ str "," ++ dquote ++ str "english" ++ dquote ++ str ":" ++ dquote ++ e
  ++ dquote ++ str "}".

Definition pairValue (a e : jsstring) : json :=
  JObj [ (str "arabic", JStr a); (str "english", JStr e) ].

(** The JSON texts of the examples and what [JSON.parse] makes of them. *)
Definition knownTexts : list (jsstring * json) :=
  [ (str "[]", JArr []);
    (str "[null]", JArr [JNull]);
    (str "[" ++ pairText kitab (str "book") ++ str "]",
     JArr [pairValue kitab (str "book")]);
    (str "[" ++ pairText kitab (str "book") ++ str ","
     ++ pairText qalam (str "pen") ++ str "]",
     JArr [pairValue kitab (str "book"); pairValue qalam (str "pen")]) ].

(** [Number.prototype.toString] on zeros, infinities, NaN and the integers
    a binary64 holds exactly. *)
Definition numberText (n : spec_float) : jsstring :=
  match n with
  | S754_zero _ => str "0"
  | S754_infinity false => str "Infinity"
  | S754_infinity true => str "-Infinity"
  | S754_nan => str "NaN"
  | S754_finite negative m e =>
      (if negative then str "-" else [])
      ++ str (pretty (Z.pos m * 2 ^ e)%Z)
  end.

(** A runtime that agrees with the platform on the inputs of the examples:
    strings without cased letters outside ASCII, the JSON texts above (any
    other text is taken not to parse), decimal integers to read, and
    integers below 2^53 to print. *)
#[local] Instance runtime : Runtime := {|
  toLowerCase := asciiLower;
  JSON_parse text :=
    snd <$> List.find (fun entry => bool_decide (entry.1 = text)) knownTexts;
  Number_toString := numberText;
  parseInt := decimalInt;
  base64 bytes := base64Units (Byte.to_N <$> bytes);
  engineMessage e :=
    match e with
    | TypeError => str "TypeError"
    | SyntaxError => str "SyntaxError"
    | _ => []
    end;
|}.

(** The body of a chat completion whose only choice has this [content]. *)
Definition completion (content : jsstring) : json :=
  JObj [ (str "choices",
          JArr [ JObj [ (str "message",
                         JObj [ (str "content", JStr content) ]) ] ]) ].

Definition reply (content : jsstring) : fetchResponse :=
  {| resp_status := 200; resp_statusText := str "OK";
     resp_json := Ok (completion content) |}.

(** An environment for the route handlers: the outcome of the admin check,
    the submitted form, and the [content] of the model's reply. Everything
    else succeeds. *)
Definition apiEnv (admin : result unit) (form : formData) (content : jsstring)
  : environment event :=
  fun X ev =>
    match ev in event X return X with
    | RequireAdmin => admin
    | RequestFormData => Ok form
    | GetOpenRouterConfig =>
        Ok (Some {| apiKey := Some (str "sk-or-test"); supportedModels := [] |})
    | ProcessEnv _ => None
    | Fetch _ _ => Ok (reply content)
    | SelectLessonById lessonId =>
        Ok [ {| lesson_id := lessonId; lesson_unitId := 1 |} ]
    | SelectVocabularyLessons _ => Ok []
    | SelectVocabularyWords _ => Ok []
    end.

(** A form with a small PNG and the given text entries. *)
Definition formWith (fields : list (jsstring * jsstring)) : formData :=
  {| image := Some {| file_type := str "image/png";
                      file_bytes := [Byte.x89; Byte.x50; Byte.x4e; Byte.x47] |};
     entries := fields |}.

(** An environment for the pages: what [getSession] resolves to; the
    catalogue is empty. *)
Definition pageEnv (session : json) : environment Pages.pageEvent :=
  fun X ev =>
    match ev in Pages.pageEvent X return X with
    | Pages.Headers => []
    | Pages.GetSession _ => Ok session
    | Pages.Params => str "1"
    | Pages.GetBooks => Ok []
    | Pages.GetBookById _ => Ok None
    | Pages.GetUnitsByBook _ => Ok []
    | Pages.GetUnitById _ => Ok None
    | Pages.GetLessonsByUnit _ => Ok []
    end.

End Examples.

(* ===================================================================== *)
(** ** The terms the statements are written in *)
(* ===================================================================== *)

Section Requests.
Context `{Runtime}.

(** The request a run of the vocabulary handler sends, from what the
    environment answers. *)
Definition vocabularyInit (env : environment event) (fd : formData)
    (file : file) (cfg : config) (key : jsstring) : fetchInit :=
  openRouterInit key
    (chooseModel (formGet (entries fd) (str "model")) cfg)
    (visionMessages
       (choosePrompt (formGet (entries fd) (str "customPrompt"))
                     Vocabulary.basePrompt)
       (file_type file) (base64 (file_bytes file)))
    (env _ (ProcessEnv (str "NEXT_PUBLIC_APP_URL")))
    (env _ (ProcessEnv (str "NEXT_PUBLIC_APP_NAME"))).

(** The same for the conversation handler; the base prompt ends with the
    vocabulary context read from the unit. *)
Definition conversationInit (env : environment event) (fd : formData)
    (file : file) (cfg : config) (key vocabularyContext : jsstring)
  : fetchInit :=
  openRouterInit key
    (chooseModel (formGet (entries fd) (str "model")) cfg)
    (visionMessages
       (choosePrompt (formGet (entries fd) (str "customPrompt"))
                     (Conversation.basePrompt vocabularyContext))
       (file_type file) (base64 (file_bytes file)))
    (env _ (ProcessEnv (str "NEXT_PUBLIC_APP_URL")))
    (env _ (ProcessEnv (str "NEXT_PUBLIC_APP_NAME"))).



(** What a run worked on: the entries [validated] it read from the content
    of the reply to the request it sent, and the [keys] of the existing
    records the form carried in [field]. *)
Definition extraction {entry} (program : prog event (nextResponse entry))
    (validate : list json → result (list entry))
    (existingKey : json → result jsstring) (field : jsstring)
    (env : environment event)
    (validated : list entry) (keys : list jsstring) : Prop :=
  ∃ form url init response data content items,
    env _ RequestFormData = Ok form
    ∧ (url, init) ∈ fetchCalls (snd (run env program))
    ∧ env _ (Fetch url init) = Ok response
    ∧ resp_json response = Ok data
    ∧ replyContent data = Ok content
    ∧ parseReplyArray content = Ok items
    ∧ validate items = Ok validated
    ∧ arrayMap (parseExisting (formGet (entries form) field)) existingKey
      = Ok keys.

End Requests.

(** What C4 asks of a returned word pair and of a returned sentence. *)
Definition wellFormedPair (p : Vocabulary.wordPair) : Prop :=
  trim (Vocabulary.arabic p) = Vocabulary.arabic p
  ∧ Vocabulary.arabic p ≠ []
  ∧ trim (Vocabulary.english p) = Vocabulary.english p
  ∧ Vocabulary.english p ≠ [].

Definition wellFormedSentence (s : Conversation.sentence) : Prop :=
  trim (Conversation.arabic s) = Conversation.arabic s
  ∧ Conversation.arabic s ≠ [].

(** The index names a word of the list. *)
Definition inRange (words : list Flashcards.VocabularyWord) (s : Flashcards.state)
  : Prop :=
  (0 ≤ Flashcards.currentIndex s ≤ Z.of_nat (length words) - 1)%Z.

(** Ascending [order]. *)
Definition byOrder (a b : ConversationDisplay.ConversationSentence) : Prop :=
  (ConversationDisplay.order a ≤ ConversationDisplay.order b)%Z.

Section PlayAllStates.
Variable lang : ConversationDisplay.Language.
Variable queue : list ConversationDisplay.ConversationSentence.
Variable parked : option ConversationDisplay.utterance.
Variable before : list ConversationDisplay.speechEvent.

(** What one sentence adds to the log: it is handed to [speak], then it
    ends. *)
Definition said (s : ConversationDisplay.ConversationSentence)
  : list ConversationDisplay.speechEvent :=
  [ ConversationDisplay.Spoke (ConversationDisplay.textOf lang s)
                              (ConversationDisplay.langOf lang);
    ConversationDisplay.Ended (ConversationDisplay.textOf lang s) ].

(** The state of a run while sentence [s] is being spoken, the sentences
    [done] having been spoken before it. *)
Definition speakingState (done : list ConversationDisplay.ConversationSentence)
    (s : ConversationDisplay.ConversationSentence) : ConversationDisplay.state :=
  {| ConversationDisplay.selectedLanguage := lang;
     ConversationDisplay.play :=
       {| ConversationDisplay.playingSentenceId := Some (ConversationDisplay.id s);
          ConversationDisplay.isPlayingAll := true;
          ConversationDisplay.currentPlayAllIndex := length done;
          ConversationDisplay.playAllQueueRef :=
            List.map ConversationDisplay.id queue;
          ConversationDisplay.shouldContinuePlayingRef := true;
          ConversationDisplay.timeoutRef := None |};
     ConversationDisplay.synth :=
       {| ConversationDisplay.supported := true;
          ConversationDisplay.voicesLoaded := true;
          ConversationDisplay.speaking :=
            Some {| ConversationDisplay.utt_text :=
                      ConversationDisplay.textOf lang s;
                    ConversationDisplay.utt_lang :=
                      ConversationDisplay.langOf lang;
                    ConversationDisplay.utt_onEnd :=
                      ConversationDisplay.ContinueAfter queue (length done) |};
          ConversationDisplay.onvoiceschanged := parked;
          ConversationDisplay.speechLog :=
            before ++ concat (said <$> done)
            ++ [ ConversationDisplay.Spoke (ConversationDisplay.textOf lang s)
                                           (ConversationDisplay.langOf lang) ] |} |}.

(** The state a run ends in. *)
Definition finishedState : ConversationDisplay.state :=
  {| ConversationDisplay.selectedLanguage := lang;
     ConversationDisplay.play := ConversationDisplay.idlePlayer;
     ConversationDisplay.synth :=
       {| ConversationDisplay.supported := true;
          ConversationDisplay.voicesLoaded := true;
          ConversationDisplay.speaking := None;
          ConversationDisplay.onvoiceschanged := parked;
          ConversationDisplay.speechLog := before ++ concat (said <$> queue) |} |}.

End PlayAllStates.

(** The status a response carries for its body: 200 with the success body,
    500 with the parse-failure body, and one of [errors] with an error
    body. *)
Definition answered {entry} (errors : list Z) (r : nextResponse entry) : Prop :=
  match resp_body r with
  | SuccessBody _ _ _ => status r = 200%Z
  | ParseFailureBody _ _ => status r = 500%Z
  | ErrorBody _ => status r ∈ errors
  end.

(** More environments to run the handlers on; the admin check passes. *)
Module Scenarios.

(** The form, what [getOpenRouterConfig] resolves to, the outcome of the
    [fetch], and the rows of the lesson query; the unit has no
    vocabulary. *)
Definition env (form : formData) (cfg : result (option config))
    (answer : result fetchResponse) (lessons : list lesson)
  : environment event :=
  fun X ev =>
    match ev in event X return X with
    | RequireAdmin => Ok ()
    | RequestFormData => Ok form
    | GetOpenRouterConfig => cfg
    | ProcessEnv _ => None
    | Fetch _ _ => answer
    | SelectLessonById _ => Ok lessons
    | SelectVocabularyLessons _ => Ok []
    | SelectVocabularyWords _ => Ok []
    end.


Definition withKey : result (option config) :=
  Ok (Some {| apiKey := Some (str "sk-or-test"); supportedModels := [] |}).

Definition withoutKey : result (option config) :=
  Ok (Some {| apiKey := None; supportedModels := [] |}).

(** A PNG upload with a lesson id and the given further text entries. *)
Definition form (fields : list (jsstring * jsstring)) : formData :=
  Examples.formWith ((str "lessonId", str "7") :: fields).

Definition upload : file :=
  {| file_type := str "image/png";
     file_bytes := [Byte.x89; Byte.x50; Byte.x4e; Byte.x47] |}.

Definition lesson7 : lesson := {| lesson_id := 7; lesson_unitId := 1 |}.

(** An error answer of the API: [{ "error": { "message": m } }]. *)
Definition apiError (st : N) (statusText m : jsstring) : fetchResponse :=
  {| resp_status := st; resp_statusText := statusText;
     resp_json := Ok (JObj [ (str "error",
                              JObj [ (str "message", JStr m) ]) ]) |}.

End Scenarios.


(** An array of records that each have a string under [field]: what the
    handlers take the existing records of the form to be. *)
Definition recordsWithText (field : jsstring) (existing : json) : Prop :=
  ∃ items, existing = JArr items
           ∧ Forall (λ x, ∃ fields s, x = JObj fields
                                      ∧ ownProperty field fields = Some (JStr s))
                    items.


(** What the flashcards component renders from its state. *)
Module FlashcardsView.

(** The Submit button of the test:
    [disabled={Object.keys(testAnswers).length < words.length}]. *)
Definition submitDisabled (words : list Flashcards.VocabularyWord)
    (s : Flashcards.state) : bool :=
  (size (Flashcards.testAnswers s) <? length words)%nat.

(** The Previous button: [disabled={currentIndex === 0}]. *)
Definition previousDisabled (s : Flashcards.state) : bool :=
  (Flashcards.currentIndex s =? 0)%Z.

(** The Next button: [disabled={currentIndex === words.length - 1}]. *)
Definition nextDisabled (words : list Flashcards.VocabularyWord)
    (s : Flashcards.state) : bool :=
  (Flashcards.currentIndex s =? Z.of_nat (length words) - 1)%Z.

(** What the page lets the user do in state [s]. The radio buttons of the
    test are rendered by [words.map], one group per word, and call
    [handleTestAnswer(word.id, e.target.value)]: an answer is keyed by the
    id of a word of the list. [handleTestSubmit] is the [onClick] of the
    Submit button only, which does nothing while the button is disabled.
    The other controls are not restricted here (the page shows them in
    some modes only, which permits fewer runs than this does). *)
Definition offered (words : list Flashcards.VocabularyWord)
    (s : Flashcards.state) (a : Flashcards.action) : bool :=
  match a with
  | Flashcards.TestAnswer wordId _ =>
      bool_decide (wordId ∈ Flashcards.id <$> words)
  | Flashcards.TestSubmit => negb (submitDisabled words s)
  | _ => true
  end.

(** A run of the component from state [s] in which every action was
    offered in the state it was taken in. *)
Fixpoint offeredRun (words : list Flashcards.VocabularyWord)
    (s : Flashcards.state) (acts : list Flashcards.action) : bool :=
  match acts with
  | [] => true
  | a :: rest =>
      offered words s a && offeredRun words (Flashcards.step words s a) rest
  end.

End FlashcardsView.


(** The options one call of [generateMultipleChoiceOptions] gives a word of
    the test. *)
Definition optionsOf (rng : Type)
    (randomSort : rng → list jsstring → list jsstring * rng)
    (words : list Flashcards.VocabularyWord)
    (w : Flashcards.VocabularyWord) (g : rng) : list jsstring :=
  (Flashcards.generateMultipleChoiceOptions rng randomSort
     (Flashcards.english w) words (Flashcards.id w) g).1.


(** What the conversation display renders beside the player. *)
Module ConversationView.

(** [sentences.filter(s => s.order % 2 === 0)]; [%] is the remainder of the
    truncated division. *)
Definition rightColumnSentences
    (sentences : list ConversationDisplay.ConversationSentence)
  : list ConversationDisplay.ConversationSentence :=
  List.filter (fun s => (Z.rem (ConversationDisplay.order s) 2 =? 0)%Z) sentences.

(** [sentences.filter(s => s.order % 2 === 1)]. *)
Definition leftColumnSentences
    (sentences : list ConversationDisplay.ConversationSentence)
  : list ConversationDisplay.ConversationSentence :=
  List.filter (fun s => (Z.rem (ConversationDisplay.order s) 2 =? 1)%Z) sentences.

(** The Play All button: [disabled={sortedSentences.length === 0}]. *)
Definition playAllDisabled
    (sentences : list ConversationDisplay.ConversationSentence) : bool :=
  (length (ConversationDisplay.sortedSentences sentences) =? 0)%nat.

End ConversationView.


(** The texts handed to [speechSynthesis.speak], in order. *)
Definition spoken (log : list ConversationDisplay.speechEvent) : list jsstring :=
  omap (λ ev, match ev with
              | ConversationDisplay.Spoke text _ => Some text
              | ConversationDisplay.Ended _ => None
              end) log.

(** A browser with speech synthesis and its voices loaded, nothing being
    spoken. *)
Definition quietBrowser (log : list ConversationDisplay.speechEvent)
  : ConversationDisplay.speechSynthesis :=
  {| ConversationDisplay.supported := true;
     ConversationDisplay.voicesLoaded := true;
     ConversationDisplay.speaking := None;
     ConversationDisplay.onvoiceschanged := None;
     ConversationDisplay.speechLog := log |}.


(** The page left alone for [n] events: an utterance ends or a timer
    fires, as long as one is pending. *)
Fixpoint ticks (n : nat) (st : ConversationDisplay.state)
  : ConversationDisplay.state :=
  match n with
  | O => st
  | S n' => ticks n' (default st (ConversationDisplay.tick st))
  end.

(** The state of a run between two sentences: [s] has ended and the timer
    that starts the next one is pending. *)
Definition pausingState (lang : ConversationDisplay.Language)
    (queue : list ConversationDisplay.ConversationSentence)
    (parked : option ConversationDisplay.utterance)
    (before : list ConversationDisplay.speechEvent)
    (done : list ConversationDisplay.ConversationSentence)
    (s : ConversationDisplay.ConversationSentence) : ConversationDisplay.state :=
  {| ConversationDisplay.selectedLanguage := lang;
     ConversationDisplay.play :=
       {| ConversationDisplay.playingSentenceId := Some (ConversationDisplay.id s);
          ConversationDisplay.isPlayingAll := true;
          ConversationDisplay.currentPlayAllIndex := length done;
          ConversationDisplay.playAllQueueRef :=
            List.map ConversationDisplay.id queue;
          ConversationDisplay.shouldContinuePlayingRef := true;
          ConversationDisplay.timeoutRef := Some (queue, S (length done)) |};
     ConversationDisplay.synth :=
       {| ConversationDisplay.supported := true;
          ConversationDisplay.voicesLoaded := true;
          ConversationDisplay.speaking := None;
          ConversationDisplay.onvoiceschanged := parked;
          ConversationDisplay.speechLog :=
            before ++ concat (said lang <$> done) ++ said lang s |} |}.


(* ===================================================================== *)
(** ** The admin pages *)
(* ===================================================================== *)

Module AdminPages.

(** The fields of a lesson row the vocabulary page reads. *)
Record lessonRow : Type := {
  lesson_id : Z;
  lesson_unitId : Z;
  lesson_title : jsstring;
  lesson_type : jsstring;
}.

(** The calls the admin pages await. *)
Inductive adminEvent : Type -> Type :=
  | IsAdmin : adminEvent (result bool)
  | Params : adminEvent jsstring
  | GetLessonsByUnit (unitId : Z) : adminEvent (result (list Pages.lessonCard))
  | GetUnitById (unitId : Z) : adminEvent (result (option Pages.unit_))
  | GetVocabularyWordsByLesson (lessonId : Z)
      : adminEvent (result (list Flashcards.VocabularyWord))
  | GetLessonById (lessonId : Z) : adminEvent (result (option lessonRow)).

(** What the management component of the page is given. *)
Inductive view : Type :=
  | LessonsView (lessons : list Pages.lessonCard) (u : Pages.unit_)
  | VocabularyView (words : list Flashcards.VocabularyWord) (l : lessonRow).

Inductive outcome : Type :=
  | Redirect (url : jsstring)
  | NotFound
  | Rendered (v : view).

(** [await Promise.all([a, b])]. *)
Definition promiseAll2 {X Y} (a : adminEvent (result X))
    (b : adminEvent (result Y)) : prog adminEvent (X * Y) :=
  Vis a (fun ra => Vis b (fun rb =>
    match ra, rb with
    | Ok x, Ok y => Ret (x, y)
    | Throw e, _ => Raise e
    | Ok _, Throw e => Raise e
    end)).

(** [`/admin/units/${lesson.unitId}/lessons`]. *)
Definition lessonsUrl (unitId : Z) : jsstring :=
  str "/admin/units/" ++ str (pretty unitId) ++ str "/lessons".

Section Pages.
Context `{Runtime}.

Definition AdminLessonsPage : prog adminEvent outcome :=
  admin ← await IsAdmin;
  if negb admin then Ret (Redirect (str "/"))
  else
    id ← perform Params;
    match parseInt id with
    | None => Ret NotFound
    | Some unitId =>
        '(lessons, u) ← promiseAll2 (GetLessonsByUnit unitId)
                                    (GetUnitById unitId);
        match u with
        | None => Ret NotFound
        | Some u => Ret (Rendered (LessonsView lessons u))
        end
    end.

Definition AdminVocabularyPage : prog adminEvent outcome :=
  admin ← await IsAdmin;
  if negb admin then Ret (Redirect (str "/"))
  else
    id ← perform Params;
    match parseInt id with
    | None => Ret NotFound
    | Some lessonId =>
        '(words, l) ← promiseAll2 (GetVocabularyWordsByLesson lessonId)
                                  (GetLessonById lessonId);
        match l with
        | None => Ret NotFound
        | Some l =>
            if negb (bool_decide (lesson_type l = str "vocabulary")) then
              Ret (Redirect (lessonsUrl (lesson_unitId l)))
            else Ret (Rendered (VocabularyView words l))
        end
    end.

End Pages.

(** An environment for the admin pages: the answer of [isAdmin], the id of
    the route, and the lesson of that id; the lists are empty. *)
Definition exampleEnv (admin : bool) (id : jsstring) (l : option lessonRow)
  : environment adminEvent :=
  fun X ev =>
    match ev in adminEvent X return X with
    | IsAdmin => Ok admin
    | Params => id
    | GetLessonsByUnit _ => Ok []
    | GetUnitById _ => Ok None
    | GetVocabularyWordsByLesson _ => Ok []
    | GetLessonById _ => Ok l
    end.

End AdminPages.


(* ===================================================================== *)
(** ** [VocabularyManagement] *)
(* ===================================================================== *)

Module VocabularyManagement.

(** The columns of a vocabulary word the component reads. *)
Record VocabularyWord : Type := {
  id : Z;
  arabic : jsstring;
  english : jsstring;
  order : Z;
}.

(** [{ arabic, english, order }]: the edit form and the new-word form. *)
Record wordData : Type := {
  data_arabic : jsstring;
  data_english : jsstring;
  data_order : Z;
}.

(** The server actions and the dialogs of the browser. *)
Inductive mgmtEvent : Type -> Type :=
  | UpdateVocabularyWord (wordId : Z) (data : wordData) : mgmtEvent (result unit)
  | AddVocabularyWord (lessonId : Z) (data : wordData)
      : mgmtEvent (result VocabularyWord)
  | DeleteVocabularyWord (wordId : Z) : mgmtEvent (result unit)
  | Confirm (message : jsstring) : mgmtEvent bool
  | Alert (message : jsstring) : mgmtEvent unit
  | ConsoleError (message : jsstring) (error : exn) : mgmtEvent unit.

Record state : Type := {
  words : list VocabularyWord;
  editingId : option Z;
  editData : option wordData;
  isCreating : bool;
  newWord : wordData;
}.

Definition blankWord (order : Z) : wordData :=
  {| data_arabic := []; data_english := []; data_order := order |}.

Definition initial (initialWords : list VocabularyWord) : state :=
  {| words := initialWords; editingId := None; editData := None;
     isCreating := false;
     newWord := blankWord (Z.of_nat (length initialWords)) |}.

Definition handleEdit (word : VocabularyWord) (st : state) : state :=
  {| words := words st; editingId := Some (id word);
     editData := Some {| data_arabic := arabic word;
                         data_english := english word;
                         data_order := order word |};
     isCreating := isCreating st; newWord := newWord st |}.

Definition handleCancel (st : state) : state :=
  {| words := words st; editingId := None; editData := None;
     isCreating := false;
     newWord := blankWord (Z.of_nat (length (words st))) |}.

(** [{ ...w, ...editData }]. *)
Definition edited (w : VocabularyWord) (d : wordData) : VocabularyWord :=
  {| id := id w; arabic := data_arabic d; english := data_english d;
     order := data_order d |}.

(** The [catch] of the three handlers: log, alert, and leave the state. *)
Definition failed (logged alerted : jsstring) (st : state) (error : exn)
  : prog mgmtEvent state :=
  _ ← perform (ConsoleError logged error);
  _ ← perform (Alert alerted);
  Ret st.

(** The handlers, with the callback handed to [startTransition] run to its
    end. *)
Definition handleSave (wordId : Z) (st : state) : prog mgmtEvent state :=
  match editData st with
  | None => Ret st
  | Some d =>
      tryCatch
        (_ ← await (UpdateVocabularyWord wordId d);
         Ret {| words :=
                  List.map (fun w => if (id w =? wordId)%Z then edited w d else w)
                           (words st);
                editingId := None; editData := None;
                isCreating := isCreating st; newWord := newWord st |})
        (failed (str "Failed to update vocabulary word:")
                (str "Failed to update vocabulary word. Please try again.") st)
  end.

(** [!newWord.arabic.trim() || !newWord.english.trim()]. *)
Definition incomplete (d : wordData) : bool :=
  negb (nonEmpty (trim (data_arabic d)))
  || negb (nonEmpty (trim (data_english d))).

Definition handleCreate (lessonId : Z) (st : state) : prog mgmtEvent state :=
  if incomplete (newWord st) then
    _ ← perform (Alert (str "Both Arabic and English are required"));
    Ret st
  else
    tryCatch
      (created ← await (AddVocabularyWord lessonId (newWord st));
       Ret {| words := words st ++ [created];
              editingId := editingId st; editData := editData st;
              isCreating := false;
              newWord := blankWord (Z.of_nat (length (words st)) + 1) |})
      (failed (str "Failed to add vocabulary word:")
              (str "Failed to add vocabulary word. Please try again.") st).

Definition handleDelete (wordId : Z) (st : state) : prog mgmtEvent state :=
  confirmed ←
    perform (Confirm (str "Are you sure you want to delete this word pair?"));
  if negb confirmed then Ret st
  else
    tryCatch
      (_ ← await (DeleteVocabularyWord wordId);
       Ret {| words :=
                List.filter (fun w => negb (id w =? wordId)%Z) (words st);
              editingId := editingId st; editData := editData st;
              isCreating := isCreating st; newWord := newWord st |})
      (failed (str "Failed to delete vocabulary word:")
              (str "Failed to delete vocabulary word. Please try again.") st).

(** The Add button:
    [disabled={isPending || !newWord.arabic.trim() || !newWord.english.trim()}]. *)
Definition addDisabled (isPending : bool) (st : state) : bool :=
  isPending || incomplete (newWord st).

(** A server that accepts everything, gives a new word the id [fresh], and
    a user who answers the confirmation with [yes]. *)
Definition exampleEnv (fresh : Z) (yes : bool) : environment mgmtEvent :=
  fun X ev =>
    match ev in mgmtEvent X return X with
    | UpdateVocabularyWord _ _ => Ok ()
    | AddVocabularyWord _ d =>
        Ok {| id := fresh; arabic := data_arabic d; english := data_english d;
              order := data_order d |}
    | DeleteVocabularyWord _ => Ok ()
    | Confirm _ => yes
    | Alert _ => ()
    | ConsoleError _ _ => ()
    end.

End VocabularyManagement.

(* ===================================================================== *)
(** * Properties *)
(* ===================================================================== *)

(** ** Strings *)

Lemma trimStart_idempotent s : trimStart (trimStart s) = trimStart s.
Proof.
  induction s as [|c s IH]; simpl; [done|].
  destruct (isWhiteSpace c) eqn:Hc; [done|]. simpl. by rewrite Hc.
Qed.

Lemma trimStart_app_keep s t :
  trimStart s ≠ [] → trimStart (s ++ t) = trimStart s ++ t.
Proof.
  induction s as [|c s IH]; simpl; [done|].
  destruct (isWhiteSpace c); [apply IH | done].
Qed.

(** Stripping the end of a string that starts with a non-blank keeps that
    start. *)
Lemma trimEnd_head c s :
  isWhiteSpace c = false → ∃ s', trimEnd (c :: s) = c :: s'.
Proof.
  intros Hc. unfold trimEnd. simpl.
  destruct (trimStart (rev s)) as [|d r] eqn:Hr.
  - assert (trimStart (rev s ++ [c]) = [c]) as ->.
    { clear -Hc Hr. induction (rev s) as [|x l IH]; simpl in *.
      - by rewrite Hc.
      - destruct (isWhiteSpace x); [by apply IH | done]. }
    by exists [].
  - rewrite trimStart_app_keep by (rewrite Hr; done).
    rewrite Hr, rev_app_distr. simpl. eauto.
Qed.

Lemma trimStart_head s :
  trimStart s = [] ∨ ∃ c s', trimStart s = c :: s' ∧ isWhiteSpace c = false.
Proof.
  induction s as [|c s IH]; simpl; [by left|].
  destruct (isWhiteSpace c) eqn:Hc; [done|]. right. eauto.
Qed.

Lemma trimEnd_idempotent s : trimEnd (trimEnd s) = trimEnd s.
Proof.
  unfold trimEnd. by rewrite rev_involutive, trimStart_idempotent.
Qed.

(** The start of a trimmed string is not blank. *)
Lemma trimStart_trim s : trimStart (trim s) = trim s.
Proof.
  unfold trim. destruct (trimStart_head s) as [-> | (c & s' & -> & Hc)]; [done|].
  destruct (trimEnd_head c s' Hc) as [t ->]. simpl. by rewrite Hc.
Qed.

Lemma trim_idempotent s : trim (trim s) = trim s.
Proof.
  unfold trim at 1. rewrite trimStart_trim.
  unfold trim. apply trimEnd_idempotent.
Qed.

Lemma nonEmpty_true s : nonEmpty s = true ↔ s ≠ [].
Proof. by destruct s. Qed.

Example trim_strips_both_ends :
  trim ([9; 32; 160]%N ++ str "a b" ++ [10; 8232; 65279]%N) = str "a b".
Proof. reflexivity. Qed.

Example matchBrackets_is_greedy :
  matchBrackets (str "so: [1] and [2], done") = Some (str "[1] and [2]")
  ∧ matchBrackets (str "] then [") = None.
Proof. split; reflexivity. Qed.

Section ConversionExamples.
#[local] Existing Instance Examples.runtime.

Example String_of_array :
  String_ (JArr [JStr (str "a"); JNull; JArr [JBool true; JObj []]])
  = Ok (str "a,,true,[object Object]").
Proof. reflexivity. Qed.

Example String_of_object_without_toString :
  String_ (JObj [ (str "toString", JStr (str "x")) ]) = Throw TypeError.
Proof. reflexivity. Qed.

Example replyContent_of_completion :
  replyContent (Examples.completion (str "[]")) = Ok (JStr (str "[]"))
  ∧ replyContent (JObj [ (str "choices", JArr []) ]) = Ok (JStr [])
  ∧ replyContent (JObj []) = Throw TypeError.
Proof. split_and!; reflexivity. Qed.

End ConversionExamples.

(** ** The filter that pushes *)

Lemma filterPush_spec {A} (dup : A → bool) (P : A → Prop)
    `{!∀ x, Decision (P x)} :
  (∀ x, dup x = true ↔ P x) →
  ∀ xs duplicates,
    filterPush dup xs duplicates
    = (filter (λ x, ¬ P x) xs, duplicates ++ filter P xs).
Proof.
  intros Hdup. induction xs as [|x xs IH]; intros d; simpl.
  - by rewrite app_nil_r.
  - rewrite !filter_cons. destruct (dup x) eqn:Hx.
    + apply Hdup in Hx. rewrite IH. repeat case_decide; try tauto.
      by rewrite <- app_assoc.
    + assert (¬ P x) as Hn by (rewrite <- Hdup; congruence).
      rewrite IH. repeat case_decide; tauto.
Qed.

Section Deduplication.
Context `{Runtime}.

(** The keys of existing word records: objects whose [arabic] and
    [english] properties are strings. *)
Lemma existing_word_keys (existing : list json)
    (texts : list (jsstring * jsstring)) :
  Forall2 (λ record '(a, e),
             ∃ fields, record = JObj fields
                       ∧ ownProperty (str "arabic") fields = Some (JStr a)
                       ∧ ownProperty (str "english") fields = Some (JStr e))
          existing texts →
  arrayMap (JArr existing) Vocabulary.existingKey
  = Ok ((λ '(a, e), trim (toLowerCase a) ++ str "|" ++ trim (toLowerCase e))
          <$> texts).
Proof.
  cbn [arrayMap]. induction 1 as [|record [a e] existing texts Hrecord _ IH].
  - done.
  - destruct Hrecord as (fields & -> & Ha & He).
    cbn [mapR]. rewrite IH. unfold Vocabulary.existingKey. cbn [getProp].
    rewrite Ha, He. done.
Qed.

(** The keys of existing sentence records: objects whose [arabic] property
    is a string. *)
Lemma existing_sentence_keys (existing : list json) (texts : list jsstring) :
  Forall2 (λ record a,
             ∃ fields, record = JObj fields
                       ∧ ownProperty (str "arabic") fields = Some (JStr a))
          existing texts →
  arrayMap (JArr existing) Conversation.existingKey
  = Ok ((λ a, trim (toLowerCase a)) <$> texts).
Proof.
  cbn [arrayMap]. induction 1 as [|record a existing texts Hrecord _ IH].
  - done.
  - destruct Hrecord as (fields & -> & Ha).
    cbn [mapR]. rewrite IH. unfold Conversation.existingKey. cbn [getProp].
    rewrite Ha. done.
Qed.

End Deduplication.

(** C1. De-duplication in both extraction handlers. The existing records
    are any objects with a string under [arabic] (and, for words, under
    [english]); they may have other properties. The normalized form of a
    text is the text lowercased, then trimmed. The key of a word is the
    normalized Arabic text, a bar, and the normalized English text; the key
    of a sentence is its normalized Arabic text. Against any such list of
    records, the filter removes exactly the extracted entries whose key is
    the key of an existing record, and returns the others, in their
    original order, as [wordPairs] / [sentences]. *)
Theorem deduplication_removes_exactly_existing `{Runtime}
    (existingWords existingSentences : list json)
    (wordTexts : list (jsstring * jsstring)) (sentenceTexts : list jsstring)
    (extractedPairs : list Vocabulary.wordPair)
    (extractedSentences : list Conversation.sentence) :
  Forall2 (λ record '(a, e),
             ∃ fields, record = JObj fields
                       ∧ ownProperty (str "arabic") fields = Some (JStr a)
                       ∧ ownProperty (str "english") fields = Some (JStr e))
          existingWords wordTexts →
  Forall2 (λ record a,
             ∃ fields, record = JObj fields
                       ∧ ownProperty (str "arabic") fields = Some (JStr a))
          existingSentences sentenceTexts →
  let normalized text := trim (toLowerCase text) in
  let wordKey a e := normalized a ++ str "|" ++ normalized e in
  let knownPair p :=
    wordKey (Vocabulary.arabic p) (Vocabulary.english p)
    ∈ ((λ '(a, e), wordKey a e) <$> wordTexts) in
  let knownSentence s :=
    normalized (Conversation.arabic s) ∈ (normalized <$> sentenceTexts) in
  Vocabulary.removeDuplicates (JArr existingWords) extractedPairs
  = Ok (filter (λ p, ¬ knownPair p) extractedPairs,
        filter knownPair extractedPairs)
  ∧ Conversation.removeDuplicates (JArr existingSentences)
      extractedSentences []
    = Ok (filter (λ s, ¬ knownSentence s) extractedSentences,
          filter knownSentence extractedSentences)
  ∧ (∀ content outer,
       Vocabulary.parseBlock content (JArr existingWords) outer
       = (items ← parseReplyArray content;
          validated ← Vocabulary.validate items;
          Ok {| Vocabulary.wordPairs := filter (λ p, ¬ knownPair p) validated;
                Vocabulary.duplicates := Vocabulary.duplicates outer |}))
  ∧ (∀ content outer,
       Conversation.parseBlock content (JArr existingSentences) outer
       = (items ← parseReplyArray content;
          validated ← Conversation.validate items;
          Ok {| Conversation.sentences :=
                  filter (λ s, ¬ knownSentence s) validated;
                Conversation.duplicates := filter knownSentence validated |})).
Proof.
  intros Hwords Hsentences normalized wordKey knownPair knownSentence.
  assert (∀ ps, Vocabulary.removeDuplicates (JArr existingWords) ps
                = Ok (filter (λ p, ¬ knownPair p) ps, filter knownPair ps))
    as Hpairs.
  { intros ps. unfold Vocabulary.removeDuplicates.
    rewrite (existing_word_keys _ _ Hwords). simpl.
    rewrite (filterPush_spec _ knownPair); [done|].
    intros p. rewrite bool_decide_eq_true. unfold knownPair.
    by rewrite elem_of_list_to_set. }
  assert (∀ ss, Conversation.removeDuplicates (JArr existingSentences) ss []
                = Ok (filter (λ s, ¬ knownSentence s) ss,
                      filter knownSentence ss))
    as Hsents.
  { intros ss. unfold Conversation.removeDuplicates.
    rewrite (existing_sentence_keys _ _ Hsentences). simpl.
    rewrite (filterPush_spec _ knownSentence); [done|].
    intros s. rewrite bool_decide_eq_true. unfold knownSentence.
    by rewrite elem_of_list_to_set. }
  split_and!; [apply Hpairs | apply Hsents | |].
  - intros content outer. unfold Vocabulary.parseBlock.
    destruct (parseReplyArray content) as [items|]; [simpl|done].
    destruct (Vocabulary.validate items) as [validated|]; [simpl|done].
    by rewrite Hpairs.
  - intros content outer. unfold Conversation.parseBlock.
    destruct (parseReplyArray content) as [items|]; [simpl|done].
    destruct (Conversation.validate items) as [validated|]; [simpl|done].
    by rewrite Hsents.
Qed.

Lemma deduplication_removes_exactly_existing_witness :
  let existingWords :=
    [ JObj [ (str "id", JStr (str "7"));
             (str "arabic", JStr Examples.kitab);
             (str "english", JStr (str " Book ")) ] ] in
  let existingSentences :=
    [ JObj [ (str "arabic", JStr (Examples.qalam ++ str " ")) ] ] in
  let book := {| Vocabulary.arabic := Examples.kitab;
                 Vocabulary.english := str "book" |} in
  let pen := {| Vocabulary.arabic := Examples.qalam;
                Vocabulary.english := str "pen" |} in
  let first := {| Conversation.arabic := Examples.kitab;
                  Conversation.english := None |} in
  let second := {| Conversation.arabic := Examples.qalam;
                   Conversation.english := Some (str "pen") |} in
  @Vocabulary.removeDuplicates Examples.runtime (JArr existingWords) [book; pen]
  = Ok ([pen], [book])
  ∧ @Conversation.removeDuplicates Examples.runtime (JArr existingSentences)
      [first; second] []
    = Ok ([first], [second]).
Proof.
  intros existingWords existingSentences book pen first second.
  destruct (@deduplication_removes_exactly_existing Examples.runtime
              existingWords existingSentences
              [ (Examples.kitab, str " Book ") ] [ Examples.qalam ++ str " " ]
              [book; pen] [first; second])
    as (Hpairs & Hsentences & _).
  - repeat constructor. eexists. split_and!; reflexivity.
  - repeat constructor. eexists. split_and!; reflexivity.
  - split.
    + rewrite Hpairs. vm_compute. reflexivity.
    + rewrite Hsentences. vm_compute. reflexivity.
Defined.

(** ** Running programs *)

Lemma run_bind {E A B} (env : environment E) (m : prog E A) (f : A → prog E B) :
  run env (m ≫= f)
  = match run env m with
    | (Ok a, t) => let '(r, t') := run env (f a) in (r, t ++ t')
    | (Throw e, t) => (Throw e, t)
    end.
Proof.
  unfold mbind, prog_bind.
  induction m as [a|e|X ev k IH]; simpl.
  - by destruct (run env (f a)).
  - done.
  - rewrite IH. destruct (run env (k (env X ev))) as [[a|e] t]; [|done].
    by destruct (run env (f a)).
Qed.

Lemma run_tryCatch {E A} (env : environment E) (m : prog E A) h :
  run env (tryCatch m h)
  = match run env m with
    | (Ok a, t) => (Ok a, t)
    | (Throw e, t) => let '(r, t') := run env (h e) in (r, t ++ t')
    end.
Proof.
  induction m as [a|e|X ev k IH]; simpl.
  - done.
  - by destruct (run env (h e)).
  - rewrite IH. destruct (run env (k (env X ev))) as [[a|e] t]; [done|].
    by destruct (run env (h e)).
Qed.

Lemma run_await {E X} (env : environment E) (ev : E (result X)) :
  run env (await ev)
  = (env _ ev, [existT _ ev]).
Proof. unfold await. simpl. by destruct (env _ ev). Qed.

Lemma run_perform {E X} (env : environment E) (ev : E X) :
  run env (perform ev) = (Ok (env _ ev), [existT _ ev]).
Proof. done. Qed.

Lemma run_lift {E A} (env : environment E) (r : result A) :
  run env (lift r) = (r, []).
Proof. by destruct r. Qed.

Lemma run_callOpenRouter (env : environment event) key model messages :
  run env (callOpenRouter key model messages)
  = let referer := env _ (ProcessEnv (str "NEXT_PUBLIC_APP_URL")) in
    let title := env _ (ProcessEnv (str "NEXT_PUBLIC_APP_NAME")) in
    let init := openRouterInit key model messages referer title in
    (env _ (Fetch completionsUrl init),
     [ existT _ (ProcessEnv (str "NEXT_PUBLIC_APP_URL"));
       existT _ (ProcessEnv (str "NEXT_PUBLIC_APP_NAME"));
       existT _ (Fetch completionsUrl init) ]).
Proof.
  unfold callOpenRouter. simpl.
  by destruct (env _ (Fetch _ _)).
Qed.

Lemma fetchCalls_app t1 t2 : fetchCalls (t1 ++ t2) = fetchCalls t1 ++ fetchCalls t2.
Proof. apply omap_app. Qed.

(** ** What a run of a handler looks like *)

Section HandlerRuns.
Context `{Runtime}.

(** A run of the vocabulary handler either answers an error body without
    calling the API, or calls it once, with the request above, and
    answers what [respond] makes of the reply. *)
Lemma vocabulary_run (env : environment event) :
  (∃ msg st, fst (run env Vocabulary.POST) = Ok (jsonResponse (ErrorBody msg) st)
             ∧ fetchCalls (snd (run env Vocabulary.POST)) = [])
  ∨ (∃ fd file c cfg key,
       env _ RequestFormData = Ok fd
       ∧ image fd = Some file
       ∧ env _ GetOpenRouterConfig = Ok c
       ∧ configured c = Some (cfg, key)
       ∧ let init := vocabularyInit env fd file cfg key in
         fetchCalls (snd (run env Vocabulary.POST)) = [(completionsUrl, init)]
         ∧ fst (run env Vocabulary.POST)
           = Ok (match
                    response ← env _ (Fetch completionsUrl init);
                    Vocabulary.respond response
                      (parseExisting
                         (formGet (entries fd) (str "existingWords")))
                      (rb_model (fi_body init))
                  with
                  | Ok r => r
                  | Throw e => Vocabulary.failure e
                  end)).
Proof.
  unfold Vocabulary.POST. cbn [run].
  destruct (env _ RequireAdmin) as [[]|e].
  2:{ left. simpl. by eexists _, _. }
  rewrite run_tryCatch. unfold Vocabulary.handle.
  rewrite run_bind, run_await.
  destruct (env _ RequestFormData) as [fd|e].
  2:{ left. simpl. by eexists _, _. }
  destruct (image fd) as [file|] eqn:Himage.
  2:{ left. simpl. by eexists _, _. }
  destruct (startsWith (str "image/") (file_type file)) eqn:Htype.
  2:{ left. cbn [negb]. simpl. by eexists _, _. }
  cbn [negb]. rewrite run_bind, run_await.
  destruct (env _ GetOpenRouterConfig) as [c|e].
  2:{ left. simpl. by eexists _, _. }
  destruct (configured c) as [[cfg key]|] eqn:Hcfg.
  2:{ left. simpl. by eexists _, _. }
  right. exists fd, file, c, cfg, key.
  rewrite run_bind, run_callOpenRouter. cbn zeta.
  fold (vocabularyInit env fd file cfg key).
  destruct (env _ (Fetch completionsUrl (vocabularyInit env fd file cfg key)))
    as [response|e]; [|done].
  rewrite run_lift. cbn [mbind result_bind].
  by destruct (Vocabulary.respond _ _ _).
Qed.

Lemma run_loadVocabularyContext (env : environment event) unitId :
  fetchCalls (snd (run env (Conversation.loadVocabularyContext unitId))) = [].
Proof.
  unfold Conversation.loadVocabularyContext.
  rewrite run_bind, run_await.
  destruct (env _ (SelectVocabularyLessons unitId)) as [unitLessons|e]; [|done].
  destruct (0 <? length unitLessons)%nat; [|done].
  rewrite run_bind, run_await.
  by destruct (env _ (SelectVocabularyWords _)).
Qed.

Lemma conversation_run (env : environment event) :
  (∃ msg st,
      fst (run env Conversation.POST) = Ok (jsonResponse (ErrorBody msg) st)
      ∧ fetchCalls (snd (run env Conversation.POST)) = [])
  ∨ (∃ fd file c cfg key vocabularyContext,
       env _ RequestFormData = Ok fd
       ∧ image fd = Some file
       ∧ env _ GetOpenRouterConfig = Ok c
       ∧ configured c = Some (cfg, key)
       ∧ let init := conversationInit env fd file cfg key vocabularyContext in
         fetchCalls (snd (run env Conversation.POST)) = [(completionsUrl, init)]
         ∧ fst (run env Conversation.POST)
           = Ok (match
                    response ← env _ (Fetch completionsUrl init);
                    Conversation.respond response
                      (parseExisting
                         (formGet (entries fd) (str "existingSentences")))
                      (rb_model (fi_body init))
                  with
                  | Ok r => r
                  | Throw e => Conversation.failure e
                  end)).
Proof.
  unfold Conversation.POST. cbn [run].
  destruct (env _ RequireAdmin) as [[]|e].
  2:{ left. simpl. by eexists _, _. }
  rewrite run_tryCatch. unfold Conversation.handle.
  rewrite run_bind, run_await.
  destruct (env _ RequestFormData) as [fd|e].
  2:{ left. simpl. by eexists _, _. }
  destruct (image fd) as [file|] eqn:Himage.
  2:{ left. simpl. by eexists _, _. }
  destruct (nonEmpty (default [] (formGet (entries fd) (str "lessonId")))).
  2:{ left. simpl. by eexists _, _. }
  cbn [negb].
  destruct (parseInt (default [] (formGet (entries fd) (str "lessonId"))))
    as [lessonId|].
  2:{ left. simpl. by eexists _, _. }
  destruct (startsWith (str "image/") (file_type file)) eqn:Htype.
  2:{ left. cbn [negb]. simpl. by eexists _, _. }
  cbn [negb]. rewrite run_bind, run_await.
  destruct (env _ (SelectLessonById lessonId)) as [rows|e].
  2:{ left. simpl. by eexists _, _. }
  destruct (head rows) as [lesson|].
  2:{ left. simpl. by eexists _, _. }
  rewrite run_bind.
  pose proof (run_loadVocabularyContext env (lesson_unitId lesson)) as Hctx.
  destruct (run env (Conversation.loadVocabularyContext (lesson_unitId lesson)))
    as [[vocabularyContext|e] t0]; simpl in Hctx.
  2:{ left. simpl. rewrite !fetchCalls_app, Hctx. by eexists _, _. }
  unfold Conversation.extract. rewrite run_bind, run_await.
  destruct (env _ GetOpenRouterConfig) as [c|e].
  2:{ left. simpl. rewrite !fetchCalls_app, Hctx. by eexists _, _. }
  destruct (configured c) as [[cfg key]|] eqn:Hcfg.
  2:{ left. simpl. rewrite !fetchCalls_app, Hctx. by eexists _, _. }
  right. exists fd, file, c, cfg, key, vocabularyContext.
  rewrite run_bind, run_callOpenRouter. cbn zeta.
  fold (conversationInit env fd file cfg key vocabularyContext).
  destruct (env _ (Fetch completionsUrl
                     (conversationInit env fd file cfg key vocabularyContext)))
    as [response|e].
  2:{ simpl. by rewrite !fetchCalls_app, Hctx. }
  rewrite run_lift. cbn [mbind result_bind].
  destruct (Conversation.respond _ _ _); simpl;
    by rewrite !fetchCalls_app, Hctx.
Qed.

End HandlerRuns.

(** ** Guards *)

(** C3. When [requireAdmin] fails, each extraction handler answers status
    401 with body [{ error: "Unauthorized" }], and the admin check is the
    only call it has made: the request body was not read and the external
    API was not called. When [getSession] gives no session, each learner
    page redirects to [/login] having only read the headers and asked for
    the session: no data was fetched. *)
Theorem guards_stop_before_any_work `{Runtime}
    (env : environment event) (penv : environment Pages.pageEvent)
    (e : exn) (session : json) :
  env _ RequireAdmin = Throw e →
  penv _ (Pages.GetSession (penv _ Pages.Headers)) = Ok session →
  truthy session = false →
  let unauthorized {entry} : nextResponse entry :=
    {| status := 401; resp_body := ErrorBody (str "Unauthorized") |} in
  let guard : list (sigT Pages.pageEvent) :=
    [ existT _ Pages.Headers;
      existT _ (Pages.GetSession (penv _ Pages.Headers)) ] in
  run env Vocabulary.POST = (Ok unauthorized, [existT _ RequireAdmin])
  ∧ run env Conversation.POST = (Ok unauthorized, [existT _ RequireAdmin])
  ∧ run penv Pages.BooksPage = (Ok (Pages.Redirect (str "/login")), guard)
  ∧ run penv Pages.BookDetailPage = (Ok (Pages.Redirect (str "/login")), guard)
  ∧ run penv Pages.UnitDetailPage = (Ok (Pages.Redirect (str "/login")), guard).
Proof.
  intros Hadmin Hsession Hfalsy. cbn zeta.
  split_and!.
  - unfold Vocabulary.POST. cbn [run]. by rewrite Hadmin.
  - unfold Conversation.POST. cbn [run]. by rewrite Hadmin.
  - unfold Pages.BooksPage, Pages.getSession. simpl.
    rewrite Hsession. simpl. by rewrite Hfalsy.
  - unfold Pages.BookDetailPage, Pages.getSession. simpl.
    rewrite Hsession. simpl. by rewrite Hfalsy.
  - unfold Pages.UnitDetailPage, Pages.getSession. simpl.
    rewrite Hsession. simpl. by rewrite Hfalsy.
Qed.

Lemma guards_stop_before_any_work_witness :
  let env := Examples.apiEnv (Throw (Error (str "Unauthorized")))
                             (Examples.formWith []) [] in
  let penv := Examples.pageEnv JNull in
  run env (@Vocabulary.POST Examples.runtime)
  = (Ok {| status := 401; resp_body := ErrorBody (str "Unauthorized") |},
     [existT _ RequireAdmin])
  ∧ run penv (@Pages.BookDetailPage Examples.runtime)
    = (Ok (Pages.Redirect (str "/login")),
       [ existT _ Pages.Headers; existT _ (Pages.GetSession []) ]).
Proof.
  intros env penv.
  destruct (@guards_stop_before_any_work Examples.runtime env penv
              (Error (str "Unauthorized")) JNull)
    as (Hv & _ & _ & Hb & _); [reflexivity | reflexivity | reflexivity |].
  split; [exact Hv | exact Hb].
Defined.

(** ** The request sent to the model *)






(** ** Replies that hold no array *)

Section ParseFailures.
Context `{Runtime}.

Lemma parseReplyArray_no_array text :
  (∀ items, JSON_parse (default text (matchBrackets text)) ≠ Some (JArr items)) →
  ∃ e, parseReplyArray (JStr text) = Throw e.
Proof.
  intros Hno. unfold parseReplyArray. simpl.
  destruct (JSON_parse (default text (matchBrackets text))) as [v|] eqn:Hparse;
    simpl; [|eauto].
  destruct v; simpl; eauto. by destruct (Hno items).
Qed.

Lemma vocabulary_respond_no_array response data content existing model e :
  resp_ok response = true →
  resp_json response = Ok data →
  replyContent data = Ok content →
  parseReplyArray content = Throw e →
  Vocabulary.respond response existing model
  = Ok (Vocabulary.parseFailure content).
Proof.
  intros Hok Hjson Hcontent Hparse. unfold Vocabulary.respond.
  rewrite Hok, Hjson. simpl. rewrite Hcontent. simpl.
  unfold Vocabulary.parseBlock. by rewrite Hparse.
Qed.

Lemma conversation_respond_no_array response data content existing model e :
  resp_ok response = true →
  resp_json response = Ok data →
  replyContent data = Ok content →
  parseReplyArray content = Throw e →
  Conversation.respond response existing model
  = Ok (Conversation.parseFailure content).
Proof.
  intros Hok Hjson Hcontent Hparse. unfold Conversation.respond.
  rewrite Hok, Hjson. simpl. rewrite Hcontent. simpl.
  unfold Conversation.parseBlock. by rewrite Hparse.
Qed.

End ParseFailures.

(** C2. When the content of the model's reply holds no parseable JSON
    array (the bracket-matched text, or the whole content when no brackets
    match, does not parse, or parses to something that is not an array),
    each extraction handler answers status 500 with an error message and
    the raw content, and so with no [wordPairs] / [sentences]. The same
    answer is given to a content that is not a string at all. *)
Theorem reply_without_array_is_a_500 `{Runtime}
    (env : environment event) (url : jsstring) (init : fetchInit)
    (response : fetchResponse) (data content : json) :
  env _ (Fetch url init) = Ok response →
  resp_ok response = true →
  resp_json response = Ok data →
  replyContent data = Ok content →
  (∀ text items,
     content = JStr text →
     JSON_parse (default text (matchBrackets text)) ≠ Some (JArr items)) →
  ((url, init) ∈ fetchCalls (snd (run env Vocabulary.POST)) →
   fst (run env Vocabulary.POST)
   = Ok {| status := 500;
           resp_body :=
             ParseFailureBody
               (str "Failed to parse extracted word pairs. "
                ++ str "The AI response was not in the expected format.")
               content |})
  ∧ ((url, init) ∈ fetchCalls (snd (run env Conversation.POST)) →
     fst (run env Conversation.POST)
     = Ok {| status := 500;
             resp_body :=
               ParseFailureBody
                 (str "Failed to parse extracted sentences. "
                  ++ str "The AI response was not in the expected format.")
                 content |}).
Proof.
  intros Hfetch Hok Hjson Hcontent Hno.
  assert (∃ e, parseReplyArray content = Throw e) as [e He].
  { destruct content as [| | |text| |]; try (by eexists).
    apply parseReplyArray_no_array. intros items. by apply Hno. }
  split; intros Hcall.
  - destruct (vocabulary_run env)
      as [(msg & st & _ & Hnone)
         |(fd & upload & c & cfg & key & _ & _ & _ & _ & Hcalls & Hrun)].
    { rewrite Hnone in Hcall. by apply elem_of_nil in Hcall. }
    rewrite Hcalls in Hcall. apply list_elem_of_singleton in Hcall.
    injection Hcall as -> ->. rewrite Hrun, Hfetch. simpl.
    by rewrite (vocabulary_respond_no_array _ _ _ _ _ _ Hok Hjson Hcontent He).
  - destruct (conversation_run env)
      as [(msg & st & _ & Hnone)
         |(fd & upload & c & cfg & key & ctx & _ & _ & _ & _ & Hcalls & Hrun)].
    { rewrite Hnone in Hcall. by apply elem_of_nil in Hcall. }
    rewrite Hcalls in Hcall. apply list_elem_of_singleton in Hcall.
    injection Hcall as -> ->. rewrite Hrun, Hfetch. simpl.
    by rewrite (conversation_respond_no_array _ _ _ _ _ _ Hok Hjson Hcontent He).
Qed.

Lemma reply_without_array_is_a_500_witness :
  let text := str "Here is what I found: [kitab = book]" in
  let form := Examples.formWith [ (str "lessonId", str "7") ] in
  let env := Examples.apiEnv (Ok ()) form text in
  matchBrackets text = Some (str "[kitab = book]")
  ∧ fst (run env (@Vocabulary.POST Examples.runtime))
    = Ok {| status := 500;
            resp_body :=
              ParseFailureBody
                (str "Failed to parse extracted word pairs. "
                 ++ str "The AI response was not in the expected format.")
                (JStr text) |}
  ∧ fst (run env (@Conversation.POST Examples.runtime))
    = Ok {| status := 500;
            resp_body :=
              ParseFailureBody
                (str "Failed to parse extracted sentences. "
                 ++ str "The AI response was not in the expected format.")
                (JStr text) |}.
Proof.
  intros text form env.
  pose (upload := {| file_type := str "image/png";
                     file_bytes := [Byte.x89; Byte.x50; Byte.x4e; Byte.x47] |}).
  pose (cfg := {| apiKey := Some (str "sk-or-test"); supportedModels := [] |}).
  destruct (@reply_without_array_is_a_500 Examples.runtime env completionsUrl
              (@vocabularyInit Examples.runtime env form upload cfg
                 (str "sk-or-test"))
              (Examples.reply text) (Examples.completion text) (JStr text))
    as [HV _]; try reflexivity.
  { intros text' items [= <-]. vm_compute. discriminate. }
  destruct (@reply_without_array_is_a_500 Examples.runtime env completionsUrl
              (@conversationInit Examples.runtime env form upload cfg
                 (str "sk-or-test") [])
              (Examples.reply text) (Examples.completion text) (JStr text))
    as [_ HC]; try reflexivity.
  { intros text' items [= <-]. vm_compute. discriminate. }
  split_and!; [reflexivity | apply HV | apply HC]; vm_compute; left.
Defined.

(** ** Successful extractions *)

Section Extractions.
Context `{Runtime}.

Lemma filterPush_member {A} (dup : A → bool) (keyOf : A → jsstring)
    (keys : list jsstring) xs duplicates :
  (∀ x, dup x = bool_decide (keyOf x ∈ (list_to_set keys : gset jsstring))) →
  filterPush dup xs duplicates
  = (filter (λ x, keyOf x ∉ keys) xs, duplicates ++ filter (λ x, keyOf x ∈ keys) xs).
Proof.
  intros Hdup. apply (filterPush_spec dup (λ x, keyOf x ∈ keys)).
  intros x. by rewrite Hdup, bool_decide_eq_true, elem_of_list_to_set.
Qed.

Lemma vocabulary_parseBlock_ok content existing outer vars :
  Vocabulary.parseBlock content existing outer = Ok vars →
  ∃ items validated keys,
    parseReplyArray content = Ok items
    ∧ Vocabulary.validate items = Ok validated
    ∧ arrayMap existing Vocabulary.existingKey = Ok keys
    ∧ Vocabulary.wordPairs vars
      = filter (λ p, Vocabulary.pairKey p ∉ keys) validated
    ∧ Vocabulary.duplicates vars = Vocabulary.duplicates outer.
Proof.
  unfold Vocabulary.parseBlock, Vocabulary.removeDuplicates.
  destruct (parseReplyArray content) as [items|]; [simpl|done].
  destruct (Vocabulary.validate items) as [validated|] eqn:Hv; [simpl|done].
  destruct (arrayMap existing Vocabulary.existingKey) as [keys|]; [simpl|done].
  rewrite (filterPush_member _ Vocabulary.pairKey keys) by done.
  intros [= <-]. by exists items, validated, keys.
Qed.

Lemma conversation_parseBlock_ok content existing outer vars :
  Conversation.parseBlock content existing outer = Ok vars →
  ∃ items validated keys,
    parseReplyArray content = Ok items
    ∧ Conversation.validate items = Ok validated
    ∧ arrayMap existing Conversation.existingKey = Ok keys
    ∧ Conversation.sentences vars
      = filter (λ s, Conversation.sentenceKey s ∉ keys) validated
    ∧ Conversation.duplicates vars
      = filter (λ s, Conversation.sentenceKey s ∈ keys) validated.
Proof.
  unfold Conversation.parseBlock, Conversation.removeDuplicates.
  destruct (parseReplyArray content) as [items|]; [simpl|done].
  destruct (Conversation.validate items) as [validated|] eqn:Hv; [simpl|done].
  destruct (arrayMap existing Conversation.existingKey) as [keys|]; [simpl|done].
  rewrite (filterPush_member _ Conversation.sentenceKey keys) by done.
  intros [= <-]. by exists items, validated, keys.
Qed.

(** A success body of the vocabulary handler: where its two arrays come
    from. *)
Lemma vocabulary_success env r extracted duplicates model :
  fst (run env Vocabulary.POST) = Ok r →
  resp_body r = SuccessBody extracted duplicates model →
  ∃ validated keys,
    extraction Vocabulary.POST Vocabulary.validate Vocabulary.existingKey
      (str "existingWords") env validated keys
    ∧ extracted = filter (λ p, Vocabulary.pairKey p ∉ keys) validated
    ∧ duplicates = [].
Proof.
  intros Hrun Hbody.
  destruct (vocabulary_run env)
    as [(msg & st & Herr & _)
       |(fd & upload & c & cfg & key & Hfd & _ & _ & _ & Hcalls & Hres)].
  { rewrite Hrun in Herr. injection Herr as ->. done. }
  rewrite Hrun in Hres. injection Hres as Hres.
  destruct (env _ (Fetch completionsUrl (vocabularyInit env fd upload cfg key)))
    as [response|e] eqn:Hfetch; simpl in Hres; [|by subst r].
  unfold Vocabulary.respond in Hres.
  destruct (resp_ok response); simpl in Hres; [|by subst r].
  destruct (resp_json response) as [data|] eqn:Hjson; simpl in Hres;
    [|by subst r].
  destruct (replyContent data) as [content|] eqn:Hcontent; simpl in Hres;
    [|by subst r].
  destruct (Vocabulary.parseBlock _ _ _) as [vars|] eqn:Hblock;
    simpl in Hres; [|by subst r].
  destruct (getProp data (str "model")); simpl in Hres; [|by subst r].
  subst r. simpl in Hbody. injection Hbody as <- <- _.
  apply vocabulary_parseBlock_ok in Hblock
    as (items & validated & keys & Hitems & Hvalid & Hkeys & -> & ->).
  exists validated, keys. split_and!; [|done..].
  exists fd, completionsUrl, (vocabularyInit env fd upload cfg key),
         response, data, content, items.
  split_and!; try done. rewrite Hcalls. by left.
Qed.

(** A success body of the conversation handler. *)
Lemma conversation_success env r extracted duplicates model :
  fst (run env Conversation.POST) = Ok r →
  resp_body r = SuccessBody extracted duplicates model →
  ∃ validated keys,
    extraction Conversation.POST Conversation.validate Conversation.existingKey
      (str "existingSentences") env validated keys
    ∧ extracted = filter (λ s, Conversation.sentenceKey s ∉ keys) validated
    ∧ duplicates = filter (λ s, Conversation.sentenceKey s ∈ keys) validated.
Proof.
  intros Hrun Hbody.
  destruct (conversation_run env)
    as [(msg & st & Herr & _)
       |(fd & upload & c & cfg & key & ctx & Hfd & _ & _ & _ & Hcalls & Hres)].
  { rewrite Hrun in Herr. injection Herr as ->. done. }
  rewrite Hrun in Hres. injection Hres as Hres.
  destruct (env _ (Fetch completionsUrl
                     (conversationInit env fd upload cfg key ctx)))
    as [response|e] eqn:Hfetch; simpl in Hres; [|by subst r].
  unfold Conversation.respond in Hres.
  destruct (resp_ok response); simpl in Hres; [|by subst r].
  destruct (resp_json response) as [data|] eqn:Hjson; simpl in Hres;
    [|by subst r].
  destruct (replyContent data) as [content|] eqn:Hcontent; simpl in Hres;
    [|by subst r].
  destruct (Conversation.parseBlock _ _ _) as [vars|] eqn:Hblock;
    simpl in Hres; [|by subst r].
  destruct (getProp data (str "model")); simpl in Hres; [|by subst r].
  subst r. simpl in Hbody. injection Hbody as <- <- _.
  apply conversation_parseBlock_ok in Hblock
    as (items & validated & keys & Hitems & Hvalid & Hkeys & -> & ->).
  exists validated, keys. split_and!; [|done..].
  exists fd, completionsUrl, (conversationInit env fd upload cfg key ctx),
         response, data, content, items.
  split_and!; try done. rewrite Hcalls. by left.
Qed.

End Extractions.

(** C8. Whatever the input, a success response of the vocabulary handler
    has an empty [duplicates] array, also when word pairs that match
    existing words were filtered out of [wordPairs]: the pushes go to the
    array the [try] block declares, which hides the outer one. A success
    response of the conversation handler has in [duplicates] exactly the
    sentences filtered out of [sentences]. *)
Theorem vocabulary_duplicates_always_empty `{Runtime} (env : environment event) :
  (∀ r wordPairs duplicates model,
     fst (run env Vocabulary.POST) = Ok r →
     resp_body r = SuccessBody wordPairs duplicates model →
     ∃ validated keys,
       extraction Vocabulary.POST Vocabulary.validate Vocabulary.existingKey
         (str "existingWords") env validated keys
       ∧ wordPairs = filter (λ p, Vocabulary.pairKey p ∉ keys) validated
       ∧ duplicates = [])
  ∧ (∀ r sentences duplicates model,
       fst (run env Conversation.POST) = Ok r →
       resp_body r = SuccessBody sentences duplicates model →
       ∃ validated keys,
         extraction Conversation.POST Conversation.validate
           Conversation.existingKey (str "existingSentences") env validated keys
         ∧ sentences
           = filter (λ s, Conversation.sentenceKey s ∉ keys) validated
         ∧ duplicates
           = filter (λ s, Conversation.sentenceKey s ∈ keys) validated).
Proof.
  split; intros r extracted duplicates model Hrun Hbody.
  - by apply (vocabulary_success env r extracted duplicates model).
  - by apply (conversation_success env r extracted duplicates model).
Qed.

Section DuplicatesExample.
#[local] Existing Instance Examples.runtime.

Lemma vocabulary_duplicates_always_empty_witness :
  let known := str "[" ++ Examples.pairText Examples.kitab (str "book") ++ str "]" in
  let content :=
    str "[" ++ Examples.pairText Examples.kitab (str "book") ++ str ","
    ++ Examples.pairText Examples.qalam (str "pen") ++ str "]" in
  let form :=
    Examples.formWith [ (str "existingWords", known);
                        (str "existingSentences", known);
                        (str "lessonId", str "7") ] in
  let env := Examples.apiEnv (Ok ()) form content in
  let book := {| Vocabulary.arabic := Examples.kitab;
                 Vocabulary.english := str "book" |} in
  let pen := {| Vocabulary.arabic := Examples.qalam;
                Vocabulary.english := str "pen" |} in
  let book' := {| Conversation.arabic := Examples.kitab;
                  Conversation.english := Some (str "book") |} in
  let pen' := {| Conversation.arabic := Examples.qalam;
                 Conversation.english := Some (str "pen") |} in
  Vocabulary.validate
    [ Examples.pairValue Examples.kitab (str "book");
      Examples.pairValue Examples.qalam (str "pen") ] = Ok [book; pen]
  ∧ fst (run env Vocabulary.POST)
    = Ok {| status := 200;
            resp_body := SuccessBody [pen] [] (JStr (str "openai/gpt-4o")) |}
  ∧ fst (run env Conversation.POST)
    = Ok {| status := 200;
            resp_body := SuccessBody [pen'] [book'] (JStr (str "openai/gpt-4o")) |}
  ∧ (∃ validated keys,
       extraction Vocabulary.POST Vocabulary.validate
         Vocabulary.existingKey (str "existingWords") env validated keys
       ∧ [pen] = filter (λ p, Vocabulary.pairKey p ∉ keys) validated
       ∧ @nil Vocabulary.wordPair = [])
  ∧ (∃ validated keys,
       extraction Conversation.POST Conversation.validate
         Conversation.existingKey (str "existingSentences") env validated keys
       ∧ [pen'] = filter (λ s, Conversation.sentenceKey s ∉ keys) validated
       ∧ [book'] = filter (λ s, Conversation.sentenceKey s ∈ keys) validated).
Proof.
  intros known content form env book pen book' pen'.
  destruct (vocabulary_duplicates_always_empty env) as [HV HC].
  split_and!; [reflexivity | reflexivity | reflexivity | |].
  - exact (HV _ [pen] [] (JStr (str "openai/gpt-4o")) eq_refl eq_refl).
  - exact (HC _ [pen'] [book'] (JStr (str "openai/gpt-4o")) eq_refl eq_refl).
Defined.

End DuplicatesExample.

(** ** Normalization *)

Lemma mapR_Forall {A B} (f : A → result B) (P : B → Prop) xs ys :
  (∀ x y, f x = Ok y → P y) → mapR f xs = Ok ys → Forall P ys.
Proof.
  intros Hf. revert ys. induction xs as [|x xs IH]; intros ys; simpl.
  - by intros [= <-].
  - destruct (f x) as [y|] eqn:Hy; [simpl|done].
    destruct (mapR f xs) as [ys'|]; [simpl|done].
    intros [= <-]. constructor; eauto.
Qed.

Lemma filterR_drop {A} (p : A → result bool) before x after :
  p x = Ok false → filterR p (before ++ x :: after) = filterR p (before ++ after).
Proof.
  intros Hx. induction before as [|y before IH]; simpl.
  - rewrite Hx. simpl. by destruct (filterR p after).
  - by rewrite IH.
Qed.

Lemma Forall_list_filter {A} (P : A → Prop) (f : A → bool) xs :
  Forall P xs → Forall P (List.filter f xs).
Proof.
  induction 1 as [|x xs Hx _ IH]; simpl; [done|].
  destruct (f x); [by constructor | done].
Qed.

Lemma Forall_list_filter_true {A} (f : A → bool) xs :
  Forall (λ x, f x = true) (List.filter f xs).
Proof.
  induction xs as [|x xs IH]; simpl; [done|].
  destruct (f x) eqn:Hx; [by constructor | done].
Qed.

Section Normalization.
Context `{Runtime}.

Lemma vocabulary_validate_wellFormed items validated :
  Vocabulary.validate items = Ok validated → Forall wellFormedPair validated.
Proof.
  unfold Vocabulary.validate.
  destruct (filterR Vocabulary.hasBoth items) as [present|]; [simpl|done].
  destruct (mapR Vocabulary.toWordPair present) as [trimmed|] eqn:Hmap;
    [simpl|done].
  intros [= <-].
  assert (Forall (λ p, trim (Vocabulary.arabic p) = Vocabulary.arabic p
                       ∧ trim (Vocabulary.english p) = Vocabulary.english p)
                 trimmed) as Htrim.
  { apply (mapR_Forall Vocabulary.toWordPair _ present); [|done].
    intros x y. unfold Vocabulary.toWordPair.
    destruct (getProp x (str "arabic")) as [a|]; [simpl|done].
    destruct (StringV a) as [sa|]; [simpl|done].
    destruct (getProp x (str "english")) as [e|]; [simpl|done].
    destruct (StringV e) as [se|]; [simpl|done].
    intros [= <-]. simpl. by rewrite !trim_idempotent. }
  pose proof (Forall_list_filter _ Vocabulary.bothNonEmpty _ Htrim) as H1.
  pose proof (Forall_list_filter_true Vocabulary.bothNonEmpty trimmed) as H2.
  rewrite Forall_forall in H1, H2. apply Forall_forall. intros p Hp.
  destruct (H1 p Hp) as [Ha He]. specialize (H2 p Hp).
  unfold Vocabulary.bothNonEmpty in H2. apply andb_true_iff in H2 as [Na Ne].
  apply nonEmpty_true in Na, Ne. done.
Qed.

Lemma conversation_validate_wellFormed items validated :
  Conversation.validate items = Ok validated →
  Forall wellFormedSentence validated.
Proof.
  unfold Conversation.validate.
  destruct (filterR Conversation.hasArabic items) as [present|]; [simpl|done].
  destruct (mapR Conversation.toSentence present) as [trimmed|] eqn:Hmap;
    [simpl|done].
  intros [= <-].
  assert (Forall (λ s, trim (Conversation.arabic s) = Conversation.arabic s)
                 trimmed) as Htrim.
  { apply (mapR_Forall Conversation.toSentence _ present); [|done].
    intros x y. unfold Conversation.toSentence.
    destruct (getProp x (str "arabic")) as [a|]; [simpl|done].
    destruct (StringV a) as [sa|]; [simpl|done].
    destruct (getProp x (str "english")) as [e|]; [simpl|done].
    destruct (truthyV e); simpl.
    - destruct (StringV e) as [se|]; [simpl|done].
      intros [= <-]. simpl. by rewrite trim_idempotent.
    - intros [= <-]. simpl. by rewrite trim_idempotent. }
  pose proof (Forall_list_filter _ (λ s, nonEmpty (Conversation.arabic s))
                _ Htrim) as H1.
  pose proof (Forall_list_filter_true
                (λ s, nonEmpty (Conversation.arabic s)) trimmed) as H2.
  rewrite Forall_forall in H1, H2. apply Forall_forall. intros s Hs.
  split; [by apply H1|]. apply nonEmpty_true. by apply H2.
Qed.

Lemma vocabulary_validate_drop before entry after a e :
  getProp entry (str "arabic") = Ok a →
  getProp entry (str "english") = Ok e →
  truthyV a && truthyV e = false →
  Vocabulary.validate (before ++ entry :: after)
  = Vocabulary.validate (before ++ after).
Proof.
  intros Ha He Hfalsy. unfold Vocabulary.validate.
  rewrite filterR_drop; [done|].
  unfold Vocabulary.hasBoth. rewrite Ha. simpl.
  destruct (truthyV a); [|done]. rewrite He. simpl. by f_equal.
Qed.

Lemma conversation_validate_drop before entry after a :
  getProp entry (str "arabic") = Ok a →
  truthyV a = false →
  Conversation.validate (before ++ entry :: after)
  = Conversation.validate (before ++ after).
Proof.
  intros Ha Hfalsy. unfold Conversation.validate.
  rewrite filterR_drop; [done|].
  unfold Conversation.hasArabic. rewrite Ha. simpl. by f_equal.
Qed.

End Normalization.

Section NullEntry.
#[local] Existing Instance Examples.runtime.

(** C4, as stated, fails on the reply [[null]]: it parses to an array whose
    one entry has neither field, and reading [pair.arabic] of [null]
    throws; the entry is not dropped, and both handlers answer
    the 500 of a reply that could not be parsed. *)
Lemma null_entry_is_not_dropped :
  let env := Examples.apiEnv (Ok ()) (Examples.formWith [ (str "lessonId", str "7") ])
                             (str "[null]") in
  parseReplyArray (JStr (str "[null]")) = Ok [JNull]
  ∧ Vocabulary.validate [JNull] = Throw TypeError
  ∧ Conversation.validate [JNull] = Throw TypeError
  ∧ fst (run env Vocabulary.POST) = Ok (Vocabulary.parseFailure (JStr (str "[null]")))
  ∧ status (Vocabulary.parseFailure (JStr (str "[null]"))) = 500%Z
  ∧ fst (run env Conversation.POST)
    = Ok (Conversation.parseFailure (JStr (str "[null]")))
  ∧ status (Conversation.parseFailure (JStr (str "[null]"))) = 500%Z.
Proof. intros env. split_and!; reflexivity. Qed.

End NullEntry.

(** C4, amended. Every element of a returned [wordPairs] has [arabic] and
    [english] equal to their trimmed form and not empty, and every element
    of a returned [sentences] has such an [arabic]. An entry other than
    [null] whose [arabic] (for a word pair: [arabic] or [english]) is
    missing or falsy is dropped: validation goes as if the entry were not
    in the array. *)
Theorem normalization_yields_wellformed_entries `{Runtime}
    (env : environment event) (before after : list json) (entry : json)
    (a e : jsval) :
  getProp entry (str "arabic") = Ok a →
  getProp entry (str "english") = Ok e →
  (∀ r wordPairs duplicates model,
     fst (run env Vocabulary.POST) = Ok r →
     resp_body r = SuccessBody wordPairs duplicates model →
     Forall wellFormedPair wordPairs)
  ∧ (∀ r sentences duplicates model,
       fst (run env Conversation.POST) = Ok r →
       resp_body r = SuccessBody sentences duplicates model →
       Forall wellFormedSentence sentences)
  ∧ (truthyV a && truthyV e = false →
     Vocabulary.validate (before ++ entry :: after)
     = Vocabulary.validate (before ++ after))
  ∧ (truthyV a = false →
     Conversation.validate (before ++ entry :: after)
     = Conversation.validate (before ++ after)).
Proof.
  intros Ha He. split_and!.
  - intros r wordPairs duplicates model Hrun Hbody.
    destruct (vocabulary_success env r _ _ _ Hrun Hbody)
      as (validated & keys & Hex & -> & _).
    destruct Hex as (? & ? & ? & ? & ? & ? & items & _ & _ & _ & _ & _ & _ & Hv & _).
    apply vocabulary_validate_wellFormed in Hv.
    rewrite Forall_forall in Hv |- *. intros p Hp.
    apply list_elem_of_filter in Hp as [_ Hp]. by apply Hv.
  - intros r sentences duplicates model Hrun Hbody.
    destruct (conversation_success env r _ _ _ Hrun Hbody)
      as (validated & keys & Hex & -> & _).
    destruct Hex as (? & ? & ? & ? & ? & ? & items & _ & _ & _ & _ & _ & _ & Hv & _).
    apply conversation_validate_wellFormed in Hv.
    rewrite Forall_forall in Hv |- *. intros s Hs.
    apply list_elem_of_filter in Hs as [_ Hs]. by apply Hv.
  - intros Hfalsy. by apply (vocabulary_validate_drop before entry after a e).
  - intros Hfalsy. by apply (conversation_validate_drop before entry after a).
Qed.

Section NormalizationExample.
#[local] Existing Instance Examples.runtime.

Lemma normalization_yields_wellformed_entries_witness :
  let content :=
    str "[" ++ Examples.pairText Examples.kitab (str "book") ++ str ","
    ++ Examples.pairText Examples.qalam (str "pen") ++ str "]" in
  let env := Examples.apiEnv (Ok ()) (Examples.formWith [ (str "lessonId", str "7") ])
                             content in
  let pen := {| Vocabulary.arabic := Examples.qalam;
                Vocabulary.english := str "pen" |} in
  let blank := JObj [ (str "arabic", JStr []); (str "english", JStr (str "pen")) ] in
  let full := Examples.pairValue Examples.kitab (str "book") in
  Forall wellFormedPair
    [ {| Vocabulary.arabic := Examples.kitab; Vocabulary.english := str "book" |};
      pen ]
  ∧ Vocabulary.validate ([full] ++ blank :: [JNum (S754_zero false)])
    = Vocabulary.validate ([full] ++ [JNum (S754_zero false)])
  ∧ Conversation.validate ([full] ++ blank :: [JNum (S754_zero false)])
    = Conversation.validate ([full] ++ [JNum (S754_zero false)]).
Proof.
  intros content env pen blank full.
  destruct (normalization_yields_wellformed_entries env [full]
              [JNum (S754_zero false)] blank (Some (JStr []))
              (Some (JStr (str "pen"))) eq_refl eq_refl)
    as (HV & _ & Hdrop & Hdrop').
  split_and!.
  - exact (HV _ _ [] (JStr (str "openai/gpt-4o")) eq_refl eq_refl).
  - exact (Hdrop eq_refl).
  - exact (Hdrop' eq_refl).
Defined.

End NormalizationExample.

(** ** Flashcards: navigation *)

Lemma step_keeps_inRange words s a :
  inRange words s → inRange words (Flashcards.step words s a).
Proof.
  unfold inRange. intros Hs.
  destruct a as [| | |correct|m|wordId answer| |]; simpl;
    unfold Flashcards.handleNext, Flashcards.handlePrevious; try done.
  - destruct (Z.ltb_spec (Flashcards.currentIndex s) (Z.of_nat (length words) - 1));
      simpl; lia.
  - destruct (Z.gtb_spec (Flashcards.currentIndex s) 0); simpl; lia.
  - destruct (Z.ltb_spec (Flashcards.currentIndex s) (Z.of_nat (length words) - 1));
      simpl; lia.
  - by destruct m.
  - lia.
Qed.

Lemma steps_keep_inRange words acts s :
  inRange words s → inRange words (Flashcards.steps words s acts).
Proof.
  unfold Flashcards.steps. revert s.
  induction acts as [|a acts IH]; intros s Hs; simpl; [done|].
  apply IH. by apply step_keeps_inRange.
Qed.

(** C10. For a non-empty word list, [currentIndex] starts and stays within
    [0 .. words.length - 1] whatever the user does: [handleNext] adds one
    only below [words.length - 1], [handlePrevious] subtracts one only
    above 0, [handleTestReset] sets it to 0; so the current word always
    exists. *)
Theorem currentIndex_stays_in_range
    (words : list Flashcards.VocabularyWord) :
  words ≠ [] →
  inRange words Flashcards.initial
  ∧ (∀ s a, inRange words s → inRange words (Flashcards.step words s a))
  ∧ (∀ acts, inRange words (Flashcards.steps words Flashcards.initial acts))
  ∧ (∀ acts, is_Some (Flashcards.currentWord words
                        (Flashcards.steps words Flashcards.initial acts)))
  ∧ (∀ s, Flashcards.currentIndex (Flashcards.handleNext words s)
          = if decide (Flashcards.currentIndex s < Z.of_nat (length words) - 1)%Z
            then (Flashcards.currentIndex s + 1)%Z
            else Flashcards.currentIndex s)
  ∧ (∀ s, Flashcards.currentIndex (Flashcards.handlePrevious s)
          = if decide (Flashcards.currentIndex s > 0)%Z
            then (Flashcards.currentIndex s - 1)%Z
            else Flashcards.currentIndex s)
  ∧ (∀ s, Flashcards.currentIndex (Flashcards.handleTestReset s) = 0%Z).
Proof.
  intros Hwords.
  assert (inRange words Flashcards.initial) as Hinit.
  { unfold inRange. simpl. destruct words; [done|]. simpl length. lia. }
  split_and!; [done | apply step_keeps_inRange | | | | | done].
  - intros acts. by apply steps_keep_inRange.
  - intros acts.
    pose proof (steps_keep_inRange words acts _ Hinit) as Hr.
    unfold inRange in Hr. unfold Flashcards.currentWord.
    destruct (Z.ltb_spec (Flashcards.currentIndex
                            (Flashcards.steps words Flashcards.initial acts)) 0);
      [lia|].
    apply lookup_lt_is_Some. lia.
  - intros s. unfold Flashcards.handleNext.
    destruct (Z.ltb_spec (Flashcards.currentIndex s) (Z.of_nat (length words) - 1));
      case_decide; simpl; lia.
  - intros s. unfold Flashcards.handlePrevious.
    destruct (Z.gtb_spec (Flashcards.currentIndex s) 0);
      case_decide; simpl; lia.
Qed.

Lemma currentIndex_stays_in_range_witness :
  let words :=
    [ {| Flashcards.id := 1; Flashcards.arabic := Examples.kitab;
         Flashcards.english := str "book" |};
      {| Flashcards.id := 2; Flashcards.arabic := Examples.qalam;
         Flashcards.english := str "pen" |} ] in
  let acts := [ Flashcards.Next; Flashcards.Next; Flashcards.Next;
                Flashcards.Previous; Flashcards.SelectMode Flashcards.test;
                Flashcards.TestReset; Flashcards.Previous ] in
  Flashcards.currentIndex (Flashcards.steps words Flashcards.initial [Flashcards.Next; Flashcards.Next]) = 1%Z
  ∧ inRange words (Flashcards.steps words Flashcards.initial acts)
  ∧ is_Some (Flashcards.currentWord words
               (Flashcards.steps words Flashcards.initial acts)).
Proof.
  intros words acts.
  destruct (currentIndex_stays_in_range words) as (_ & _ & Hr & Hw & _);
    [discriminate|].
  split_and!; [reflexivity | apply Hr | apply Hw].
Defined.

(** ** Flashcards: multiple choice options *)

(** C9. Whatever order the two shuffles leave their arrays in, for every
    word list and every word (of the list or not),
    [generateMultipleChoiceOptions] returns the correct English answer
    together with at most three distractors, so at most four options, and
    every distractor is the [english] field of a word of the list other
    than the current one (a word whose [id] differs). *)
Theorem options_hold_answer_and_distractors
    (rng : Type) (randomSort : rng → list jsstring → list jsstring * rng)
    (words : list Flashcards.VocabularyWord) (word : Flashcards.VocabularyWord)
    (g : rng) :
  (∀ g xs, (randomSort g xs).1 ≡ₚ xs) →
  let options :=
    (Flashcards.generateMultipleChoiceOptions rng randomSort
       (Flashcards.english word) words (Flashcards.id word) g).1 in
  Flashcards.english word ∈ options
  ∧ (length options ≤ 4)%nat
  ∧ ∃ distractors,
      options ≡ₚ Flashcards.english word :: distractors
      ∧ (length distractors ≤ 3)%nat
      ∧ ∀ d, d ∈ distractors →
             ∃ other, other ∈ words
                      ∧ Flashcards.id other ≠ Flashcards.id word
                      ∧ Flashcards.english other = d.
Proof.
  intros Hshuffle. unfold Flashcards.generateMultipleChoiceOptions.
  set (candidates :=
         List.map Flashcards.english
           (List.filter
              (λ w, negb (Flashcards.id w =? Flashcards.id word)%Z) words)).
  pose proof (Hshuffle g candidates) as Hfirst.
  destruct (randomSort g candidates) as [shuffled g1]. simpl in Hfirst.
  pose proof (Hshuffle g1 (Flashcards.english word :: firstn 3 shuffled))
    as Hsecond.
  cbn zeta.
  set (options := (randomSort g1 _).1) in *.
  assert (∀ d, d ∈ firstn 3 shuffled →
               ∃ other, other ∈ words
                        ∧ Flashcards.id other ≠ Flashcards.id word
                        ∧ Flashcards.english other = d) as Hfrom.
  { intros d Hd.
    assert (d ∈ candidates) as Hc.
    { rewrite <- Hfirst. by apply (subseteq_take 3 shuffled). }
    unfold candidates in Hc. apply list_elem_of_In, in_map_iff in Hc
      as (other & <- & Hother).
    apply filter_In in Hother as [Hin Hid].
    exists other. split_and!; [by apply list_elem_of_In | | done].
    apply negb_true_iff, Z.eqb_neq in Hid. done. }
  split_and!.
  - rewrite Hsecond. left.
  - rewrite Hsecond. simpl. rewrite length_take. lia.
  - exists (firstn 3 shuffled). split_and!; [done | | done].
    rewrite length_take. lia.
Qed.

Lemma options_hold_answer_and_distractors_witness :
  let words :=
    [ {| Flashcards.id := 1; Flashcards.arabic := Examples.kitab;
         Flashcards.english := str "book" |};
      {| Flashcards.id := 2; Flashcards.arabic := Examples.qalam;
         Flashcards.english := str "pen" |};
      {| Flashcards.id := 3; Flashcards.arabic := Examples.kitab;
         Flashcards.english := str "door" |} ] in
  let reversing (g : unit) (xs : list jsstring) := (rev xs, g) in
  (Flashcards.generateMultipleChoiceOptions unit reversing
     (str "pen") words 2 tt).1 = [ str "book"; str "door"; str "pen" ]
  ∧ str "pen" ∈ (Flashcards.generateMultipleChoiceOptions unit reversing
                   (str "pen") words 2 tt).1.
Proof.
  intros words reversing.
  split; [reflexivity|].
  refine (proj1 (options_hold_answer_and_distractors unit reversing words
                   {| Flashcards.id := 2; Flashcards.arabic := Examples.qalam;
                      Flashcards.english := str "pen" |} tt _)).
  intros g xs. simpl. symmetry. apply Permutation_rev.
Defined.

(** ** Flashcards: grading the test *)

Lemma size_list_to_set_le (l : list Z) :
  (size (list_to_set l : gset Z) ≤ length l)%nat
  ∧ (¬ NoDup l → (size (list_to_set l : gset Z) < length l)%nat).
Proof.
  induction l as [|x l [IHle IHlt]].
  - rewrite list_to_set_nil, size_empty. split; [done|].
    intros Hdup. destruct Hdup. constructor.
  - rewrite list_to_set_cons. cbn [length].
    destruct (decide (x ∈ l)) as [Hin|Hout].
    + assert (({[x]} ∪ list_to_set l : gset Z) = list_to_set l) as Hsame.
      { apply subseteq_union_1_L, singleton_subseteq_l.
        by apply elem_of_list_to_set. }
      rewrite Hsame. split; [lia|]. intros _. lia.
    + rewrite size_union by set_solver. rewrite size_singleton.
      split; [lia|]. intros Hdup.
      assert (¬ NoDup l) as Hl.
      { intros Hl. apply Hdup. by constructor. }
      apply IHlt in Hl. lia.
Qed.

Section Grading.
Variable words : list Flashcards.VocabularyWord.
Variable answers : gmap Z jsstring.

(** The loop of [handleTestSubmit] builds the map of the (id, verdict)
    pairs, a later word overriding an earlier one of the same id. *)
Lemma gradeAll_snoc ws w :
  Flashcards.gradeAll answers (ws ++ [w])
  = <[Flashcards.id w := Flashcards.isCorrect answers w]>
      (Flashcards.gradeAll answers ws).
Proof. unfold Flashcards.gradeAll. by rewrite foldl_app. Qed.

Lemma gradeAll_list_to_map ws :
  Flashcards.gradeAll answers ws
  = list_to_map
      ((λ w, (Flashcards.id w, Flashcards.isCorrect answers w)) <$> reverse ws).
Proof.
  induction ws as [|w ws IH] using rev_ind; [done|].
  rewrite gradeAll_snoc, IH, reverse_snoc. done.
Qed.

Lemma gradeAll_lookup ws w :
  NoDup (Flashcards.id <$> ws) → w ∈ ws →
  Flashcards.gradeAll answers ws !! Flashcards.id w
  = Some (Flashcards.isCorrect answers w).
Proof.
  induction ws as [|x ws IH] using rev_ind; intros Hnodup Hw.
  { by apply elem_of_nil in Hw. }
  rewrite gradeAll_snoc. rewrite fmap_app in Hnodup.
  apply NoDup_app in Hnodup as (Hws & Hfresh & _).
  apply elem_of_app in Hw as [Hw|Hw].
  - rewrite lookup_insert_ne; [by apply IH|].
    intros Heq. apply (Hfresh (Flashcards.id w)).
    + by apply list_elem_of_fmap_2.
    + rewrite <- Heq. simpl. left.
  - apply list_elem_of_singleton in Hw as ->. apply lookup_insert_eq.
Qed.

Lemma gradeAll_values ws :
  NoDup (Flashcards.id <$> ws) →
  List.map snd (map_to_list (Flashcards.gradeAll answers ws))
  ≡ₚ Flashcards.isCorrect answers <$> ws.
Proof.
  intros Hnodup. rewrite gradeAll_list_to_map.
  rewrite map_to_list_to_map.
  - change (List.map snd ?l) with (snd <$> l).
    rewrite <- list_fmap_compose, fmap_reverse.
    apply reverse_Permutation.
  - rewrite <- list_fmap_compose, fmap_reverse.
    by rewrite reverse_Permutation.
Qed.

Lemma count_true_permutation (xs ys : list bool) :
  xs ≡ₚ ys →
  length (List.filter (λ r : bool, r) xs) = length (List.filter (λ r : bool, r) ys).
Proof.
  induction 1 as [|x xs ys _ IH|x y xs|xs ys zs _ IH1 _ IH2]; simpl.
  - done.
  - destruct x; simpl; lia.
  - destruct x, y; simpl; lia.
  - lia.
Qed.

Lemma count_true_fmap {A} (f g : A → bool) (xs : list A) :
  (∀ x, x ∈ xs → f x = g x) →
  length (List.filter (λ r : bool, r) (f <$> xs))
  = length (filter (λ x, g x = true) xs).
Proof.
  induction xs as [|x xs IH]; intros Hfg; [done|].
  assert (length (List.filter (λ r : bool, r) (f <$> xs))
          = length (filter (λ x, g x = true) xs)) as Hrest
    by (apply IH; intros y Hy; apply Hfg; by right).
  rewrite fmap_cons, filter_cons. cbn [List.filter].
  rewrite (Hfg x) by left.
  destruct (g x); case_decide; try congruence; simpl; by rewrite Hrest.
Qed.

End Grading.

(** Answers given through the form stay keyed by ids of the words. *)
Lemma offered_answers_keyed words acts : ∀ s,
  FlashcardsView.offeredRun words s acts = true →
  (∀ k, is_Some (Flashcards.testAnswers s !! k) → k ∈ Flashcards.id <$> words) →
  ∀ k, is_Some (Flashcards.testAnswers (Flashcards.steps words s acts) !! k) →
       k ∈ Flashcards.id <$> words.
Proof.
  induction acts as [|a acts IH]; intros s Hrun Hkeys; [done|].
  cbn [FlashcardsView.offeredRun] in Hrun.
  apply andb_true_iff in Hrun as [Ha Hrun].
  unfold Flashcards.steps. cbn [foldl].
  apply (IH _ Hrun). clear IH Hrun.
  intros k [x Hk].
  destruct a as [| | |b|m|wordId answer| |]; cbn in Hk.
  - unfold Flashcards.handleNext in Hk.
    destruct (_ <? _)%Z; apply Hkeys; by eexists.
  - unfold Flashcards.handlePrevious in Hk.
    destruct (_ >? _)%Z; apply Hkeys; by eexists.
  - apply Hkeys. by eexists.
  - unfold Flashcards.handleNext in Hk.
    destruct (_ <? _)%Z; apply Hkeys; by eexists.
  - destruct m; cbn in Hk; [apply Hkeys; by eexists..|].
    by rewrite lookup_empty in Hk.
  - cbn in Ha. apply bool_decide_eq_true in Ha.
    destruct (decide (k = wordId)) as [->|Hne]; [done|].
    rewrite lookup_insert_ne in Hk by done. apply Hkeys. by eexists.
  - apply Hkeys. by eexists.
  - by rewrite lookup_empty in Hk.
Qed.

(** With answers keyed by ids of the words, the Submit button is enabled
    only when the ids are pairwise distinct and every word has an answer. *)
Lemma enabled_submit_answers words (s : Flashcards.state) :
  (∀ k, is_Some (Flashcards.testAnswers s !! k) → k ∈ Flashcards.id <$> words) →
  FlashcardsView.submitDisabled words s = false →
  NoDup (Flashcards.id <$> words)
  ∧ ∀ w, w ∈ words → is_Some (Flashcards.testAnswers s !! Flashcards.id w).
Proof.
  intros Hkeys Henabled. unfold FlashcardsView.submitDisabled in Henabled.
  apply Nat.ltb_ge in Henabled.
  set (answers := Flashcards.testAnswers s) in *.
  set (ids := list_to_set (Flashcards.id <$> words) : gset Z).
  assert (dom answers ⊆ ids) as Hsub.
  { intros k Hk. apply elem_of_dom in Hk. apply elem_of_list_to_set. auto. }
  pose proof (subseteq_size _ _ Hsub) as Hle. rewrite size_dom in Hle.
  destruct (size_list_to_set_le (Flashcards.id <$> words)) as [Hids Hdup].
  rewrite length_fmap in Hids, Hdup. fold ids in Hids, Hdup.
  assert (NoDup (Flashcards.id <$> words)) as Hnodup.
  { destruct (decide (NoDup (Flashcards.id <$> words))) as [|Hno]; [done|].
    apply Hdup in Hno. lia. }
  split; [done|].
  intros w Hw. apply elem_of_dom.
  assert (dom answers = ids) as ->.
  { apply set_subseteq_size_eq; [done|]. rewrite size_dom. lia. }
  apply elem_of_list_to_set. by apply list_elem_of_fmap_2.
Qed.

Lemma offeredRun_app words acts1 acts2 : ∀ s,
  FlashcardsView.offeredRun words s (acts1 ++ acts2)
  = FlashcardsView.offeredRun words s acts1
    && FlashcardsView.offeredRun words (Flashcards.steps words s acts1) acts2.
Proof.
  induction acts1 as [|a acts1 IH]; intros s; [done|].
  cbn [app FlashcardsView.offeredRun]. rewrite IH, andb_assoc. done.
Qed.

(** C6. The component starts in its initial state, the user does what the
    page offers, and at some point presses Submit, which the page lets
    them do only while the button is enabled. Then every word of the list
    had an answer selected, a word is marked correct exactly when that
    answer, trimmed, is equal to the word's [english] field, and the score
    shown is the number of words marked correct, out of the number of
    words. (Submit being enabled only when every word has an answer, no
    word is unanswered when the test is graded.) *)
Theorem test_marks_and_score
    (words : list Flashcards.VocabularyWord)
    (acts : list Flashcards.action) :
  FlashcardsView.offeredRun words Flashcards.initial
    (acts ++ [Flashcards.TestSubmit]) = true →
  let s := Flashcards.steps words Flashcards.initial acts in
  let s' :=
    Flashcards.steps words Flashcards.initial (acts ++ [Flashcards.TestSubmit]) in
  (∀ w, w ∈ words →
        ∃ a, Flashcards.testAnswers s !! Flashcards.id w = Some a
             ∧ (Flashcards.markedCorrect s' w = true
                ↔ trim a = Flashcards.english w))
  ∧ Flashcards.correctCount s'
    = length (filter (λ w, Flashcards.markedCorrect s' w = true) words)
  ∧ Flashcards.totalWords words = length words.
Proof.
  intros Hrun s s'.
  rewrite offeredRun_app in Hrun. apply andb_true_iff in Hrun as [Hrun Hsubmit].
  fold s in Hsubmit.
  cbn [FlashcardsView.offeredRun FlashcardsView.offered] in Hsubmit.
  rewrite andb_true_r in Hsubmit.
  apply negb_true_iff in Hsubmit.
  assert (∀ k, is_Some (Flashcards.testAnswers s !! k) →
               k ∈ Flashcards.id <$> words) as Hkeys.
  { apply (offered_answers_keyed words acts _ Hrun).
    intros k [x Hk]. cbn in Hk. by rewrite lookup_empty in Hk. }
  destruct (enabled_submit_answers words s Hkeys Hsubmit) as [Hnodup Hall].
  assert (s' = Flashcards.handleTestSubmit words s) as ->.
  { unfold s', s, Flashcards.steps. by rewrite foldl_app. }
  assert (∀ w, w ∈ words →
               Flashcards.markedCorrect (Flashcards.handleTestSubmit words s) w
               = Flashcards.isCorrect (Flashcards.testAnswers s) w) as Hmark.
  { intros w Hw. unfold Flashcards.markedCorrect. simpl.
    by rewrite gradeAll_lookup. }
  split_and!.
  - intros w Hw. destruct (Hall w Hw) as [a Ha]. exists a. split; [done|].
    rewrite (Hmark w Hw). unfold Flashcards.isCorrect, Flashcards.answerOf.
    by rewrite Ha, bool_decide_eq_true.
  - unfold Flashcards.correctCount. simpl.
    rewrite (count_true_permutation _ _
               (gradeAll_values (Flashcards.testAnswers s) words Hnodup)).
    apply count_true_fmap. intros w Hw. symmetry. by apply Hmark.
  - done.
Qed.

Lemma test_marks_and_score_witness :
  let book := {| Flashcards.id := 1; Flashcards.arabic := Examples.kitab;
                 Flashcards.english := str "book" |} in
  let pen := {| Flashcards.id := 2; Flashcards.arabic := Examples.qalam;
                Flashcards.english := str "pen" |} in
  let acts := [ Flashcards.SelectMode Flashcards.test;
                Flashcards.TestAnswer 1 (str "pen");
                Flashcards.TestAnswer 2 (str " pen") ] in
  let s' := Flashcards.steps [book; pen] Flashcards.initial
              (acts ++ [Flashcards.TestSubmit]) in
  Flashcards.markedCorrect s' book = false
  ∧ Flashcards.markedCorrect s' pen = true
  ∧ Flashcards.correctCount s'
    = length (filter (λ w, Flashcards.markedCorrect s' w = true) [book; pen])
  ∧ Flashcards.correctCount s' = 1%nat.
Proof.
  intros book pen acts s'.
  destruct (test_marks_and_score [book; pen] acts) as (_ & Hscore & _).
  { vm_compute. reflexivity. }
  split_and!; [reflexivity | reflexivity | exact Hscore | reflexivity].
Defined.

(** ** Play All *)

Lemma insertByOrder_Permutation s l :
  ConversationDisplay.insertByOrder s l ≡ₚ s :: l.
Proof.
  induction l as [|t l IH]; simpl; [done|].
  destruct (ConversationDisplay.order s <=? ConversationDisplay.order t)%Z;
    [done|].
  rewrite IH. apply perm_swap.
Qed.

Lemma sortByOrder_Permutation l : ConversationDisplay.sortByOrder l ≡ₚ l.
Proof.
  unfold ConversationDisplay.sortByOrder.
  induction l as [|s l IH]; simpl; [done|].
  by rewrite insertByOrder_Permutation, IH.
Qed.

Lemma insertByOrder_sorted s l :
  StronglySorted byOrder l →
  StronglySorted byOrder (ConversationDisplay.insertByOrder s l).
Proof.
  induction 1 as [|t l Hsorted IH Hall]; simpl.
  - repeat constructor.
  - destruct (Z.leb_spec (ConversationDisplay.order s)
                         (ConversationDisplay.order t)) as [Hle|Hlt].
    + constructor; [by constructor|].
      constructor; [done|].
      eapply Forall_impl; [exact Hall|].
      unfold byOrder. intros x Hx. simpl in Hx. lia.
    + constructor; [done|].
      rewrite insertByOrder_Permutation. constructor; [|done].
      unfold byOrder. lia.
Qed.

Example sortByOrder_is_stable :
  let row (i o : Z) :=
                 {| ConversationDisplay.id := i; ConversationDisplay.arabic := [];
                    ConversationDisplay.english := None;
                    ConversationDisplay.order := o |} in
  ConversationDisplay.sortByOrder
    [row 1 2; row 2 0; row 3 2; row 4 0]%Z
  = [row 2 0; row 4 0; row 1 2; row 3 2]%Z.
Proof. reflexivity. Qed.

Lemma sortByOrder_sorted l :
  StronglySorted byOrder (ConversationDisplay.sortByOrder l).
Proof.
  unfold ConversationDisplay.sortByOrder.
  induction l as [|s l IH]; simpl; [constructor|].
  by apply insertByOrder_sorted.
Qed.

Lemma StronglySorted_filter {A} (R : A → A → Prop) (P : A → Prop)
    `{!∀ x, Decision (P x)} l :
  StronglySorted R l → StronglySorted R (filter P l).
Proof.
  induction 1 as [|x l Hsorted IH Hall]; [constructor|].
  rewrite filter_cons. case_decide; [|done].
  constructor; [done|].
  rewrite Forall_forall in Hall |- *. intros y Hy.
  apply list_elem_of_filter in Hy as [_ Hy]. by apply Hall.
Qed.

Lemma trim_nil : trim [] = [].
Proof. reflexivity. Qed.

(** The filter of [handlePlayAll] keeps the sentences whose text in the
    selected language is not empty once trimmed. *)
Lemma playable_spec lang s :
  ConversationDisplay.playable lang s = true
  ↔ trim (ConversationDisplay.textOf lang s) ≠ [].
Proof.
  unfold ConversationDisplay.playable, ConversationDisplay.textOf.
  destruct lang.
  - rewrite andb_true_iff, !nonEmpty_true. split; [tauto|].
    intros Ht. split; [|done]. intros Ha. by rewrite Ha in Ht.
  - destruct (ConversationDisplay.english s) as [e|]; simpl.
    + rewrite andb_true_iff, !nonEmpty_true. split; [tauto|].
      intros Ht. split; [|done]. intros He. by rewrite He in Ht.
    + split; [done|]. by rewrite trim_nil.
Qed.

Lemma list_filter_playable lang l :
  List.filter (ConversationDisplay.playable lang) l
  = filter (λ s, trim (ConversationDisplay.textOf lang s) ≠ []) l.
Proof.
  induction l as [|s l IH]; [done|].
  rewrite filter_cons. simpl. rewrite IH.
  destruct (ConversationDisplay.playable lang s) eqn:Hs.
  - apply playable_spec in Hs. by rewrite decide_True.
  - rewrite decide_False; [done|].
    rewrite <- playable_spec. congruence.
Qed.

Section PlayAllRun.
Variable lang : ConversationDisplay.Language.
Variable queue : list ConversationDisplay.ConversationSentence.
Variable parked : option ConversationDisplay.utterance.
Variable before : list ConversationDisplay.speechEvent.

Local Notation said := (said lang).
Local Notation speakingState := (speakingState lang queue parked before).
Local Notation finishedState := (finishedState lang queue parked before).

(** The utterance ends and the timer fires: the next sentence is being
    spoken, or the run is over. *)
Lemma two_ticks fuel done s rest :
  queue = done ++ s :: rest →
  ConversationDisplay.settle (S (S fuel)) (speakingState done s)
  = ConversationDisplay.settle fuel
      match rest with
      | [] => finishedState
      | s' :: _ => speakingState (done ++ [s]) s'
      end.
Proof.
  intros Hqueue.
  assert (queue !! S (length done) = head rest) as Hnext.
  { rewrite Hqueue, lookup_app_r by lia.
    replace (S (length done) - length done)%nat with 1%nat by lia.
    by destruct rest. }
  cbn [ConversationDisplay.settle].
  unfold ConversationDisplay.tick, ConversationDisplay.utteranceEnded,
    ConversationDisplay.timerFired,
    ConversationDisplay.playSentenceSequentially.
  cbn -[ConversationDisplay.settle]. rewrite Hnext.
  destruct rest as [|s' rest']; cbn -[ConversationDisplay.settle].
  - f_equal. unfold finishedState, ConversationDisplay.idlePlayer.
    assert (concat (said <$> queue)
            = concat (said <$> done)
              ++ [ ConversationDisplay.Spoke (ConversationDisplay.textOf lang s)
                                             (ConversationDisplay.langOf lang);
                   ConversationDisplay.Ended (ConversationDisplay.textOf lang s) ])
      as ->.
    { rewrite Hqueue, fmap_app, concat_app. done. }
    by rewrite <- !app_assoc.
  - f_equal. unfold speakingState.
    assert (length (done ++ [s]) = S (length done)) as ->
      by (rewrite length_app; simpl; lia).
    assert (concat (said <$> done ++ [s])
            = concat (said <$> done)
              ++ [ ConversationDisplay.Spoke (ConversationDisplay.textOf lang s)
                                             (ConversationDisplay.langOf lang);
                   ConversationDisplay.Ended (ConversationDisplay.textOf lang s) ])
      as ->.
    { rewrite fmap_app, concat_app. done. }
    unfold ConversationDisplay.speak. cbn. by rewrite <- !app_assoc.
Qed.

Lemma settle_finished fuel :
  ConversationDisplay.settle fuel finishedState = Some finishedState.
Proof. by destruct fuel. Qed.

Lemma settle_speaking rest :
  ∀ done s fuel,
    queue = done ++ s :: rest →
    (2 * S (length rest) ≤ fuel)%nat →
    ConversationDisplay.settle fuel (speakingState done s) = Some finishedState.
Proof.
  induction rest as [|s' rest IH]; intros done s fuel Hqueue Hfuel.
  - destruct fuel as [|[|fuel]]; simpl in Hfuel; [lia..|].
    rewrite (two_ticks fuel done s []) by done. apply settle_finished.
  - destruct fuel as [|[|fuel]]; simpl in Hfuel; [lia..|].
    rewrite (two_ticks fuel done s (s' :: rest)) by done.
    apply IH; [|simpl; lia]. by rewrite <- app_assoc.
Qed.

End PlayAllRun.

(** C7. A Play All run, started while nothing is playing in a browser that
    has speech synthesis and voices, and then left alone: with [played] the
    sentences whose text in the selected language is not empty once
    trimmed, taken in ascending [order], the run hands exactly the texts of
    [played] to the speech synthesis, in that order, each one only after
    the one before it has ended, and after the last one it is over: nothing
    is speaking, no timer is pending, and [isPlayingAll] is false. A
    sentence whose text is empty is not in [played], so it is never
    spoken. *)
Theorem play_all_speaks_playable_in_order
    (sentences : list ConversationDisplay.ConversationSentence)
    (st : ConversationDisplay.state) (fuel : nat) :
  ConversationDisplay.isPlayingAll (ConversationDisplay.play st) = false →
  ConversationDisplay.timeoutRef (ConversationDisplay.play st) = None →
  ConversationDisplay.speaking (ConversationDisplay.synth st) = None →
  ConversationDisplay.supported (ConversationDisplay.synth st) = true →
  ConversationDisplay.voicesLoaded (ConversationDisplay.synth st) = true →
  (2 * length sentences ≤ fuel)%nat →
  let lang := ConversationDisplay.selectedLanguage st in
  let hasText s := trim (ConversationDisplay.textOf lang s) ≠ [] in
  let played := filter hasText (ConversationDisplay.sortByOrder sentences) in
  (∃ final,
     ConversationDisplay.playAllRun sentences fuel st = Some final
     ∧ ConversationDisplay.speechLog (ConversationDisplay.synth final)
       = ConversationDisplay.speechLog (ConversationDisplay.synth st)
         ++ concat (said lang <$> played)
     ∧ ConversationDisplay.isPlayingAll (ConversationDisplay.play final) = false
     ∧ ConversationDisplay.speaking (ConversationDisplay.synth final) = None
     ∧ ConversationDisplay.timeoutRef (ConversationDisplay.play final) = None)
  ∧ StronglySorted byOrder played
  ∧ played ≡ₚ filter hasText sentences
  ∧ (∀ s, s ∈ played ↔ s ∈ sentences ∧ hasText s).
Proof.
  intros Hidle Htimer Hquiet Hsupported Hvoices Hfuel lang hasText played.
  assert (played ≡ₚ filter hasText sentences) as Hperm
    by (unfold played; by rewrite sortByOrder_Permutation).
  split_and!.
  - destruct st as [lang0 [pid playing index ids continue timer]
                          [sup voices spk parked log]].
    simpl in *. subst playing timer spk sup voices.
    unfold ConversationDisplay.playAllRun, ConversationDisplay.handlePlayAll.
    simpl. unfold ConversationDisplay.sortedSentences.
    rewrite list_filter_playable.
    subst played hasText lang. simpl in *.
    destruct (filter _ (ConversationDisplay.sortByOrder sentences))
      as [|s rest] eqn:Hplayed.
    + eexists. split; [by destruct fuel|]. simpl. by rewrite app_nil_r.
    + exists (finishedState lang0 (s :: rest) parked log).
      split; [|done].
      apply (settle_speaking lang0 (s :: rest) parked log rest [] s fuel);
        [done|].
      apply Permutation_length in Hperm.
      pose proof (length_filter
                    (λ s, trim (ConversationDisplay.textOf lang0 s) ≠ [])
                    sentences) as Hle.
      simpl in Hperm. lia.
  - apply StronglySorted_filter, sortByOrder_sorted.
  - done.
  - intros s. rewrite Hperm, list_elem_of_filter. tauto.
Qed.

Lemma play_all_speaks_playable_in_order_witness :
  let salam := [1587; 1604; 1575; 1605]%N in
  let first := {| ConversationDisplay.id := 11;
                  ConversationDisplay.arabic := salam;
                  ConversationDisplay.english := Some (str "Peace");
                  ConversationDisplay.order := 0 |} in
  let silent := {| ConversationDisplay.id := 12;
                   ConversationDisplay.arabic := str "  ";
                   ConversationDisplay.english := None;
                   ConversationDisplay.order := 1 |} in
  let last := {| ConversationDisplay.id := 13;
                 ConversationDisplay.arabic := Examples.kitab;
                 ConversationDisplay.english := Some (str "A book");
                 ConversationDisplay.order := 2 |} in
  let browser := {| ConversationDisplay.supported := true;
                    ConversationDisplay.voicesLoaded := true;
                    ConversationDisplay.speaking := None;
                    ConversationDisplay.onvoiceschanged := None;
                    ConversationDisplay.speechLog := [] |} in
  let st := ConversationDisplay.initial ConversationDisplay.arabic_ browser in
  ∃ final,
    ConversationDisplay.playAllRun [last; silent; first] 6 st = Some final
    ∧ ConversationDisplay.speechLog (ConversationDisplay.synth final)
      = [ ConversationDisplay.Spoke salam (str "ar-SA");
          ConversationDisplay.Ended salam;
          ConversationDisplay.Spoke Examples.kitab (str "ar-SA");
          ConversationDisplay.Ended Examples.kitab ].
Proof.
  intros salam first silent last browser st.
  destruct (play_all_speaks_playable_in_order [last; silent; first] st 6)
    as [(final & Hrun & Hlog & _) _]; try reflexivity.
  exists final. split; [exact Hrun|].
  rewrite Hlog. reflexivity.
Defined.

(* ===================================================================== *)
(** * Further properties of the extraction handlers *)
(* ===================================================================== *)

Section Answers.
Context `{Runtime}.

Lemma vocabulary_respond_answered response existing model r :
  Vocabulary.respond response existing model = Ok r →
  answered [400; 401; 500]%Z r.
Proof.
  unfold Vocabulary.respond.
  destruct (resp_ok response); simpl; [|done].
  destruct (resp_json response) as [data|]; simpl; [|done].
  destruct (replyContent data) as [content|]; simpl; [|done].
  destruct (Vocabulary.parseBlock _ _ _) as [vars|].
  - destruct (getProp data (str "model")); simpl; [|done]. by intros [= <-].
  - by intros [= <-].
Qed.

Lemma conversation_respond_answered response existing model r :
  Conversation.respond response existing model = Ok r →
  answered [400; 401; 404; 500]%Z r.
Proof.
  unfold Conversation.respond.
  destruct (resp_ok response); simpl; [|done].
  destruct (resp_json response) as [data|]; simpl; [|done].
  destruct (replyContent data) as [content|]; simpl; [|done].
  destruct (Conversation.parseBlock _ _ _) as [vars|].
  - destruct (getProp data (str "model")); simpl; [|done]. by intros [= <-].
  - by intros [= <-].
Qed.

End Answers.

(** Closes a goal [∃ r, Ok x = Ok r ∧ answered errors r] on an error
    response. *)
Ltac error_answer :=
  simpl; eexists; split; [reflexivity|];
  unfold answered; simpl; rewrite !elem_of_cons; tauto.

(** X1. Whatever the environment answers or throws, each extraction
    handler returns a response and lets no exception escape: the outer
    [catch] turns every one into a 500. The status goes with the body: 200
    with the success body, 500 with the parse failure, and 400, 401 or 500
    (also 404 for the conversation handler) with an error message. *)
Theorem handlers_always_answer `{Runtime} (env : environment event) :
  (∃ r, fst (run env Vocabulary.POST) = Ok r ∧ answered [400; 401; 500]%Z r)
  ∧ (∃ r, fst (run env Conversation.POST) = Ok r
          ∧ answered [400; 401; 404; 500]%Z r).
Proof.
  split.
  - unfold Vocabulary.POST. cbn [run].
    destruct (env _ RequireAdmin) as [[]|e]; [|error_answer].
    rewrite run_tryCatch. unfold Vocabulary.handle.
    rewrite run_bind, run_await.
    destruct (env _ RequestFormData) as [fd|e]; [|error_answer].
    destruct (image fd) as [upload|]; [|error_answer].
    destruct (startsWith (str "image/") (file_type upload)); [|error_answer].
    cbn [negb]. rewrite run_bind, run_await.
    destruct (env _ GetOpenRouterConfig) as [c|e]; [|error_answer].
    destruct (configured c) as [[cfg key]|]; [|error_answer].
    rewrite run_bind, run_callOpenRouter. cbn zeta.
    destruct (env _ (Fetch _ _)) as [response|e]; [|error_answer].
    rewrite run_lift.
    destruct (Vocabulary.respond _ _ _) as [r|e] eqn:Hr; [|error_answer].
    simpl. exists r. split; [done|].
    by apply vocabulary_respond_answered in Hr.
  - unfold Conversation.POST. cbn [run].
    destruct (env _ RequireAdmin) as [[]|e]; [|error_answer].
    rewrite run_tryCatch. unfold Conversation.handle.
    rewrite run_bind, run_await.
    destruct (env _ RequestFormData) as [fd|e]; [|error_answer].
    destruct (image fd) as [upload|]; [|error_answer].
    destruct (nonEmpty (default [] (formGet (entries fd) (str "lessonId"))));
      [|error_answer].
    cbn [negb].
    destruct (parseInt (default [] (formGet (entries fd) (str "lessonId"))))
      as [lessonId|]; [|error_answer].
    destruct (startsWith (str "image/") (file_type upload)); [|error_answer].
    cbn [negb]. rewrite run_bind, run_await.
    destruct (env _ (SelectLessonById lessonId)) as [rows|e]; [|error_answer].
    destruct (head rows) as [lesson|]; [|error_answer].
    rewrite run_bind.
    destruct (run env (Conversation.loadVocabularyContext (lesson_unitId lesson)))
      as [[vocabularyContext|e] t0]; [|error_answer].
    unfold Conversation.extract. rewrite run_bind, run_await.
    destruct (env _ GetOpenRouterConfig) as [c|e]; [|error_answer].
    destruct (configured c) as [[cfg key]|]; [|error_answer].
    rewrite run_bind, run_callOpenRouter. cbn zeta.
    destruct (env _ (Fetch _ _)) as [response|e]; [|error_answer].
    rewrite run_lift.
    destruct (Conversation.respond _ _ _) as [r|e] eqn:Hr; [|error_answer].
    simpl. exists r. split; [done|].
    by apply conversation_respond_answered in Hr.
Qed.

(** X2. The vocabulary handler checks the upload before anything else: a
    form without an image is answered 400 "No image file provided", and a
    file whose MIME type does not start with [image/] is answered 400 "File
    must be an image"; in both cases the handler has only checked the
    admin and read the form: no configuration is read and no request is
    sent. *)
Theorem vocabulary_rejects_bad_upload `{Runtime}
    (env : environment event) (form : formData) :
  env _ RequireAdmin = Ok () →
  env _ RequestFormData = Ok form →
  let sofar : list (sigT event) :=
    [ existT _ RequireAdmin; existT _ RequestFormData ] in
  (image form = None →
   run env Vocabulary.POST
   = (Ok {| status := 400;
            resp_body := ErrorBody (str "No image file provided") |}, sofar))
  ∧ (∀ upload,
       image form = Some upload →
       startsWith (str "image/") (file_type upload) = false →
       run env Vocabulary.POST
       = (Ok {| status := 400;
                resp_body := ErrorBody (str "File must be an image") |}, sofar)).
Proof.
  intros Hadmin Hform sofar. unfold Vocabulary.POST. cbn [run].
  rewrite Hadmin, run_tryCatch. unfold Vocabulary.handle.
  rewrite run_bind, run_await, Hform.
  split.
  - intros ->. reflexivity.
  - intros upload -> ->. reflexivity.
Qed.

Lemma vocabulary_rejects_bad_upload_witness :
  let pdf := {| image := Some {| file_type := str "application/pdf";
                                 file_bytes := [] |};
                entries := [] |} in
  fst (run (Examples.apiEnv (Ok ()) pdf []) (@Vocabulary.POST Examples.runtime))
  = Ok {| status := 400; resp_body := ErrorBody (str "File must be an image") |}
  ∧ fst (run (Examples.apiEnv (Ok ()) {| image := None; entries := [] |} [])
             (@Vocabulary.POST Examples.runtime))
    = Ok {| status := 400;
            resp_body := ErrorBody (str "No image file provided") |}.
Proof.
  intros pdf. split.
  - destruct (@vocabulary_rejects_bad_upload Examples.runtime
                (Examples.apiEnv (Ok ()) pdf []) pdf eq_refl eq_refl)
      as [_ Htype].
    by rewrite (Htype _ eq_refl eq_refl).
  - destruct (@vocabulary_rejects_bad_upload Examples.runtime
                (Examples.apiEnv (Ok ()) {| image := None; entries := [] |} [])
                {| image := None; entries := [] |} eq_refl eq_refl)
      as [Hnone _].
    by rewrite (Hnone eq_refl).
Defined.

(** X3. The conversation handler checks, in this order: the image, the
    presence of [lessonId], that [lessonId] is a number, and only then the
    MIME type of the file; so a form with a file that is not an image and
    without a lesson id is answered "Lesson ID is required". Each of these
    is a 400 returned before any query. A lesson id that matches no lesson
    is answered 404 "Lesson not found" after that one query, without
    reading the configuration or sending a request. *)
Theorem conversation_checks_in_order `{Runtime}
    (env : environment event) (form : formData) (upload : file) :
  env _ RequireAdmin = Ok () →
  env _ RequestFormData = Ok form →
  image form = Some upload →
  let lessonIdStr := default [] (formGet (entries form) (str "lessonId")) in
  let sofar : list (sigT event) :=
    [ existT _ RequireAdmin; existT _ RequestFormData ] in
  let bad message : nextResponse Conversation.sentence :=
    {| status := 400; resp_body := ErrorBody message |} in
  (lessonIdStr = [] →
   run env Conversation.POST = (Ok (bad (str "Lesson ID is required")), sofar))
  ∧ (lessonIdStr ≠ [] → parseInt lessonIdStr = None →
     run env Conversation.POST = (Ok (bad (str "Invalid lesson ID")), sofar))
  ∧ (∀ lessonId,
       lessonIdStr ≠ [] → parseInt lessonIdStr = Some lessonId →
       (startsWith (str "image/") (file_type upload) = false →
        run env Conversation.POST
        = (Ok (bad (str "File must be an image")), sofar))
       ∧ (startsWith (str "image/") (file_type upload) = true →
          env _ (SelectLessonById lessonId) = Ok [] →
          run env Conversation.POST
          = (Ok {| status := 404;
                   resp_body := ErrorBody (str "Lesson not found") |},
             sofar ++ [existT _ (SelectLessonById lessonId)]))).
Proof.
  intros Hadmin Hform Himage lessonIdStr sofar bad.
  unfold Conversation.POST. cbn [run].
  rewrite Hadmin, run_tryCatch. unfold Conversation.handle.
  rewrite run_bind, run_await, Hform, Himage.
  fold lessonIdStr.
  split_and!.
  - intros ->. reflexivity.
  - intros Hne ->. destruct lessonIdStr; [done|]. reflexivity.
  - intros lessonId Hne ->. destruct lessonIdStr as [|c rest]; [done|].
    cbn [nonEmpty negb]. split.
    + intros ->. reflexivity.
    + intros -> Hrows. cbn [negb].
      rewrite run_bind, run_await, Hrows. reflexivity.
Qed.

Lemma conversation_checks_in_order_witness :
  let pdf := {| file_type := str "application/pdf"; file_bytes := [] |} in
  let form := {| image := Some pdf; entries := [] |} in
  fst (run (Examples.apiEnv (Ok ()) form []) (@Conversation.POST Examples.runtime))
  = Ok {| status := 400; resp_body := ErrorBody (str "Lesson ID is required") |}.
Proof.
  intros pdf form.
  destruct (@conversation_checks_in_order Examples.runtime
              (Examples.apiEnv (Ok ()) form []) form pdf eq_refl eq_refl eq_refl)
    as [Hmissing _].
  by rewrite (Hmissing eq_refl).
Defined.

(** X4. Without an API key (the configuration is missing, has no key or an
    empty one, or cannot be read) neither handler sends a request: the run
    ends with an error message and no [fetch]. When the vocabulary handler
    gets as far as reading a configuration without a key, it answers 500
    "OpenRouter API key not configured". *)
Theorem no_request_without_key `{Runtime} (env : environment event) :
  (∀ c, env _ GetOpenRouterConfig = Ok c → configured c = None) →
  (fetchCalls (snd (run env Vocabulary.POST)) = []
   ∧ ∃ msg st, fst (run env Vocabulary.POST) = Ok (jsonResponse (ErrorBody msg) st))
  ∧ (fetchCalls (snd (run env Conversation.POST)) = []
     ∧ ∃ msg st,
         fst (run env Conversation.POST) = Ok (jsonResponse (ErrorBody msg) st))
  ∧ (∀ form upload c,
       env _ RequireAdmin = Ok () →
       env _ RequestFormData = Ok form →
       image form = Some upload →
       startsWith (str "image/") (file_type upload) = true →
       env _ GetOpenRouterConfig = Ok c →
       run env Vocabulary.POST
       = (Ok {| status := 500;
                resp_body := ErrorBody (str "OpenRouter API key not configured") |},
          [ existT _ RequireAdmin; existT _ RequestFormData;
            existT _ GetOpenRouterConfig ])).
Proof.
  intros Hnokey. split; [|split].
  - destruct (vocabulary_run env)
      as [(msg & st & Hr & Hnone)
         |(fd & upload & c & cfg & key & _ & _ & Hc & Hcfg & _)].
    + split; [exact Hnone|]. by exists msg, st.
    + rewrite (Hnokey c Hc) in Hcfg. done.
  - destruct (conversation_run env)
      as [(msg & st & Hr & Hnone)
         |(fd & upload & c & cfg & key & ctx & _ & _ & Hc & Hcfg & _)].
    + split; [exact Hnone|]. by exists msg, st.
    + rewrite (Hnokey c Hc) in Hcfg. done.
  - intros form upload c Hadmin Hform Himage Htype Hc.
    unfold Vocabulary.POST. cbn [run].
    rewrite Hadmin, run_tryCatch. unfold Vocabulary.handle.
    rewrite run_bind, run_await, Hform, Himage, Htype. cbn [negb].
    rewrite run_bind, run_await, Hc, (Hnokey c Hc). reflexivity.
Qed.

Lemma no_request_without_key_witness :
  let env := Scenarios.env (Scenarios.form []) Scenarios.withoutKey
               (Ok (Examples.reply (str "[]"))) [Scenarios.lesson7] in
  fst (run env (@Vocabulary.POST Examples.runtime))
  = Ok {| status := 500;
          resp_body := ErrorBody (str "OpenRouter API key not configured") |}
  ∧ fetchCalls (snd (run env (@Conversation.POST Examples.runtime))) = [].
Proof.
  intros env.
  destruct (@no_request_without_key Examples.runtime env)
    as (_ & [Hnone _] & Hmsg).
  { intros c [= <-]. reflexivity. }
  split; [|exact Hnone].
  by rewrite (Hmsg (Scenarios.form []) Scenarios.upload _
                eq_refl eq_refl eq_refl eq_refl eq_refl).
Defined.

(** ** When the API fails *)

Section UpstreamFailures.
Context `{Runtime}.

(** The message of the error thrown for an answer that is not OK. *)
Lemma apiFailure_message response fields efields m :
  resp_json response = Ok (JObj fields) →
  ownProperty (str "error") fields = Some (JObj efields) →
  ownProperty (str "message") efields = Some (JStr m) →
  m ≠ [] →
  apiFailure response = Error m.
Proof.
  intros Hjson Herror Hmessage Hm. unfold apiFailure.
  rewrite Hjson. simpl. rewrite Herror. simpl. rewrite Hmessage. simpl.
  by destruct m.
Qed.

Lemma apiFailure_fallback response :
  (∃ e, resp_json response = Throw e)
  ∨ (∃ fields, resp_json response = Ok (JObj fields)
               ∧ ownProperty (str "error") fields = None) →
  apiFailure response
  = Error (str "OpenRouter API error: " ++ str (pretty (resp_status response))
           ++ str " " ++ resp_statusText response).
Proof.
  intros [[e Hjson]|(fields & Hjson & Herror)]; unfold apiFailure;
    rewrite Hjson; simpl; [done|]. by rewrite Herror.
Qed.

End UpstreamFailures.

(** X5. A failure of the API call is answered with status 500 and a
    message. When the API's answer is not OK (status outside 200..299), the
    message is the non-empty [error.message] of its JSON body; when the body
    cannot be read, or has no [error], it is "OpenRouter API error: " with
    the status and the status text. When the [fetch] itself rejects with an
    [Error], the message is that error's. This holds for both handlers. *)
Theorem upstream_failure_is_reported `{Runtime} (env : environment event)
    (url : jsstring) (init : fetchInit) :
  let failed {entry} (program : prog event (nextResponse entry)) m :=
    fst (run env program) = Ok {| status := 500; resp_body := ErrorBody m |} in
  let reported {entry} (program : prog event (nextResponse entry)) :=
    (∀ response,
        env _ (Fetch url init) = Ok response →
        resp_ok response = false →
        (∀ fields efields m,
            resp_json response = Ok (JObj fields) →
            ownProperty (str "error") fields = Some (JObj efields) →
            ownProperty (str "message") efields = Some (JStr m) →
            m ≠ [] →
            failed program m)
        ∧ ((∃ e, resp_json response = Throw e)
           ∨ (∃ fields, resp_json response = Ok (JObj fields)
                        ∧ ownProperty (str "error") fields = None) →
           failed program
             (str "OpenRouter API error: " ++ str (pretty (resp_status response))
              ++ str " " ++ resp_statusText response)))
    ∧ (∀ m, env _ (Fetch url init) = Throw (Error m) → failed program m) in
  ((url, init) ∈ fetchCalls (snd (run env Vocabulary.POST)) →
   reported Vocabulary.POST)
  ∧ ((url, init) ∈ fetchCalls (snd (run env Conversation.POST)) →
     reported Conversation.POST).
Proof.
  intros failed reported. subst failed reported. cbn beta. split; intros Hcall.
  - destruct (vocabulary_run env)
      as [(msg & st & _ & Hnone)
         |(fd & upload & c & cfg & key & _ & _ & _ & _ & Hcalls & Hres)].
    { rewrite Hnone in Hcall. by apply elem_of_nil in Hcall. }
    rewrite Hcalls in Hcall. apply list_elem_of_singleton in Hcall.
    injection Hcall as -> ->. rewrite Hres. split.
    + intros response -> Hok. simpl. unfold Vocabulary.respond.
      rewrite Hok. simpl. split.
      * intros fields efields m Hjson Herror Hmessage Hm.
        by rewrite (apiFailure_message _ _ _ _ Hjson Herror Hmessage Hm).
      * intros Hbody. by rewrite (apiFailure_fallback _ Hbody).
    + by intros m ->.
  - destruct (conversation_run env)
      as [(msg & st & _ & Hnone)
         |(fd & upload & c & cfg & key & ctx & _ & _ & _ & _ & Hcalls & Hres)].
    { rewrite Hnone in Hcall. by apply elem_of_nil in Hcall. }
    rewrite Hcalls in Hcall. apply list_elem_of_singleton in Hcall.
    injection Hcall as -> ->. rewrite Hres. split.
    + intros response -> Hok. simpl. unfold Conversation.respond.
      rewrite Hok. simpl. split.
      * intros fields efields m Hjson Herror Hmessage Hm.
        by rewrite (apiFailure_message _ _ _ _ Hjson Herror Hmessage Hm).
      * intros Hbody. by rewrite (apiFailure_fallback _ Hbody).
    + by intros m ->.
Qed.

Lemma upstream_failure_is_reported_witness :
  let answer :=
    Scenarios.apiError 429 (str "Too Many Requests") (str "Rate limit exceeded") in
  let env := Scenarios.env (Scenarios.form []) Scenarios.withKey (Ok answer)
               [Scenarios.lesson7] in
  fst (run env (@Vocabulary.POST Examples.runtime))
  = Ok {| status := 500; resp_body := ErrorBody (str "Rate limit exceeded") |}.
Proof.
  intros answer env.
  pose (init := @vocabularyInit Examples.runtime env (Scenarios.form [])
                  Scenarios.upload
                  {| apiKey := Some (str "sk-or-test"); supportedModels := [] |}
                  (str "sk-or-test")).
  destruct (@upstream_failure_is_reported Examples.runtime env
              completionsUrl init) as [HV _].
  destruct HV as [Hanswer _]; [vm_compute; left|].
  destruct (Hanswer answer eq_refl eq_refl) as [Hmessage _].
  apply (Hmessage _ _ (str "Rate limit exceeded") eq_refl eq_refl eq_refl).
  discriminate.
Defined.

(** ** The model named in the request *)

Lemma find_first {A} (p : A → bool) before x after :
  Forall (λ y, p y = false) before →
  p x = true →
  List.find p (before ++ x :: after) = Some x.
Proof.
  intros Hbefore Hx. induction Hbefore as [|y ys Hy _ IH]; simpl.
  - by rewrite Hx.
  - by rewrite Hy.
Qed.

(** X6. The model both handlers name in the request: the selected model
    when it is one of the supported models; otherwise the first of the five
    vision models that is supported; otherwise "openai/gpt-4o", supported or
    not. So the request names a supported model or the default. *)
Theorem model_is_supported_or_default (selectedModel : option jsstring)
    (cfg : config) :
  let model := chooseModel selectedModel cfg in
  let unusable :=
    ∀ m, selectedModel = Some m → m = [] ∨ m ∉ supportedModels cfg in
  (∀ m, selectedModel = Some m → m ≠ [] → m ∈ supportedModels cfg → model = m)
  ∧ (∀ before v after,
        unusable →
        visionModels = before ++ v :: after →
        Forall (λ w, w ∉ supportedModels cfg) before →
        v ∈ supportedModels cfg →
        model = v)
  ∧ (unusable →
     Forall (λ w, w ∉ supportedModels cfg) visionModels →
     model = str "openai/gpt-4o")
  ∧ (model ∈ supportedModels cfg ∨ model = str "openai/gpt-4o").
Proof.
  intros model unusable. subst model unusable. unfold chooseModel, includes.
  assert (∀ m, selectedModel = Some m → m = [] ∨ m ∉ supportedModels cfg →
               match selectedModel with
               | Some m => nonEmpty m && bool_decide (m ∈ supportedModels cfg)
               | None => false
               end = false) as Hunusable.
  { intros m -> [->|Hm]; [done|].
    rewrite bool_decide_eq_false_2 by done. apply andb_false_r. }
  split_and!.
  - intros m -> Hm Hin. rewrite bool_decide_eq_true_2 by done.
    by destruct m.
  - intros before v after Hsel Hvision Hbefore Hv.
    assert (match selectedModel with
            | Some m => nonEmpty m && bool_decide (m ∈ supportedModels cfg)
            | None => false
            end = false) as ->.
    { destruct selectedModel as [m|]; [|done]. by apply (Hunusable m), Hsel. }
    destruct (supportedModels cfg) as [|s ss] eqn:Hs.
    { by apply elem_of_nil in Hv. }
    cbn [length Nat.ltb Nat.leb]. rewrite Hvision, (find_first _ before v after).
    + done.
    + eapply Forall_impl; [exact Hbefore|]. intros w Hw.
      by apply bool_decide_eq_false_2.
    + by apply bool_decide_eq_true_2.
  - intros Hsel Hnone.
    assert (match selectedModel with
            | Some m => nonEmpty m && bool_decide (m ∈ supportedModels cfg)
            | None => false
            end = false) as ->.
    { destruct selectedModel as [m|]; [|done]. by apply (Hunusable m), Hsel. }
    destruct (0 <? length (supportedModels cfg))%nat; [|done].
    destruct (List.find _ visionModels) as [v|] eqn:Hfind; [|done].
    apply find_some in Hfind as [Hin Hv].
    apply bool_decide_eq_true in Hv.
    rewrite Forall_forall in Hnone. apply list_elem_of_In in Hin.
    by destruct (Hnone v Hin).
  - destruct selectedModel as [m|].
    + destruct (nonEmpty m && bool_decide (m ∈ supportedModels cfg)) eqn:Hm.
      * apply andb_true_iff in Hm as [_ Hm]. left.
        by apply bool_decide_eq_true in Hm.
      * destruct (0 <? length (supportedModels cfg))%nat; [|by right].
        destruct (List.find _ visionModels) as [v|] eqn:Hfind; [|by right].
        apply find_some in Hfind as [_ Hv]. left.
        by apply bool_decide_eq_true in Hv.
    + destruct (0 <? length (supportedModels cfg))%nat; [|by right].
      destruct (List.find _ visionModels) as [v|] eqn:Hfind; [|by right].
      apply find_some in Hfind as [_ Hv]. left.
      by apply bool_decide_eq_true in Hv.
Qed.

(** ** The existing records of the form *)

Section ExistingRecords.
Context `{Runtime}.

Lemma parseExisting_none existingJson :
  existingJson = None ∨ existingJson = Some []
  ∨ (∃ text, existingJson = Some text ∧ JSON_parse text = None) →
  parseExisting existingJson = JArr [].
Proof.
  intros [->|[->|(text & -> & Hparse)]]; [done..|].
  unfold parseExisting. rewrite Hparse. by destruct (nonEmpty text).
Qed.

Lemma filterPush_nothing {A} (dup : A → bool) (xs duplicates : list A) :
  (∀ x, dup x = false) →
  filterPush dup xs duplicates = (xs, duplicates).
Proof.
  intros Hdup. revert duplicates.
  induction xs as [|x xs IH]; intros d; simpl; [done|].
  by rewrite Hdup, IH.
Qed.

Lemma mapR_Ok_Forall {A B} (f : A → result B) xs ys :
  mapR f xs = Ok ys → Forall (λ x, ∃ y, f x = Ok y) xs.
Proof.
  revert ys. induction xs as [|x xs IH]; intros ys; simpl; [by constructor|].
  destruct (f x) as [y|] eqn:Hx; [simpl|done].
  destruct (mapR f xs) as [ys'|]; [simpl|done].
  intros _. constructor; [by exists y | by eapply IH].
Qed.

Lemma arrayMap_records {B} (f : json → result B) field existing keys :
  (∀ x y, f x = Ok y →
          ∃ fields s, x = JObj fields ∧ ownProperty field fields = Some (JStr s)) →
  arrayMap existing f = Ok keys →
  recordsWithText field existing.
Proof.
  intros Hf. destruct existing as [| | | |items|]; try done. simpl.
  intros Hitems. exists items. split; [done|].
  apply mapR_Ok_Forall in Hitems.
  eapply Forall_impl; [exact Hitems|]. intros x [y Hy]. by eapply Hf.
Qed.

Lemma normalizeValue_Ok v y :
  normalizeValue v = Ok y → ∃ s, v = Some (JStr s).
Proof. destruct v as [[]|]; try done. by eexists. Qed.

Lemma getProp_Ok_Some x k v :
  getProp x k = Ok (Some v) → ∃ fields, x = JObj fields ∧ ownProperty k fields = Some v.
Proof. destruct x; try done. simpl. intros [= Hk]. by eexists. Qed.

Lemma word_key_arabic x y :
  Vocabulary.existingKey x = Ok y →
  ∃ fields s, x = JObj fields ∧ ownProperty (str "arabic") fields = Some (JStr s).
Proof.
  unfold Vocabulary.existingKey.
  destruct (getProp x (str "arabic")) as [a|] eqn:Ha; [simpl|done].
  destruct (normalizeValue a) as [na|] eqn:Hna; [simpl|done]. intros _.
  apply normalizeValue_Ok in Hna as [s ->].
  apply getProp_Ok_Some in Ha as (fields & -> & Hs). by exists fields, s.
Qed.

Lemma word_key_english x y :
  Vocabulary.existingKey x = Ok y →
  ∃ fields s, x = JObj fields ∧ ownProperty (str "english") fields = Some (JStr s).
Proof.
  unfold Vocabulary.existingKey.
  destruct (getProp x (str "arabic")) as [a|] eqn:Ha; [simpl|done].
  destruct (normalizeValue a) as [na|] eqn:Hna; [simpl|done].
  destruct (getProp x (str "english")) as [e|] eqn:He; [simpl|done].
  destruct (normalizeValue e) as [ne|] eqn:Hne; [simpl|done]. intros _.
  apply normalizeValue_Ok in Hne as [s ->].
  apply getProp_Ok_Some in He as (fields & -> & Hs). by exists fields, s.
Qed.

Lemma sentence_key_arabic x y :
  Conversation.existingKey x = Ok y →
  ∃ fields s, x = JObj fields ∧ ownProperty (str "arabic") fields = Some (JStr s).
Proof.
  unfold Conversation.existingKey.
  destruct (getProp x (str "arabic")) as [a|] eqn:Ha; [simpl|done].
  intros Hna.
  apply normalizeValue_Ok in Hna as [s ->].
  apply getProp_Ok_Some in Ha as (fields & -> & Hs). by exists fields, s.
Qed.

End ExistingRecords.

(** X7. When the form has no existing records (the field is absent, empty,
    or not JSON text; the handlers log the parse error and go on with an
    empty list), de-duplication removes nothing: every validated entry is
    returned and no duplicate is recorded. *)
Theorem no_existing_records_nothing_removed `{Runtime}
    (existingJson : option jsstring) :
  existingJson = None ∨ existingJson = Some []
  ∨ (∃ text, existingJson = Some text ∧ JSON_parse text = None) →
  (∀ validated,
      Vocabulary.removeDuplicates (parseExisting existingJson) validated
      = Ok (validated, []))
  ∧ (∀ validated,
        Conversation.removeDuplicates (parseExisting existingJson) validated []
        = Ok (validated, [])).
Proof.
  intros Hnone. rewrite (parseExisting_none _ Hnone).
  split; intros validated.
  - unfold Vocabulary.removeDuplicates. simpl.
    rewrite filterPush_nothing; [done|].
    intros x. apply bool_decide_eq_false_2. set_solver.
  - unfold Conversation.removeDuplicates. simpl.
    rewrite filterPush_nothing; [done|].
    intros x. apply bool_decide_eq_false_2. set_solver.
Qed.

Lemma no_existing_records_nothing_removed_witness :
  @Vocabulary.removeDuplicates Examples.runtime
    (@parseExisting Examples.runtime (Some (str "not json")))
    [ {| Vocabulary.arabic := Examples.kitab;
         Vocabulary.english := str "book" |} ]
  = Ok ([ {| Vocabulary.arabic := Examples.kitab;
             Vocabulary.english := str "book" |} ], []).
Proof.
  apply (@no_existing_records_nothing_removed Examples.runtime
           (Some (str "not json"))).
  right. right. eexists. split; reflexivity.
Defined.

(** X8. When the existing records of the form are JSON text, but not an
    array of records with a string [arabic] (and, for words, a string
    [english]), building their keys throws inside the [try] block: every OK
    answer of the API, even one with a well-formed array, is answered with
    the 500 "Failed to parse" body that carries the raw content. *)
Theorem malformed_existing_records_fail_the_parse `{Runtime}
    (response : fetchResponse) (data content existing : json)
    (model : jsstring) :
  resp_ok response = true →
  resp_json response = Ok data →
  replyContent data = Ok content →
  (¬ recordsWithText (str "arabic") existing →
   Vocabulary.respond response existing model
   = Ok (Vocabulary.parseFailure content)
   ∧ Conversation.respond response existing model
     = Ok (Conversation.parseFailure content))
  ∧ (¬ recordsWithText (str "english") existing →
     Vocabulary.respond response existing model
     = Ok (Vocabulary.parseFailure content)).
Proof.
  intros Hok Hjson Hcontent.
  assert (∀ field,
    (∀ x y, Vocabulary.existingKey x = Ok y →
       ∃ fields s, x = JObj fields ∧ ownProperty field fields = Some (JStr s)) →
    ¬ recordsWithText field existing →
    Vocabulary.respond response existing model
    = Ok (Vocabulary.parseFailure content)) as Hwords.
  { intros field Hkey Hbad. unfold Vocabulary.respond.
    rewrite Hok, Hjson. simpl. rewrite Hcontent. simpl.
    unfold Vocabulary.parseBlock, Vocabulary.removeDuplicates.
    destruct (parseReplyArray content) as [items|]; [simpl|done].
    destruct (Vocabulary.validate items) as [validated|]; [simpl|done].
    destruct (arrayMap existing Vocabulary.existingKey) as [keys|] eqn:Hkeys;
      [|done].
    destruct Hbad. by eapply arrayMap_records. }
  split.
  - intros Hbad. split; [by apply (Hwords _ word_key_arabic)|].
    unfold Conversation.respond.
    rewrite Hok, Hjson. simpl. rewrite Hcontent. simpl.
    unfold Conversation.parseBlock, Conversation.removeDuplicates.
    destruct (parseReplyArray content) as [items|]; [simpl|done].
    destruct (Conversation.validate items) as [validated|]; [simpl|done].
    destruct (arrayMap existing Conversation.existingKey) as [keys|] eqn:Hkeys;
      [|done].
    destruct Hbad. eapply arrayMap_records; [|exact Hkeys].
    apply sentence_key_arabic.
  - apply (Hwords _ word_key_english).
Qed.

Lemma malformed_existing_records_fail_the_parse_witness :
  @Conversation.respond Examples.runtime (Examples.reply (str "[]"))
    (JObj []) (str "openai/gpt-4o")
  = Ok (Conversation.parseFailure (JStr (str "[]"))).
Proof.
  destruct (@malformed_existing_records_fail_the_parse Examples.runtime
              (Examples.reply (str "[]")) (Examples.completion (str "[]"))
              (JStr (str "[]")) (JObj []) (str "openai/gpt-4o")
              eq_refl eq_refl eq_refl) as [Harabic _].
  apply Harabic. intros (items & Hitems & _). discriminate.
Defined.

(** ** Finding the array in the reply *)

Lemma throughLastClose_None s : throughLastClose s = None ↔ 93%N ∉ s.
Proof.
  induction s as [|c s IH]; simpl.
  - split; [intros _; apply not_elem_of_nil | done].
  - rewrite not_elem_of_cons.
    destruct (throughLastClose s) as [t|].
    + split; [done|]. intros [_ Hs]. by apply IH in Hs.
    + destruct (N.eqb_spec c 93) as [->|Hc].
      * split; [done|]. by intros [[] _].
      * split; [|done]. intros _. split; [done|]. by apply IH.
Qed.

Lemma throughLastClose_last mid post :
  93%N ∉ post →
  throughLastClose (mid ++ (93%N :: post)) = Some (mid ++ [93%N]).
Proof.
  intros Hpost. apply throughLastClose_None in Hpost.
  induction mid as [|c mid IH]; simpl.
  - by rewrite Hpost.
  - by rewrite IH.
Qed.

Lemma throughLastClose_Some s t :
  throughLastClose s = Some t →
  ∃ mid post, s = mid ++ (93%N :: post) ∧ (93%N ∉ post) ∧ t = mid ++ [93%N].
Proof.
  revert t. induction s as [|c s IH]; intros t; simpl; [done|].
  destruct (throughLastClose s) as [t'|] eqn:Hs.
  - intros [= <-]. destruct (IH t' eq_refl) as (mid & post & -> & Hpost & ->).
    by exists (c :: mid), post.
  - destruct (N.eqb_spec c 93) as [->|Hc]; [|done].
    intros [= <-]. exists [], s. by rewrite <- throughLastClose_None.
Qed.

Lemma matchBrackets_first pre rest :
  91%N ∉ pre →
  matchBrackets (pre ++ (91%N :: rest)) = cons 91%N <$> throughLastClose rest.
Proof.
  induction pre as [|c pre IH]; simpl; [done|].
  rewrite not_elem_of_cons. intros [Hc Hpre].
  destruct (N.eqb_spec c 91) as [->|_]; [done|]. by apply IH.
Qed.

Lemma matchBrackets_Some s m :
  matchBrackets s = Some m →
  ∃ pre rest t, s = pre ++ (91%N :: rest) ∧ (91%N ∉ pre)
                ∧ throughLastClose rest = Some t ∧ m = 91%N :: t.
Proof.
  induction s as [|c s IH]; simpl; [done|].
  destruct (N.eqb_spec c 91) as [->|Hc].
  - destruct (throughLastClose s) as [t|] eqn:Hs; [|done].
    intros [= <-]. exists [], s, t. split_and!; try done. apply not_elem_of_nil.
  - intros Hm. destruct (IH Hm) as (pre & rest & t & -> & Hpre & Ht & ->).
    exists (c :: pre), rest, t. split_and!; try done.
    rewrite not_elem_of_cons. split; [congruence | done].
Qed.

Lemma matchBrackets_found pre mid post :
  matchBrackets (pre ++ [91%N] ++ mid ++ [93%N] ++ post) ≠ None.
Proof.
  assert (∀ before, throughLastClose (before ++ [93%N] ++ post) ≠ None)
    as Hclose.
  { intros before. rewrite throughLastClose_None.
    intros Hno. apply Hno. rewrite !elem_of_app, list_elem_of_singleton. tauto. }
  induction pre as [|c pre IH]; simpl.
  - specialize (Hclose mid). by destruct (throughLastClose _).
  - destruct (N.eqb_spec c 91) as [->|_]; [|exact IH].
    specialize (Hclose (pre ++ [91%N] ++ mid)).
    rewrite <- !app_assoc in Hclose. simpl in Hclose.
    by destruct (throughLastClose _).
Qed.

(** X9. What the handlers take from the model's reply as JSON text: the
    part of the content from its first opening bracket to its last closing
    bracket, both included, whatever lies between; and nothing (the whole
    content is parsed instead) exactly when no opening bracket is followed
    by a closing one. *)
Theorem matchBrackets_first_open_to_last_close (s : jsstring) :
  (∀ m, matchBrackets s = Some m
        ↔ ∃ pre mid post,
            s = pre ++ [91%N] ++ mid ++ [93%N] ++ post
            ∧ (91%N ∉ pre) ∧ (93%N ∉ post)
            ∧ m = [91%N] ++ mid ++ [93%N])
  ∧ (matchBrackets s = None
     ↔ ∀ pre mid post, s ≠ pre ++ [91%N] ++ mid ++ [93%N] ++ post).
Proof.
  assert (∀ m, matchBrackets s = Some m
        ↔ ∃ pre mid post,
            s = pre ++ [91%N] ++ mid ++ [93%N] ++ post
            ∧ (91%N ∉ pre) ∧ (93%N ∉ post)
            ∧ m = [91%N] ++ mid ++ [93%N]) as Hsome.
  { intros m. split.
    - intros Hm.
      apply matchBrackets_Some in Hm as (pre & rest & t & -> & Hpre & Ht & ->).
      apply throughLastClose_Some in Ht as (mid & post & -> & Hpost & ->).
      by exists pre, mid, post.
    - intros (pre & mid & post & -> & Hpre & Hpost & ->). simpl.
      by rewrite matchBrackets_first, throughLastClose_last. }
  split; [exact Hsome|]. split.
  - intros Hnone pre mid post ->. by apply matchBrackets_found in Hnone.
  - intros Hno. destruct (matchBrackets s) as [m|] eqn:Hm; [|done].
    destruct (proj1 (Hsome m) eq_refl) as (pre & mid & post & Hs & _).
    by destruct (Hno pre mid post).
Qed.

(** ** The vocabulary context of the conversation prompt *)

(** X10. Only the first hundred vocabulary words of the unit reach the
    prompt of the conversation handler: words after the hundredth change
    nothing in the context appended to the prompt. *)
Theorem vocabulary_context_uses_first_hundred
    (vocabWords extra : list vocabularyWordRow) :
  (100 ≤ length vocabWords)%nat →
  Conversation.vocabularyContextOf (vocabWords ++ extra)
  = Conversation.vocabularyContextOf vocabWords.
Proof.
  intros Hlen. unfold Conversation.vocabularyContextOf.
  rewrite length_app, (take_app_le vocabWords extra 100) by done.
  destruct (Nat.ltb_spec 0 (length vocabWords)); [|lia].
  by destruct (Nat.ltb_spec 0 (length vocabWords + length extra)); [|lia].
Qed.

Lemma vocabulary_context_uses_first_hundred_witness :
  let w := {| row_arabic := Examples.kitab; row_english := str "book" |} in
  let w' := {| row_arabic := Examples.qalam; row_english := str "pen" |} in
  Conversation.vocabularyContextOf (replicate 100 w ++ [w'])
  = Conversation.vocabularyContextOf (replicate 100 w).
Proof.
  intros w w'. apply vocabulary_context_uses_first_hundred.
  vm_compute. lia.
Defined.

(** * Further properties of the flashcards *)

(** X11. The Submit button of the test, for answers given through the
    form (each is keyed by the id of a word). When the ids of the words are
    distinct, the button is enabled exactly when every word has an answer.
    When two words share an id, it is never enabled. *)
Theorem submit_enabled_when_all_answered
    (words : list Flashcards.VocabularyWord) (s : Flashcards.state) :
  (∀ k, is_Some (Flashcards.testAnswers s !! k) → k ∈ Flashcards.id <$> words) →
  (NoDup (Flashcards.id <$> words) →
   (FlashcardsView.submitDisabled words s = false
    ↔ ∀ w, w ∈ words → is_Some (Flashcards.testAnswers s !! Flashcards.id w)))
  ∧ (¬ NoDup (Flashcards.id <$> words) →
     FlashcardsView.submitDisabled words s = true).
Proof.
  intros Hkeys. unfold FlashcardsView.submitDisabled.
  set (answers := Flashcards.testAnswers s) in *.
  set (ids := list_to_set (Flashcards.id <$> words) : gset Z).
  assert (dom answers ⊆ ids) as Hsub.
  { intros k Hk. apply elem_of_dom in Hk. apply elem_of_list_to_set. auto. }
  pose proof (subseteq_size _ _ Hsub) as Hle. rewrite size_dom in Hle.
  destruct (size_list_to_set_le (Flashcards.id <$> words)) as [Hids Hdup].
  rewrite length_fmap in Hids, Hdup. fold ids in Hids, Hdup.
  split.
  - intros Hnodup.
    assert (size ids = length words) as Hsize.
    { unfold ids. by rewrite size_list_to_set, length_fmap. }
    rewrite Nat.ltb_ge. split.
    + intros Hall w Hw. apply elem_of_dom.
      assert (dom answers = ids) as ->.
      { apply set_subseteq_size_eq; [done|]. rewrite size_dom. lia. }
      apply elem_of_list_to_set. by apply list_elem_of_fmap_2.
    + intros Hall.
      assert (ids ⊆ dom answers) as Hsup.
      { intros k Hk. apply elem_of_list_to_set, list_elem_of_fmap in Hk
          as (w & -> & Hw). apply elem_of_dom. by apply Hall. }
      apply subseteq_size in Hsup. rewrite size_dom in Hsup. lia.
  - intros Hnodup. apply Hdup in Hnodup. apply Nat.ltb_lt. lia.
Qed.

Lemma submit_enabled_when_all_answered_witness :
  let words :=
    [ {| Flashcards.id := 1; Flashcards.arabic := Examples.kitab;
         Flashcards.english := str "book" |};
      {| Flashcards.id := 2; Flashcards.arabic := Examples.qalam;
         Flashcards.english := str "pen" |} ] in
  let s :=
    Flashcards.steps words Flashcards.initial
      [ Flashcards.SelectMode Flashcards.test;
        Flashcards.TestAnswer 2 (str "pen");
        Flashcards.TestAnswer 1 (str "pen") ] in
  FlashcardsView.submitDisabled words s = false
  ↔ ∀ w, w ∈ words → is_Some (Flashcards.testAnswers s !! Flashcards.id w).
Proof.
  intros words s.
  apply (submit_enabled_when_all_answered words s).
  - intros k [a Hk]. subst s. simpl in Hk.
    destruct (decide (k = 1%Z)) as [->|H1]; [set_solver|].
    destruct (decide (k = 2%Z)) as [->|H2]; [set_solver|].
    rewrite !lookup_insert_ne in Hk by done. done.
  - apply (bool_decide_unpack _). vm_compute. exact I.
Defined.

Lemma gradeAll_size answers ws :
  (size (Flashcards.gradeAll answers ws) ≤ length ws)%nat.
Proof.
  induction ws as [|w ws IH] using rev_ind; [done|].
  rewrite gradeAll_snoc, map_size_insert, length_app. simpl.
  destruct (Flashcards.gradeAll answers ws !! Flashcards.id w); simpl; lia.
Qed.

Lemma correctCount_le_size s :
  (Flashcards.correctCount s ≤ size (Flashcards.testResults s))%nat.
Proof.
  unfold Flashcards.correctCount.
  rewrite <- length_map_to_list, <- (length_map snd).
  induction (List.map snd (map_to_list (Flashcards.testResults s)))
    as [|r rs IH]; simpl; [done|].
  destruct r; simpl; lia.
Qed.

(** X12. The score shown after a test never exceeds the number of words,
    whatever the user did before and even when words share an id: the
    results hold at most one mark per word. *)
Theorem score_never_exceeds_total (words : list Flashcards.VocabularyWord)
    (acts : list Flashcards.action) :
  (Flashcards.correctCount (Flashcards.steps words Flashcards.initial acts)
   ≤ Flashcards.totalWords words)%nat.
Proof.
  etrans; [apply correctCount_le_size|]. unfold Flashcards.totalWords.
  assert (∀ s,
    (size (Flashcards.testResults s) ≤ length words)%nat →
    (size (Flashcards.testResults (Flashcards.steps words s acts))
     ≤ length words)%nat) as Hinv.
  { unfold Flashcards.steps.
    induction acts as [|a acts IH]; intros s Hs; simpl; [done|].
    apply IH.
    destruct a as [| | |correct|m|wordId answer| |]; simpl;
      unfold Flashcards.handleNext, Flashcards.handlePrevious;
      repeat case_match; simpl; try done; try apply gradeAll_size;
      try (rewrite map_size_empty; lia).
    destruct m; simpl; try done. rewrite map_size_empty. lia. }
  apply Hinv. simpl. rewrite map_size_empty. lia.
Qed.

(** X13. Moving through the cards. From a card of the list, [n] presses of
    Next lead [n] cards further, stopping at the last card, and [n] presses
    of Previous lead [n] cards back, stopping at the first. The Next and
    Previous buttons are disabled exactly where their handler would change
    nothing, and Previous undoes a Next that moved. *)
Theorem navigation_stops_at_the_ends
    (words : list Flashcards.VocabularyWord) (s : Flashcards.state) (n : nat) :
  inRange words s →
  let lastIndex := (Z.of_nat (length words) - 1)%Z in
  Flashcards.currentIndex (Nat.iter n (Flashcards.handleNext words) s)
  = Z.min (Flashcards.currentIndex s + Z.of_nat n) lastIndex
  ∧ Flashcards.currentIndex (Nat.iter n Flashcards.handlePrevious s)
    = Z.max (Flashcards.currentIndex s - Z.of_nat n) 0
  ∧ (FlashcardsView.nextDisabled words s = true
     ↔ Flashcards.handleNext words s = s)
  ∧ (FlashcardsView.previousDisabled s = true
     ↔ Flashcards.handlePrevious s = s)
  ∧ (FlashcardsView.nextDisabled words s = false →
     Flashcards.currentIndex
       (Flashcards.handlePrevious (Flashcards.handleNext words s))
     = Flashcards.currentIndex s).
Proof.
  intros Hs lastIndex. subst lastIndex. unfold inRange in Hs. split_and!.
  - induction n as [|n IH]; [simpl; lia|].
    rewrite Nat.iter_succ. unfold Flashcards.handleNext at 1. rewrite IH.
    destruct (Z.ltb_spec (Z.min (Flashcards.currentIndex s + Z.of_nat n)
                                (Z.of_nat (length words) - 1))
                         (Z.of_nat (length words) - 1)); simpl; lia.
  - induction n as [|n IH]; [simpl; lia|].
    rewrite Nat.iter_succ. unfold Flashcards.handlePrevious at 1. rewrite IH.
    destruct (Z.gtb_spec (Z.max (Flashcards.currentIndex s - Z.of_nat n) 0) 0);
      simpl; lia.
  - unfold FlashcardsView.nextDisabled, Flashcards.handleNext.
    rewrite Z.eqb_eq.
    destruct (Z.ltb_spec (Flashcards.currentIndex s)
                         (Z.of_nat (length words) - 1)) as [Hlt|Hge].
    + split; [lia|]. intros Hsame.
      apply (f_equal Flashcards.currentIndex) in Hsame. simpl in Hsame. lia.
    + split; [done|]. lia.
  - unfold FlashcardsView.previousDisabled, Flashcards.handlePrevious.
    rewrite Z.eqb_eq.
    destruct (Z.gtb_spec (Flashcards.currentIndex s) 0) as [Hgt|Hle].
    + split; [lia|]. intros Hsame.
      apply (f_equal Flashcards.currentIndex) in Hsame. simpl in Hsame. lia.
    + split; [done|]. lia.
  - unfold FlashcardsView.nextDisabled. rewrite Z.eqb_neq. intros Hnot.
    unfold Flashcards.handleNext.
    destruct (Z.ltb_spec (Flashcards.currentIndex s)
                         (Z.of_nat (length words) - 1)) as [Hlt|Hge]; [|lia].
    unfold Flashcards.handlePrevious. simpl.
    destruct (Z.gtb_spec (Flashcards.currentIndex s + 1) 0); simpl; lia.
Qed.

Lemma navigation_stops_at_the_ends_witness :
  let words :=
    [ {| Flashcards.id := 1; Flashcards.arabic := Examples.kitab;
         Flashcards.english := str "book" |};
      {| Flashcards.id := 2; Flashcards.arabic := Examples.qalam;
         Flashcards.english := str "pen" |};
      {| Flashcards.id := 3; Flashcards.arabic := Examples.kitab;
         Flashcards.english := str "door" |} ] in
  Flashcards.currentIndex
    (Nat.iter 5 (Flashcards.handleNext words) Flashcards.initial)
  = Z.min (0 + 5) 2.
Proof.
  intros words.
  apply (navigation_stops_at_the_ends words Flashcards.initial 5).
  unfold inRange. simpl. lia.
Defined.

Section AllOptions.
Variable rng : Type.
Variable randomSort : rng → list jsstring → list jsstring * rng.
Hypothesis shuffle : ∀ g xs, (randomSort g xs).1 ≡ₚ xs.
Variable words : list Flashcards.VocabularyWord.


Lemma optionsOf_spec w g :
  Flashcards.english w ∈ optionsOf rng randomSort words w g
  ∧ (length (optionsOf rng randomSort words w g) ≤ 4)%nat
  ∧ ∀ o, o ∈ optionsOf rng randomSort words w g →
         o = Flashcards.english w
         ∨ ∃ other, other ∈ words ∧ Flashcards.english other = o.
Proof.
  unfold optionsOf, Flashcards.generateMultipleChoiceOptions.
  set (candidates :=
         List.map Flashcards.english
           (List.filter
              (λ x, negb (Flashcards.id x =? Flashcards.id w)%Z) words)).
  pose proof (shuffle g candidates) as Hfirst.
  destruct (randomSort g candidates) as [shuffled g1]. simpl in Hfirst.
  pose proof (shuffle g1 (Flashcards.english w :: firstn 3 shuffled))
    as Hsecond.
  cbn zeta. split_and!.
  - rewrite Hsecond. left.
  - rewrite Hsecond. simpl. rewrite length_take. lia.
  - intros o Ho. rewrite Hsecond in Ho.
    apply elem_of_cons in Ho as [->|Ho]; [by left|]. right.
    assert (o ∈ candidates) as Hc.
    { rewrite <- Hfirst. by apply (subseteq_take 3 shuffled). }
    unfold candidates in Hc.
    apply list_elem_of_In, in_map_iff in Hc as (other & <- & Hother).
    apply filter_In in Hother as [Hin _].
    exists other. split; [by apply list_elem_of_In | done].
Qed.

Lemma generateAllOptions_lookup todo options g k :
  let result :=
    (Flashcards.generateAllOptions rng randomSort words todo options g).1 in
  (k ∉ Flashcards.id <$> todo → result !! k = options !! k)
  ∧ (k ∈ Flashcards.id <$> todo →
     ∃ w g', w ∈ todo ∧ Flashcards.id w = k
             ∧ result !! k = Some (optionsOf rng randomSort words w g'))
  ∧ (NoDup (Flashcards.id <$> todo) →
     ∀ w, w ∈ todo → Flashcards.id w = k →
          ∃ g', result !! k = Some (optionsOf rng randomSort words w g')).
Proof.
  cbn zeta. revert options g.
  induction todo as [|w0 rest IH]; intros options g.
  - simpl. split_and!; [done| |].
    + intros Hk. by apply elem_of_nil in Hk.
    + intros _ w Hw. by apply elem_of_nil in Hw.
  - cbn [Flashcards.generateAllOptions].
    pose proof (eq_refl : optionsOf rng randomSort words w0 g
                          = optionsOf rng randomSort words w0 g) as Hopts.
    unfold optionsOf at 1 in Hopts.
    destruct (Flashcards.generateMultipleChoiceOptions rng randomSort
                (Flashcards.english w0) words (Flashcards.id w0) g)
      as [opts g1]. simpl in Hopts. subst opts.
    destruct (IH (<[Flashcards.id w0 := optionsOf rng randomSort words w0 g]>
                    options) g1)
      as (Hout & Hin & Hnodup).
    rewrite fmap_cons. split_and!.
    + rewrite not_elem_of_cons. intros [Hne Hrest].
      rewrite (Hout Hrest). by apply lookup_insert_ne.
    + intros Hk. destruct (decide (k ∈ Flashcards.id <$> rest)) as [Hrest|Hrest].
      * destruct (Hin Hrest) as (w & g' & Hw & Hid & Hlook).
        exists w, g'. split_and!; [by right | done | done].
      * apply elem_of_cons in Hk as [->|Hk]; [|done].
        exists w0, g. split_and!; [left | done |].
        rewrite (Hout Hrest). apply lookup_insert_eq.
    + intros Hnd w Hw Hid. apply NoDup_cons in Hnd as [Hfresh Hnd].
      apply elem_of_cons in Hw as [->|Hw].
      * exists g. subst k. rewrite (Hout Hfresh). apply lookup_insert_eq.
      * by apply Hnodup.
Qed.

End AllOptions.

(** X14. Entering test mode gives every word of the list its options, and
    nothing else: whatever order the shuffles leave, there is an entry
    exactly for the ids of the words; each entry holds at most four options,
    all of them English texts of words of the list; and when ids are
    distinct the entry of a word contains its own English text. *)
Theorem every_word_gets_options
    (rng : Type) (randomSort : rng → list jsstring → list jsstring * rng)
    (words : list Flashcards.VocabularyWord) (g : rng) :
  (∀ g xs, (randomSort g xs).1 ≡ₚ xs) →
  let options :=
    (Flashcards.generateAllOptions rng randomSort words words ∅ g).1 in
  (∀ k, is_Some (options !! k) ↔ k ∈ Flashcards.id <$> words)
  ∧ (∀ k opts, options !! k = Some opts →
       (length opts ≤ 4)%nat
       ∧ ∀ o, o ∈ opts → ∃ w, w ∈ words ∧ Flashcards.english w = o)
  ∧ (NoDup (Flashcards.id <$> words) →
     ∀ w, w ∈ words →
          ∃ opts, options !! Flashcards.id w = Some opts
                  ∧ Flashcards.english w ∈ opts).
Proof.
  intros Hshuffle options. subst options.
  pose proof (λ k, generateAllOptions_lookup rng randomSort words words ∅ g k)
    as Hlookup. cbn zeta in Hlookup.
  assert (∀ k opts,
    (Flashcards.generateAllOptions rng randomSort words words ∅ g).1 !! k
    = Some opts →
    ∃ w g', w ∈ words ∧ Flashcards.id w = k
            ∧ opts = optionsOf rng randomSort words w g')
    as Hfrom.
  { intros k opts Hk. destruct (Hlookup k) as (Hout & Hin & _).
    destruct (decide (k ∈ Flashcards.id <$> words)) as [Hmem|Hmem].
    - destruct (Hin Hmem) as (w & g' & Hw & Hid & Hw').
      exists w, g'. split_and!; [done..|]. congruence.
    - rewrite (Hout Hmem), lookup_empty in Hk. done. }
  split_and!.
  - intros k. split.
    + intros [opts Hk]. destruct (Hfrom k opts Hk) as (w & _ & Hw & <- & _).
      by apply list_elem_of_fmap_2.
    + intros Hk. destruct (Hlookup k) as (_ & Hin & _).
      destruct (Hin Hk) as (w & g' & _ & _ & ->). by eexists.
  - intros k opts Hk. destruct (Hfrom k opts Hk) as (w & g' & Hw & _ & ->).
    destruct (optionsOf_spec rng randomSort Hshuffle words w g')
      as (_ & Hlen & Hall).
    split; [exact Hlen|]. intros o Ho.
    destruct (Hall o Ho) as [->|Hother]; [by exists w | done].
  - intros Hnodup w Hw. destruct (Hlookup (Flashcards.id w)) as (_ & _ & Hnd).
    destruct (Hnd Hnodup w Hw eq_refl) as [g' ->]. eexists. split; [done|].
    apply (optionsOf_spec rng randomSort Hshuffle words w g').
Qed.

Lemma every_word_gets_options_witness :
  let words :=
    [ {| Flashcards.id := 1; Flashcards.arabic := Examples.kitab;
         Flashcards.english := str "book" |};
      {| Flashcards.id := 2; Flashcards.arabic := Examples.qalam;
         Flashcards.english := str "pen" |} ] in
  let reversing (g : unit) (xs : list jsstring) := (rev xs, g) in
  ∃ opts,
    (Flashcards.generateAllOptions unit reversing words words ∅ tt).1 !! 2%Z
    = Some opts
    ∧ str "pen" ∈ opts.
Proof.
  intros words reversing.
  destruct (every_word_gets_options unit reversing words tt)
    as (_ & _ & Hown).
  { intros g xs. simpl. symmetry. apply Permutation_rev. }
  apply (Hown ltac:(apply (bool_decide_unpack _); vm_compute; exact I)
              {| Flashcards.id := 2; Flashcards.arabic := Examples.qalam;
                 Flashcards.english := str "pen" |}).
  right. left.
Defined.

(** * Further properties of the conversation display *)

Lemma rem2_zero a : (Z.rem a 2 =? 0)%Z = Z.even a.
Proof.
  destruct (Z.eqb_spec (Z.rem a 2) 0) as [Hrem|Hrem]; symmetry.
  - apply Z.even_spec. exists (Z.quot a 2). pose proof (Z.quot_rem' a 2). lia.
  - destruct (Z.even a) eqn:Heven; [|done].
    apply Z.even_spec in Heven as [m ->].
    destruct Hrem. rewrite Z.mul_comm. apply Z.rem_mul. lia.
Qed.

Lemma rem2_one a : (Z.rem a 2 =? 1)%Z = Z.odd a && (0 <=? a)%Z.
Proof.
  destruct (Z.leb_spec 0 a) as [Hpos|Hneg].
  - rewrite andb_true_r, Z.rem_mod_nonneg by lia.
    rewrite Zmod_odd. by destruct (Z.odd a).
  - rewrite andb_false_r. apply Z.eqb_neq.
    pose proof (Z.rem_nonpos a 2). lia.
Qed.

Lemma rightColumn_filter sentences :
  ConversationView.rightColumnSentences sentences
  = filter (λ s, Z.even (ConversationDisplay.order s) = true) sentences.
Proof.
  unfold ConversationView.rightColumnSentences.
  induction sentences as [|s l IH]; [done|].
  rewrite filter_cons. simpl. rewrite IH, rem2_zero.
  destruct (Z.even (ConversationDisplay.order s)); by case_decide.
Qed.

Lemma leftColumn_filter sentences :
  ConversationView.leftColumnSentences sentences
  = filter (λ s, Z.odd (ConversationDisplay.order s) = true
                 ∧ (0 ≤ ConversationDisplay.order s)%Z) sentences.
Proof.
  unfold ConversationView.leftColumnSentences.
  induction sentences as [|s l IH]; [done|].
  rewrite filter_cons. simpl. rewrite IH, rem2_one.
  destruct (Z.odd (ConversationDisplay.order s));
    destruct (Z.leb_spec 0 (ConversationDisplay.order s));
    case_decide as Hd; simpl; try done.
  - destruct Hd. split; [done | lia].
  - destruct Hd as [_ Hd]. lia.
  - by destruct Hd.
  - by destruct Hd.
Qed.

(** X15. The two columns of the conversation. A sentence whose [order] is
    not negative is shown in exactly one column: the right one when the
    order is even, the left one when it is odd. A sentence with a negative
    odd order is shown in neither, because the remainder is then -1. Each
    column keeps the order of the list. *)
Theorem columns_split_by_parity
    (sentences : list ConversationDisplay.ConversationSentence) :
  let order := ConversationDisplay.order in
  ConversationView.rightColumnSentences sentences
  = filter (λ s, Z.even (order s) = true) sentences
  ∧ ConversationView.leftColumnSentences sentences
    = filter (λ s, Z.odd (order s) = true ∧ (0 ≤ order s)%Z) sentences
  ∧ (∀ s, s ∈ sentences → (0 ≤ order s)%Z →
          (s ∈ ConversationView.rightColumnSentences sentences
           ↔ (s ∉ ConversationView.leftColumnSentences sentences)))
  ∧ (∀ s, (order s < 0)%Z → Z.odd (order s) = true →
          (s ∉ ConversationView.rightColumnSentences sentences)
          ∧ (s ∉ ConversationView.leftColumnSentences sentences)).
Proof.
  intros order. subst order.
  pose proof (rightColumn_filter sentences) as Hright.
  pose proof (leftColumn_filter sentences) as Hleft.
  rewrite Hright, Hleft. split_and!; [done..| |].
  - intros s Hs Hpos. rewrite !list_elem_of_filter.
    rewrite <- Z.negb_even. destruct (Z.even (ConversationDisplay.order s));
      simpl; split.
    + intros _ [[? _] _]. done.
    + done.
    + intros [? _]. done.
    + intros Hnot. destruct Hnot. done.
  - intros s Hneg Hodd. rewrite !list_elem_of_filter.
    rewrite <- Z.negb_even in Hodd.
    destruct (Z.even (ConversationDisplay.order s)); [done|].
    split; [by intros [? _] | intros [[_ ?] _]; lia].
Qed.

(** ** The order of playback *)

Lemma filter_insertByOrder k s l :
  filter (λ x, ConversationDisplay.order x = k)
         (ConversationDisplay.insertByOrder s l)
  = filter (λ x, ConversationDisplay.order x = k) (s :: l).
Proof.
  induction l as [|t l IH]; simpl; [done|].
  destruct (Z.leb_spec (ConversationDisplay.order s)
                       (ConversationDisplay.order t)) as [Hle|Hlt]; [done|].
  rewrite (filter_cons _ t), IH, !filter_cons.
  repeat case_decide; try done; lia.
Qed.

(** X16. [sortedSentences], the order of playback, is the stable sort of
    the sentences by [order]: the same sentences, in ascending order, and
    sentences of equal order in the order the list has them. *)
Theorem sortedSentences_is_a_stable_sort
    (sentences : list ConversationDisplay.ConversationSentence) :
  ConversationDisplay.sortedSentences sentences ≡ₚ sentences
  ∧ StronglySorted byOrder (ConversationDisplay.sortedSentences sentences)
  ∧ ∀ k, filter (λ s, ConversationDisplay.order s = k)
                (ConversationDisplay.sortedSentences sentences)
         = filter (λ s, ConversationDisplay.order s = k) sentences.
Proof.
  unfold ConversationDisplay.sortedSentences.
  split_and!; [apply sortByOrder_Permutation | apply sortByOrder_sorted |].
  intros k. unfold ConversationDisplay.sortByOrder.
  induction sentences as [|s l IH]; [done|]. simpl.
  by rewrite filter_insertByOrder, !filter_cons, IH.
Qed.

(** ** Stopping and single sentences *)

Lemma settle_quiet fuel st :
  ConversationDisplay.tick st = None →
  ConversationDisplay.settle fuel st = Some st.
Proof. intros Htick. destruct fuel; simpl; by rewrite Htick. Qed.

Section StoppedRuns.
Variable lang : ConversationDisplay.Language.
Variable queue : list ConversationDisplay.ConversationSentence.
Variable parked : option ConversationDisplay.utterance.
Variable before : list ConversationDisplay.speechEvent.

Local Notation said := (said lang).
Local Notation speakingState := (speakingState lang queue parked before).
Local Notation pausingState := (pausingState lang queue parked before).
Local Notation finishedState := (finishedState lang queue parked before).

Lemma tick_speaking done s :
  ConversationDisplay.tick (speakingState done s) = Some (pausingState done s).
Proof.
  unfold ConversationDisplay.tick, ConversationDisplay.utteranceEnded,
    ConversationDisplay.fires, pausingState. cbn. by rewrite <- !app_assoc.
Qed.

Lemma tick_pausing done s rest :
  queue = done ++ s :: rest →
  ConversationDisplay.tick (pausingState done s)
  = Some match rest with
         | [] => finishedState
         | s' :: _ => speakingState (done ++ [s]) s'
         end.
Proof.
  intros Hqueue.
  assert (queue !! S (length done) = head rest) as Hnext.
  { rewrite Hqueue, lookup_app_r by lia.
    replace (S (length done) - length done)%nat with 1%nat by lia.
    by destruct rest. }
  assert (concat (said <$> done ++ [s]) = concat (said <$> done) ++ said s)
    as Hsaid.
  { by rewrite fmap_app, concat_app. }
  unfold ConversationDisplay.tick, ConversationDisplay.timerFired,
    ConversationDisplay.playSentenceSequentially.
  cbn. rewrite Hnext.
  destruct rest as [|s' rest']; cbn; f_equal.
  - unfold finishedState, ConversationDisplay.idlePlayer.
    by rewrite Hqueue, Hsaid.
  - unfold speakingState, ConversationDisplay.speak. cbn.
    rewrite Hsaid, length_app. cbn.
    replace (length done + 1)%nat with (S (length done)) by lia.
    by rewrite <- !app_assoc.
Qed.

Lemma ticks_finished n : ticks n finishedState = finishedState.
Proof. induction n as [|n IH]; [done|]. simpl. exact IH. Qed.

(** While a run goes on, the page is speaking a sentence of the queue or
    pausing after it; two events pass per sentence. *)
Lemma ticks_run n :
  ∀ done s rest,
    queue = done ++ s :: rest →
    ConversationDisplay.isPlayingAll
      (ConversationDisplay.play (ticks n (speakingState done s))) = true →
    ∃ done' s' rest',
      queue = done' ++ s' :: rest'
      ∧ length done' = (length done + n / 2)%nat
      ∧ (ticks n (speakingState done s) = speakingState done' s'
         ∨ ticks n (speakingState done s) = pausingState done' s').
Proof.
  induction n as [n IH] using lt_wf_ind. intros done s rest Hqueue.
  destruct n as [|[|n]].
  - intros _. exists done, s, rest. simpl. split_and!; [done | lia | by left].
  - intros _. exists done, s, rest. cbn [ticks]. rewrite tick_speaking. simpl.
    split_and!; [done | lia | by right].
  - cbn [ticks]. rewrite tick_speaking. cbn [default from_option]. unfold id.
    rewrite (tick_pausing done s rest Hqueue). cbn [default from_option].
    unfold id.
    destruct rest as [|s' rest'].
    + rewrite ticks_finished. done.
    + intros Hplaying.
      destruct (IH n ltac:(lia) (done ++ [s]) s' rest') as
        (done' & s'' & rest'' & Hq & Hlen & Hstate); [|done|].
      { by rewrite <- app_assoc. }
      exists done', s'', rest''. split_and!; [done| |done].
      assert (S (S n) / 2 = S (n / 2))%nat as Hhalf.
      { replace (S (S n)) with (1 * 2 + n)%nat by lia.
        rewrite Nat.div_add_l by lia. lia. }
      rewrite Hlen, length_app, Hhalf. simpl. lia.
Qed.

Lemma spoken_said done :
  spoken (concat (said <$> done)) = ConversationDisplay.textOf lang <$> done.
Proof.
  induction done as [|s l IH]; [done|].
  rewrite !fmap_cons. cbn [concat]. unfold spoken in *.
  rewrite omap_app, IH. done.
Qed.

End StoppedRuns.

Lemma spoken_app l1 l2 : spoken (l1 ++ l2) = spoken l1 ++ spoken l2.
Proof. apply omap_app. Qed.

Lemma ticks_quiet n st :
  ConversationDisplay.tick st = None → ticks n st = st.
Proof. intros Htick. induction n as [|m IH]; [done|]. simpl. by rewrite Htick. Qed.

(** The first click on Play All: nothing happens when no sentence is
    playable, and otherwise the first playable sentence is being spoken. *)
Lemma handlePlayAll_starts sentences st :
  ConversationDisplay.isPlayingAll (ConversationDisplay.play st) = false →
  ConversationDisplay.timeoutRef (ConversationDisplay.play st) = None →
  ConversationDisplay.speaking (ConversationDisplay.synth st) = None →
  ConversationDisplay.supported (ConversationDisplay.synth st) = true →
  ConversationDisplay.voicesLoaded (ConversationDisplay.synth st) = true →
  ConversationDisplay.handlePlayAll sentences st
  = let lang := ConversationDisplay.selectedLanguage st in
    match List.filter (ConversationDisplay.playable lang)
                      (ConversationDisplay.sortedSentences sentences) with
    | [] => st
    | s :: rest =>
        speakingState lang (s :: rest)
          (ConversationDisplay.onvoiceschanged (ConversationDisplay.synth st))
          (ConversationDisplay.speechLog (ConversationDisplay.synth st)) [] s
    end.
Proof.
  intros Hidle Htimer Hquiet Hsupported Hvoices.
  destruct st as [lang0 [pid playing index ids continue timer]
                        [sup voices spk parked log]].
  simpl in *. subst playing timer spk sup voices.
  unfold ConversationDisplay.handlePlayAll. simpl.
  by destruct (List.filter _ _).
Qed.

(** X17. Stopping Play All. From an idle player, start Play All, let [n]
    events pass (utterances ending, timers firing), and click the button
    again while the run still goes on. The utterance being spoken is
    cancelled and its error event runs [onEnd], which finds
    [shouldContinuePlayingRef] false and sets no timer: the player is idle
    again, nothing is pending (no later event changes the state), and what
    has been handed to the synthesizer since the start is
    the text of the first [n / 2 + 1] playable sentences in playback order:
    no sentence is skipped and none is spoken after the stop. *)
Theorem stopped_run_spoke_a_prefix
    (sentences : list ConversationDisplay.ConversationSentence)
    (st : ConversationDisplay.state) (n : nat) :
  ConversationDisplay.isPlayingAll (ConversationDisplay.play st) = false →
  ConversationDisplay.timeoutRef (ConversationDisplay.play st) = None →
  ConversationDisplay.speaking (ConversationDisplay.synth st) = None →
  ConversationDisplay.supported (ConversationDisplay.synth st) = true →
  ConversationDisplay.voicesLoaded (ConversationDisplay.synth st) = true →
  let lang := ConversationDisplay.selectedLanguage st in
  let played :=
    List.filter (ConversationDisplay.playable lang)
                (ConversationDisplay.sortedSentences sentences) in
  let running := ticks n (ConversationDisplay.handlePlayAll sentences st) in
  ConversationDisplay.isPlayingAll (ConversationDisplay.play running) = true →
  let stopped := ConversationDisplay.handlePlayAll sentences running in
  ConversationDisplay.play stopped = ConversationDisplay.idlePlayer
  ∧ (∀ fuel, ConversationDisplay.settle fuel stopped = Some stopped)
  ∧ (n / 2 < length played)%nat
  ∧ spoken (ConversationDisplay.speechLog (ConversationDisplay.synth stopped))
    = spoken (ConversationDisplay.speechLog (ConversationDisplay.synth st))
      ++ (ConversationDisplay.textOf lang <$> take (S (n / 2)) played).
Proof.
  intros Hidle Htimer Hquiet Hsupported Hvoices lang played running.
  subst running. rewrite (handlePlayAll_starts sentences st) by done.
  cbn zeta. subst played. fold lang.
  destruct (List.filter (ConversationDisplay.playable lang)
              (ConversationDisplay.sortedSentences sentences))
    as [|s rest] eqn:Hplayed.
  { assert (ConversationDisplay.tick st = None) as Hnone.
    { unfold ConversationDisplay.tick. by rewrite Hquiet, Htimer. }
    rewrite (ticks_quiet n st Hnone). by rewrite Hidle. }
  intros Hplaying.
  set (before := ConversationDisplay.speechLog (ConversationDisplay.synth st))
    in *.
  set (parked :=
         ConversationDisplay.onvoiceschanged (ConversationDisplay.synth st))
    in *.
  destruct (ticks_run lang (s :: rest) parked before n [] s rest eq_refl
              Hplaying)
    as (done & s' & rest' & Hqueue & Hlen & Hstate).
  change (length [] + n / 2)%nat with (n / 2)%nat in Hlen.
  assert (take (S (n / 2)) (s :: rest) = done ++ [s']) as Htake.
  { rewrite Hqueue, <- Hlen.
    replace (S (length done)) with (length (done ++ [s']))
      by (rewrite length_app; simpl; lia).
    rewrite (cons_middle s' done rest'), app_assoc. apply take_app_length. }
  assert (n / 2 < length (s :: rest))%nat as Hbound.
  { rewrite Hqueue, length_app, <- Hlen. simpl. lia. }
  assert (spoken (before ++ concat (said lang <$> done)
                  ++ [ConversationDisplay.Spoke
                        (ConversationDisplay.textOf lang s')
                        (ConversationDisplay.langOf lang)])
          = spoken before ++ (ConversationDisplay.textOf lang <$> done ++ [s']))
    as Hspeaking.
  { by rewrite !spoken_app, spoken_said, fmap_app. }
  assert (spoken (before ++ concat (said lang <$> done) ++ said lang s')
          = spoken before ++ (ConversationDisplay.textOf lang <$> done ++ [s']))
    as Hpausing.
  { by rewrite !spoken_app, spoken_said, fmap_app. }
  cbn zeta. rewrite Htake.
  destruct Hstate as [-> | ->]; unfold ConversationDisplay.handlePlayAll;
    cbn -[spoken Nat.div].
  - split_and!; [done | | done |].
    + intros fuel. by apply settle_quiet.
    + rewrite spoken_app, Hspeaking. apply app_nil_r.
  - split_and!; [done | | done | done].
    intros fuel. by apply settle_quiet.
Qed.

Lemma stopped_run_spoke_a_prefix_witness :
  let s1 := {| ConversationDisplay.id := 1;
               ConversationDisplay.arabic := Examples.kitab;
               ConversationDisplay.english := Some (str "book");
               ConversationDisplay.order := 0 |} in
  let s2 := {| ConversationDisplay.id := 2;
               ConversationDisplay.arabic := Examples.qalam;
               ConversationDisplay.english := Some (str "pen");
               ConversationDisplay.order := 1 |} in
  let st := ConversationDisplay.initial ConversationDisplay.arabic_
              (quietBrowser []) in
  spoken (ConversationDisplay.speechLog
            (ConversationDisplay.synth
               (ConversationDisplay.handlePlayAll [s2; s1]
                  (ticks 1 (ConversationDisplay.handlePlayAll [s2; s1] st)))))
  = [Examples.kitab].
Proof.
  intros s1 s2 st.
  apply (stopped_run_spoke_a_prefix [s2; s1] st 1);
    reflexivity.
Defined.

Lemma sortByOrder_length l :
  length (ConversationDisplay.sortByOrder l) = length l.
Proof. apply Permutation_length, sortByOrder_Permutation. Qed.

(** X18. Play All with nothing to say. The button is disabled exactly when
    the conversation has no sentence. With sentences of which none has text
    in the selected language, a click changes nothing. In a browser without
    speech synthesis a click on playable sentences says nothing, but the
    component shows the run as started on the first playable sentence, and
    the page left alone stays so. *)
Theorem play_all_without_sound
    (sentences : list ConversationDisplay.ConversationSentence)
    (st : ConversationDisplay.state) :
  ConversationDisplay.isPlayingAll (ConversationDisplay.play st) = false →
  let played :=
    List.filter (ConversationDisplay.playable
                   (ConversationDisplay.selectedLanguage st))
                (ConversationDisplay.sortedSentences sentences) in
  let clicked := ConversationDisplay.handlePlayAll sentences st in
  (ConversationView.playAllDisabled sentences = true ↔ sentences = [])
  ∧ (played = [] → clicked = st)
  ∧ (∀ s rest,
       played = s :: rest →
       ConversationDisplay.supported (ConversationDisplay.synth st) = false →
       ConversationDisplay.isPlayingAll (ConversationDisplay.play clicked) = true
       ∧ ConversationDisplay.playingSentenceId (ConversationDisplay.play clicked)
         = Some (ConversationDisplay.id s)
       ∧ ConversationDisplay.synth clicked = ConversationDisplay.synth st
       ∧ (ConversationDisplay.tick st = None →
          ∀ fuel, ConversationDisplay.settle fuel clicked = Some clicked)).
Proof.
  intros Hidle played clicked. subst clicked played.
  unfold ConversationDisplay.handlePlayAll. rewrite Hidle. split_and!.
  - unfold ConversationView.playAllDisabled, ConversationDisplay.sortedSentences.
    rewrite sortByOrder_length, Nat.eqb_eq. by destruct sentences.
  - by intros ->.
  - intros s rest -> Hnone.
    unfold ConversationDisplay.playSentenceSequentially,
      ConversationDisplay.playAudio. simpl. rewrite Hnone. simpl.
    split_and!; [done..|]. intros Htick fuel. apply settle_quiet.
    unfold ConversationDisplay.tick in *. simpl.
    by destruct (ConversationDisplay.speaking (ConversationDisplay.synth st)),
         (ConversationDisplay.timeoutRef (ConversationDisplay.play st)).
Qed.

Lemma play_all_without_sound_witness :
  let s1 := {| ConversationDisplay.id := 1;
               ConversationDisplay.arabic := Examples.kitab;
               ConversationDisplay.english := None;
               ConversationDisplay.order := 0 |} in
  let st := ConversationDisplay.initial ConversationDisplay.english_
              (quietBrowser []) in
  ConversationView.playAllDisabled [s1] = false
  ∧ ConversationDisplay.handlePlayAll [s1] st = st.
Proof.
  intros s1 st.
  destruct (play_all_without_sound [s1] st eq_refl) as (_ & Hnothing & _).
  split; [reflexivity | by apply Hnothing].
Defined.

(** When Play All is not running, no timer is pending and
    [shouldContinuePlayingRef] is false: this holds when the component
    mounts, and every click and every event keeps it. *)
Lemma idle_nothing_pending sentences lang sy st :
  let idle st :=
    ConversationDisplay.isPlayingAll (ConversationDisplay.play st) = false →
    ConversationDisplay.timeoutRef (ConversationDisplay.play st) = None
    ∧ ConversationDisplay.shouldContinuePlayingRef (ConversationDisplay.play st)
      = false in
  idle (ConversationDisplay.initial lang sy)
  ∧ (idle st →
     idle (ConversationDisplay.handlePlayAll sentences st)
     ∧ (∀ s, idle (ConversationDisplay.handlePlaySentence s st))
     ∧ idle (ConversationDisplay.selectLanguage lang st)
     ∧ ∀ st', ConversationDisplay.tick st = Some st' → idle st').
Proof.
  intros idle. subst idle. cbn beta. split; [done|].
  destruct st as [lang0 [pid playing index ids continue timer]
                        [sup voices spk parked log]].
  cbn. intros Hidle.
  assert (playing = true
          ∨ playing = false ∧ timer = None ∧ continue = false) as Hstate.
  { destruct playing; [by left | right; split; [done | by apply Hidle]]. }
  clear Hidle.
  split_and!.
  - unfold ConversationDisplay.handlePlayAll. cbn.
    destruct Hstate as [-> | (-> & -> & ->)].
    + destruct sup, spk as [[t g [q i|]]|]; cbn; done.
    + destruct (List.filter _ _) as [|s0 rest]; cbn; [done|].
      destruct sup, voices, spk as [[t g [q i|]]|]; cbn; done.
  - intros s. unfold ConversationDisplay.handlePlaySentence.
    destruct Hstate as [-> | (-> & -> & ->)]; cbn -[bool_decide nonEmpty trim];
      case_bool_decide; cbn -[nonEmpty trim];
      try destruct (negb _ || negb _); cbn;
      destruct sup, voices, spk as [[t g [q i|]]|]; cbn; done.
  - unfold ConversationDisplay.selectLanguage.
    destruct lang, lang0; cbn; [by destruct Hstate as [-> | (-> & -> & ->)]| | |
                                 by destruct Hstate as [-> | (-> & -> & ->)]];
      destruct sup, spk as [[t g [q i|]]|]; cbn; done.
  - intros st'. unfold ConversationDisplay.tick. cbn.
    destruct spk as [[t g [q i|]]|]; cbn.
    + intros [= <-]. cbn. destruct Hstate as [-> | (-> & -> & ->)]; cbn; [|done].
      destruct continue; cbn; done.
    + intros [= <-]. cbn. by destruct Hstate as [-> | (-> & -> & ->)].
    + destruct timer as [[q next]|]; [|done]. intros [= <-].
      destruct Hstate as [-> | (_ & [=] & _)].
      unfold ConversationDisplay.timerFired. cbn.
      destruct continue; cbn; [|done].
      destruct (q !! next); cbn; [|done].
      destruct sup, voices; cbn; done.
Qed.

(** X19. The button beside one sentence, in a browser that speaks. A click
    always ends a Play All run: the error event of the utterance it
    interrupts finds [shouldContinuePlayingRef] false and sets no timer. On
    the sentence marked as playing, the click stops the speech and clears
    the mark. On another sentence with text in the selected language, that
    sentence alone is handed to the synthesizer, once, and when it has
    ended no sentence is marked; it is marked while it is spoken, unless the
    click interrupted another single sentence, whose error event then
    clears the mark. On a sentence without text nothing is spoken; when
    this interrupts a run, the sentence the run was at stays marked. The
    hypothesis on a player that is not playing all holds in every state the
    component reaches ([idle_nothing_pending]). *)
Theorem single_sentence_click
    (s : ConversationDisplay.ConversationSentence)
    (st : ConversationDisplay.state) :
  ConversationDisplay.supported (ConversationDisplay.synth st) = true →
  ConversationDisplay.voicesLoaded (ConversationDisplay.synth st) = true →
  (ConversationDisplay.isPlayingAll (ConversationDisplay.play st) = false →
   ConversationDisplay.timeoutRef (ConversationDisplay.play st) = None
   ∧ ConversationDisplay.shouldContinuePlayingRef (ConversationDisplay.play st)
     = false) →
  let lang := ConversationDisplay.selectedLanguage st in
  let text := ConversationDisplay.textOf lang s in
  let marked st' :=
    ConversationDisplay.playingSentenceId (ConversationDisplay.play st') in
  let heard st' :=
    spoken (ConversationDisplay.speechLog (ConversationDisplay.synth st')) in
  let single :=
    ∃ u, ConversationDisplay.speaking (ConversationDisplay.synth st) = Some u
         ∧ ConversationDisplay.utt_onEnd u = ConversationDisplay.ClearPlaying in
  let clicked := ConversationDisplay.handlePlaySentence s st in
  (ConversationDisplay.isPlayingAll (ConversationDisplay.play clicked) = false
   ∧ ConversationDisplay.shouldContinuePlayingRef
       (ConversationDisplay.play clicked) = false
   ∧ ConversationDisplay.timeoutRef (ConversationDisplay.play clicked) = None)
  ∧ (marked st = Some (ConversationDisplay.id s) →
     marked clicked = None ∧ heard clicked = heard st
     ∧ ∀ fuel, ConversationDisplay.settle fuel clicked = Some clicked)
  ∧ (marked st ≠ Some (ConversationDisplay.id s) → trim text = [] →
     heard clicked = heard st
     ∧ (ConversationDisplay.isPlayingAll (ConversationDisplay.play st) = false →
        clicked = st)
     ∧ (¬ single → marked clicked = marked st))
  ∧ (marked st ≠ Some (ConversationDisplay.id s) → trim text ≠ [] →
     heard clicked = heard st ++ [text]
     ∧ (¬ single → marked clicked = Some (ConversationDisplay.id s))
     ∧ (single → marked clicked = None)
     ∧ ∃ final,
         ConversationDisplay.settle 1 clicked = Some final
         ∧ marked final = None
         ∧ ConversationDisplay.isPlayingAll (ConversationDisplay.play final)
           = false
         ∧ heard final = heard st ++ [text]).
Proof.
  intros Hsupported Hvoices Hidle lang text marked heard single clicked.
  subst lang text marked heard single clicked.
  destruct st as [lang [pid playing index ids continue timer]
                       [sup voices spk parked before]].
  simpl in *. subst sup voices.
  assert (∀ t, trim t ≠ [] → nonEmpty t = true ∧ nonEmpty (trim t) = true)
    as Hfull.
  { intros t Ht. rewrite !nonEmpty_true. split; [|done].
    intros ->. by rewrite trim_nil in Ht. }
  assert (∀ t, trim t = [] →
               negb (nonEmpty t) || negb (nonEmpty (trim t)) = true) as Hblank.
  { intros t Ht. rewrite Ht. simpl. apply orb_true_r. }
  assert (∀ l t, spoken (l ++ [ConversationDisplay.Ended t]) = spoken l)
    as Hended.
  { intros l t. rewrite spoken_app. apply app_nil_r. }
  assert (∀ l t g, spoken (l ++ [ConversationDisplay.Spoke t g])
                   = spoken l ++ [t]) as Hspoke.
  { intros l t g. by rewrite spoken_app. }
  unfold ConversationDisplay.handlePlaySentence.
  assert (∀ t, trim t = [] →
               negb (nonEmpty t) || negb (nonEmpty (trim t)) = false → False)
    as Hblank'.
  { intros t Ht Hf. by rewrite (Hblank t Ht) in Hf. }
  assert (∀ t, trim t ≠ [] →
               negb (nonEmpty t) || negb (nonEmpty (trim t)) = true → False)
    as Hfull'.
  { intros t Ht Hf. destruct (Hfull t Ht) as [E1 E2].
    by rewrite E1, E2 in Hf. }
  destruct playing; [|destruct (Hidle eq_refl) as [-> ->]];
    destruct spk as [[t g [q i|]]|];
    cbn -[spoken trim bool_decide nonEmpty];
    (case_bool_decide as Hpid;
     [|destruct (negb (nonEmpty (ConversationDisplay.textOf lang s))
                 || negb (nonEmpty (trim (ConversationDisplay.textOf lang s))))
         eqn:Htext]);
    cbn -[spoken trim];
    (split_and!; [ | | | intros Hmark | intros Hmark Ht | intros Hmark Ht]);
    try done;
    try (by destruct (Hblank' _ Ht Htext));
    try (by destruct (Hfull' _ Ht Htext)).
  all: try (split_and!; [ done | by rewrite ?Hended | intros fuel; by apply settle_quiet ]).
  all: try (split_and!;
        [ by rewrite ?Hended
        | by intros [=]
        | intros Hsingle; try done; destruct Hsingle; by eexists ]).
  all: try (split_and!;
        [ by rewrite ?Hended, ?Hspoke, ?Hended
        | intros Hsingle; try done; destruct Hsingle; by eexists
        | intros (u & [= <-] & Hu); done
        | eexists; split; [reflexivity|]; cbn -[spoken trim];
          split_and!; [done | done | by rewrite ?Hended, ?Hspoke, ?Hended] ]).
Qed.

Lemma single_sentence_click_witness :
  let s2 := {| ConversationDisplay.id := 2;
               ConversationDisplay.arabic := Examples.qalam;
               ConversationDisplay.english := Some (str "pen");
               ConversationDisplay.order := 1 |} in
  let st := ConversationDisplay.initial ConversationDisplay.english_
              (quietBrowser []) in
  ∃ final,
    ConversationDisplay.settle 1 (ConversationDisplay.handlePlaySentence s2 st)
    = Some final
    ∧ ConversationDisplay.playingSentenceId (ConversationDisplay.play final)
      = None
    ∧ ConversationDisplay.isPlayingAll (ConversationDisplay.play final) = false
    ∧ spoken (ConversationDisplay.speechLog (ConversationDisplay.synth final))
      = [str "pen"].
Proof.
  intros s2 st.
  destruct (single_sentence_click s2 st eq_refl eq_refl
              (λ _, conj eq_refl eq_refl))
    as (_ & _ & _ & Hplay).
  destruct (Hplay ltac:(discriminate) ltac:(discriminate))
    as (_ & _ & _ & Hfinal).
  exact Hfinal.
Defined.


(** * Further properties of the pages *)

(** X20. The learner pages show data only to a signed-in user: whenever
    the books page, a book page or a unit page renders, [getSession] had
    answered a session. *)
Theorem pages_render_only_with_a_session `{Runtime}
    (penv : environment Pages.pageEvent) (v : Pages.view) :
  fst (run penv Pages.BooksPage) = Ok (Pages.Rendered v)
  ∨ fst (run penv Pages.BookDetailPage) = Ok (Pages.Rendered v)
  ∨ fst (run penv Pages.UnitDetailPage) = Ok (Pages.Rendered v) →
  ∃ session,
    penv _ (Pages.GetSession (penv _ Pages.Headers)) = Ok session
    ∧ truthy session = true.
Proof.
  unfold Pages.BooksPage, Pages.BookDetailPage, Pages.UnitDetailPage,
    Pages.getSession.
  simpl.
  destruct (penv _ (Pages.GetSession (penv _ Pages.Headers)))
    as [session|e]; simpl.
  - destruct (truthy session) eqn:Hsession; simpl.
    + intros _. by exists session.
    + intros [?|[?|?]]; discriminate.
  - intros [?|[?|?]]; discriminate.
Qed.

Lemma pages_render_only_with_a_session_witness :
  ∃ session,
    Examples.pageEnv (JObj []) _
      (Pages.GetSession (Examples.pageEnv (JObj []) _ Pages.Headers))
    = Ok session
    ∧ truthy session = true.
Proof.
  apply (@pages_render_only_with_a_session Examples.runtime
           (Examples.pageEnv (JObj [])) (Pages.BooksView [])).
  left. reflexivity.
Defined.

(** X21. The book page and the unit page for a signed-in user. An id that
    is not a number gives "not found" before any data is asked for. A
    missing book or unit gives "not found" once both queries of the page
    have answered, and for a unit the book is then not looked up. Otherwise
    the page renders what the queries answered; the unit page renders even
    when the unit's book is missing. *)
Theorem detail_pages_find_or_not `{Runtime}
    (penv : environment Pages.pageEvent) (session : json) :
  penv _ (Pages.GetSession (penv _ Pages.Headers)) = Ok session →
  truthy session = true →
  let asked : list (sigT Pages.pageEvent) :=
    [ existT _ Pages.Headers;
      existT _ (Pages.GetSession (penv _ Pages.Headers));
      existT _ Pages.Params ] in
  (parseInt (penv _ Pages.Params) = None →
   run penv Pages.BookDetailPage = (Ok Pages.NotFound, asked)
   ∧ run penv Pages.UnitDetailPage = (Ok Pages.NotFound, asked))
  ∧ (∀ n b units,
       parseInt (penv _ Pages.Params) = Some n →
       penv _ (Pages.GetBookById n) = Ok b →
       penv _ (Pages.GetUnitsByBook n) = Ok units →
       run penv Pages.BookDetailPage
       = (Ok match b with
             | None => Pages.NotFound
             | Some b => Pages.Rendered (Pages.BookDetailView b units)
             end,
          asked ++ [ existT _ (Pages.GetBookById n);
                     existT _ (Pages.GetUnitsByBook n) ]))
  ∧ (∀ n lessons,
       parseInt (penv _ Pages.Params) = Some n →
       penv _ (Pages.GetUnitById n) = Ok None →
       penv _ (Pages.GetLessonsByUnit n) = Ok lessons →
       run penv Pages.UnitDetailPage
       = (Ok Pages.NotFound,
          asked ++ [ existT _ (Pages.GetUnitById n);
                     existT _ (Pages.GetLessonsByUnit n) ]))
  ∧ (∀ n u lessons b,
       parseInt (penv _ Pages.Params) = Some n →
       penv _ (Pages.GetUnitById n) = Ok (Some u) →
       penv _ (Pages.GetLessonsByUnit n) = Ok lessons →
       penv _ (Pages.GetBookById (Pages.unit_bookId u)) = Ok b →
       run penv Pages.UnitDetailPage
       = (Ok (Pages.Rendered (Pages.UnitDetailView u lessons b)),
          asked ++ [ existT _ (Pages.GetUnitById n);
                     existT _ (Pages.GetLessonsByUnit n);
                     existT _ (Pages.GetBookById (Pages.unit_bookId u)) ])).
Proof.
  intros Hsession Htruthy asked. subst asked.
  unfold Pages.BookDetailPage, Pages.UnitDetailPage, Pages.getSession.
  split_and!.
  - intros Hid. simpl. rewrite Hsession. simpl. rewrite Htruthy. simpl.
    by rewrite Hid.
  - intros n b units Hid Hbook Hunits. simpl. rewrite Hsession. simpl.
    rewrite Htruthy. simpl. rewrite Hid. simpl. rewrite Hbook, Hunits.
    by destruct b.
  - intros n lessons Hid Hunit Hlessons. simpl. rewrite Hsession. simpl.
    rewrite Htruthy. simpl. rewrite Hid. simpl. by rewrite Hunit, Hlessons.
  - intros n u lessons b Hid Hunit Hlessons Hbook. simpl. rewrite Hsession.
    simpl. rewrite Htruthy. simpl. rewrite Hid. simpl.
    rewrite Hunit, Hlessons. simpl. by rewrite Hbook.
Qed.

Lemma detail_pages_find_or_not_witness :
  let penv := Examples.pageEnv (JObj []) in
  run penv (@Pages.BookDetailPage Examples.runtime)
  = (Ok Pages.NotFound,
     [ existT _ Pages.Headers; existT _ (Pages.GetSession []);
       existT _ Pages.Params; existT _ (Pages.GetBookById 1);
       existT _ (Pages.GetUnitsByBook 1) ]).
Proof.
  intros penv.
  destruct (@detail_pages_find_or_not Examples.runtime penv (JObj [])
              eq_refl eq_refl) as (_ & Hbook & _).
  apply (Hbook 1%Z None [] eq_refl eq_refl eq_refl).
Defined.

(** X22. The admin pages. For a user who is not an admin both pages
    redirect to the home page, and [isAdmin] is the only call they have
    made. The vocabulary page of a lesson of another type redirects to the
    lessons of the lesson's unit. A page renders only for an admin, only
    the rows the queries answered for the id of the route, and the
    vocabulary page only a lesson of type "vocabulary". *)
Theorem admin_pages_guard `{Runtime}
    (env : environment AdminPages.adminEvent) :
  (env _ AdminPages.IsAdmin = Ok false →
   run env AdminPages.AdminLessonsPage
   = (Ok (AdminPages.Redirect (str "/")), [existT _ AdminPages.IsAdmin])
   ∧ run env AdminPages.AdminVocabularyPage
     = (Ok (AdminPages.Redirect (str "/")), [existT _ AdminPages.IsAdmin]))
  ∧ (∀ n words l,
       env _ AdminPages.IsAdmin = Ok true →
       parseInt (env _ AdminPages.Params) = Some n →
       env _ (AdminPages.GetVocabularyWordsByLesson n) = Ok words →
       env _ (AdminPages.GetLessonById n) = Ok (Some l) →
       AdminPages.lesson_type l ≠ str "vocabulary" →
       fst (run env AdminPages.AdminVocabularyPage)
       = Ok (AdminPages.Redirect
               (str "/admin/units/" ++ str (pretty (AdminPages.lesson_unitId l))
                ++ str "/lessons")))
  ∧ (∀ v,
       fst (run env AdminPages.AdminLessonsPage) = Ok (AdminPages.Rendered v)
       ∨ fst (run env AdminPages.AdminVocabularyPage)
         = Ok (AdminPages.Rendered v) →
       env _ AdminPages.IsAdmin = Ok true
       ∧ ∃ n, parseInt (env _ AdminPages.Params) = Some n
              ∧ match v with
                | AdminPages.LessonsView lessons u =>
                    env _ (AdminPages.GetLessonsByUnit n) = Ok lessons
                    ∧ env _ (AdminPages.GetUnitById n) = Ok (Some u)
                | AdminPages.VocabularyView words l =>
                    env _ (AdminPages.GetVocabularyWordsByLesson n) = Ok words
                    ∧ env _ (AdminPages.GetLessonById n) = Ok (Some l)
                    ∧ AdminPages.lesson_type l = str "vocabulary"
                end).
Proof.
  unfold AdminPages.AdminLessonsPage, AdminPages.AdminVocabularyPage.
  split_and!.
  - intros Hadmin. simpl. by rewrite Hadmin.
  - intros n words l Hadmin Hid Hwords Hlesson Htype.
    change (str "/admin/units/" ++ str (pretty (AdminPages.lesson_unitId l))
            ++ str "/lessons")
      with (AdminPages.lessonsUrl (AdminPages.lesson_unitId l)).
    apply (bool_decide_eq_false_2 _) in Htype.
    cbn -[bool_decide str AdminPages.lessonsUrl]. rewrite Hadmin.
    cbn -[bool_decide str AdminPages.lessonsUrl]. rewrite Hid.
    cbn -[bool_decide str AdminPages.lessonsUrl]. rewrite Hwords, Hlesson.
    cbn -[bool_decide str AdminPages.lessonsUrl]. by rewrite Htype.
  - intros v. simpl.
    destruct (env _ AdminPages.IsAdmin) as [[|]|e]; simpl;
      [|intros [?|?]; discriminate..].
    destruct (parseInt (env _ AdminPages.Params)) as [n|]; simpl;
      [|intros [?|?]; discriminate].
    intros Hrendered. split; [done|]. exists n. split; [done|].
    destruct Hrendered as [Hlessons|Hvocabulary].
    + destruct (env _ (AdminPages.GetLessonsByUnit n)) as [lessons|];
        destruct (env _ (AdminPages.GetUnitById n)) as [[u|]|];
        simpl in Hlessons; try discriminate.
      by injection Hlessons as <-.
    + destruct (env _ (AdminPages.GetVocabularyWordsByLesson n)) as [words|];
        destruct (env _ (AdminPages.GetLessonById n)) as [[l|]|];
        simpl in Hvocabulary; try discriminate.
      case_bool_decide as Htype; simpl in Hvocabulary; [|discriminate].
      by injection Hvocabulary as <-.
Qed.

Lemma admin_pages_guard_witness :
  let l := {| AdminPages.lesson_id := 7; AdminPages.lesson_unitId := 3;
              AdminPages.lesson_title := str "At school";
              AdminPages.lesson_type := str "conversation" |} in
  fst (run (AdminPages.exampleEnv true (str "7") (Some l))
           (@AdminPages.AdminVocabularyPage Examples.runtime))
  = Ok (AdminPages.Redirect (str "/admin/units/3/lessons")).
Proof.
  intros l.
  destruct (@admin_pages_guard Examples.runtime
              (AdminPages.exampleEnv true (str "7") (Some l)))
    as (_ & Hredirect & _).
  apply (Hredirect 7%Z [] l); try reflexivity. discriminate.
Defined.

(** * Properties of the vocabulary management *)

(** X23. Operations that are refused or fail change nothing. With a blank
    Arabic or English text (the case in which the Add button is disabled)
    creating only alerts; a deletion that is not confirmed, and a save
    without edit data, call nothing. When the server action rejects, the
    state is left as it was and the user is alerted. *)
Theorem refused_or_failed_changes_nothing
    (env : environment VocabularyManagement.mgmtEvent)
    (lessonId wordId : Z) (st : VocabularyManagement.state) :
  let newWord := VocabularyManagement.newWord st in
  let question := str "Are you sure you want to delete this word pair?" in
  (VocabularyManagement.addDisabled false st = true
   ↔ trim (VocabularyManagement.data_arabic newWord) = []
     ∨ trim (VocabularyManagement.data_english newWord) = [])
  ∧ (VocabularyManagement.addDisabled false st = true →
     run env (VocabularyManagement.handleCreate lessonId st)
     = (Ok st,
        [ existT _ (VocabularyManagement.Alert
                      (str "Both Arabic and English are required")) ]))
  ∧ (env _ (VocabularyManagement.Confirm question) = false →
     run env (VocabularyManagement.handleDelete wordId st)
     = (Ok st, [existT _ (VocabularyManagement.Confirm question)]))
  ∧ (VocabularyManagement.editData st = None →
     run env (VocabularyManagement.handleSave wordId st) = (Ok st, []))
  ∧ (∀ e,
       env _ (VocabularyManagement.AddVocabularyWord lessonId newWord)
       = Throw e →
       fst (run env (VocabularyManagement.handleCreate lessonId st)) = Ok st)
  ∧ (∀ e,
       env _ (VocabularyManagement.DeleteVocabularyWord wordId) = Throw e →
       fst (run env (VocabularyManagement.handleDelete wordId st)) = Ok st)
  ∧ (∀ e d,
       VocabularyManagement.editData st = Some d →
       env _ (VocabularyManagement.UpdateVocabularyWord wordId d) = Throw e →
       run env (VocabularyManagement.handleSave wordId st)
       = (Ok st,
          [ existT _ (VocabularyManagement.UpdateVocabularyWord wordId d);
            existT _ (VocabularyManagement.ConsoleError
                        (str "Failed to update vocabulary word:") e);
            existT _ (VocabularyManagement.Alert
                        (str "Failed to update vocabulary word. "
                         ++ str "Please try again.")) ])).
Proof.
  intros newWord question. subst newWord question. split_and!.
  - unfold VocabularyManagement.addDisabled, VocabularyManagement.incomplete.
    simpl.
    destruct (trim (VocabularyManagement.data_arabic _)),
      (trim (VocabularyManagement.data_english _)); simpl;
      split; try done; try (by left); try (by right); by intros [?|?].
  - unfold VocabularyManagement.addDisabled, VocabularyManagement.handleCreate.
    simpl. by intros ->.
  - intros Hno. unfold VocabularyManagement.handleDelete. cbn -[str].
    by rewrite Hno.
  - intros Hnone. unfold VocabularyManagement.handleSave. by rewrite Hnone.
  - intros e He. unfold VocabularyManagement.handleCreate.
    destruct (VocabularyManagement.incomplete _); [done|].
    cbn -[str]. by rewrite He.
  - intros e He. unfold VocabularyManagement.handleDelete. cbn -[str].
    destruct (env _ (VocabularyManagement.Confirm _)); [|done].
    cbn -[str]. by rewrite He.
  - intros e d Hd He. unfold VocabularyManagement.handleSave. rewrite Hd.
    cbn -[str]. by rewrite He.
Qed.



Lemma refused_or_failed_changes_nothing_witness :
  let st := VocabularyManagement.initial [] in
  run (VocabularyManagement.exampleEnv 1 true)
      (VocabularyManagement.handleCreate 7 st)
  = (Ok st,
     [ existT _ (VocabularyManagement.Alert
                   (str "Both Arabic and English are required")) ]).
Proof.
  intros st.
  destruct (refused_or_failed_changes_nothing
              (VocabularyManagement.exampleEnv 1 true) 7 0 st)
    as (_ & Hblank & _).
  apply Hblank. reflexivity.
Defined.
